(** * node-config: the merge, clone, diff, freeze, accessor and module-defaults
      core of lib/config.js

    A shallow embedding of [lib/config.js] and the properties of its
    specification.

    ** How JavaScript values are represented

    - Primitives are constructors of [value].  Numbers are integers ([Z]):
      the depth arguments and the configuration numbers used below are
      integers; NaN, infinities and fractions are outside the embedding,
      except for the NaN that [undefined - 1] produces for an omitted depth
      argument, which [jsdepth] represents.
    - An object is [VObj l c ps]: its identity [l] (two values denote the
      same JavaScript object exactly when they carry the same [l]; [===] on
      objects compares [l]), its class [c] (what [Array.isArray],
      [instanceof Date], [instanceof RegExp], [instanceof DeferredConfig],
      [instanceof RawConfig] and [.constructor] observe) and its own data
      properties [ps], in enumeration order, each with the attributes of its
      property descriptor.  Arrays are objects of class [CArray] whose
      properties are the indices.
    - A function value is [VFun f]; calling it is delegated to a parameter of
      the section that needs it.
    - A value is a snapshot of the object graph reachable from it.  Code that
      mutates an object in place returns the updated snapshot, and the caller
      stores it back under the key it was read from.  Aliasing between two
      graphs is visible as a shared identity.

    Outside the embedding: accessor properties (getters and setters),
    properties inherited through the prototype chain (only own properties are
    enumerated and read; [setModuleDefaults] alone looks a key of the
    configuration object up in [Config.prototype]), non-extensible objects,
    Buffers, and cyclic object graphs (a value is a finite tree). *)

From Stdlib Require Import ZArith List String Ascii Bool Arith Lia.
From Stdlib Require Import DecimalString.
Import ListNotations.
Local Open Scope string_scope.
Local Open Scope Z_scope.

(* ------------------------------------------------------------------ *)
(** * Values *)
(* ------------------------------------------------------------------ *)

Definition loc := nat.

(** The attributes of a data property descriptor. *)
Record attrs : Type := mkAttrs
  { writable : bool; enumerable : bool; configurable : bool }.

(** What [obj[k] = v] gives a property it creates. *)
Definition default_attrs : attrs := mkAttrs true true true.

(** The class of an object.  [CDate] carries the time value,
    [CRegExp] the source, the flags (as [getRegExpFlags] reads them: a
    sub-sequence of "gim") and [lastIndex]. *)
Inductive cls : Type :=
| CObject
| CArray
| CDate (time : Z)
| CRegExp (source flags : string) (lastIndex : Z)
| CDeferred
| CRaw.

#[local] Set Warnings "-register-all".
Inductive value : Type :=
| VUndef
| VNull
| VBool (b : bool)
| VNum (n : Z)
| VStr (s : string)
| VFun (f : nat)
| VObj (l : loc) (c : cls) (ps : list (string * attrs * value)).

#[local] Set Warnings "register-all".
Arguments VObj l%_nat_scope c ps%_list_scope.
Arguments VFun f%_nat_scope.

Definition props := list (string * attrs * value).

(** Induction over a value and the values stored in its properties. *)
Fixpoint value_props_ind (P : value -> Prop)
    (HUndef : P VUndef) (HNull : P VNull)
    (HBool : forall b, P (VBool b)) (HNum : forall n, P (VNum n))
    (HStr : forall s, P (VStr s)) (HFun : forall f, P (VFun f))
    (HObj : forall l c ps, Forall (fun e => P (snd e)) ps -> P (VObj l c ps))
    (v : value) {struct v} : P v :=
  match v with
  | VUndef => HUndef
  | VNull => HNull
  | VBool b => HBool b
  | VNum n => HNum n
  | VStr s => HStr s
  | VFun f => HFun f
  | VObj l c ps =>
      HObj l c ps
        ((fix all (ps : props) : Forall (fun e => P (snd e)) ps :=
            match ps with
            | [] => Forall_nil _
            | e :: rest =>
                Forall_cons e
                  (value_props_ind P HUndef HNull HBool HNum HStr HFun HObj (snd e))
                  (all rest)
            end) ps)
  end.

Inductive error : Type :=
| TypeError (msg : string)
| Error (msg : string).

(** The outcome of a call: a returned value or a thrown exception. *)
Inductive result (A : Type) : Type :=
| Ok (a : A)
| Throw (e : error).
Arguments Ok {A} a.
Arguments Throw {A} e.

Definition bind {A B} (r : result A) (f : A -> result B) : result B :=
  match r with
  | Ok a => f a
  | Throw e => Throw e
  end.

Notation "'let*' x ':=' c1 'in' c2" := (bind c1 (fun x => c2))
  (at level 61, x name, c1 at next level, right associativity).
Notation "'let*' ' p ':=' c1 'in' c2" := (bind c1 (fun p => c2))
  (at level 61, p pattern, c1 at next level, right associativity).

(* ------------------------------------------------------------------ *)
(** * Operators of the language *)
(* ------------------------------------------------------------------ *)

Definition cls_eqb (c1 c2 : cls) : bool :=
  match c1, c2 with
  | CObject, CObject | CArray, CArray | CDeferred, CDeferred | CRaw, CRaw => true
  | CDate t1, CDate t2 => Z.eqb t1 t2
  | CRegExp s1 f1 i1, CRegExp s2 f2 i2 =>
      String.eqb s1 s2 && String.eqb f1 f2 && Z.eqb i1 i2
  | _, _ => false
  end.

(** ToBoolean. *)
Definition truthy (v : value) : bool :=
  match v with
  | VUndef | VNull => false
  | VBool b => b
  | VNum n => negb (Z.eqb n 0)
  | VStr s => negb (String.eqb s "")
  | VFun _ | VObj _ _ _ => true
  end.

(** [typeof v === 'object'] (true of [null]). *)
Definition typeof_object (v : value) : bool :=
  match v with
  | VNull | VObj _ _ _ => true
  | _ => false
  end.

Definition isArray (v : value) : bool :=
  match v with
  | VObj _ CArray _ => true
  | _ => false
  end.

(** [a === b]: primitives by value, objects by identity. *)
Definition strict_eq (a b : value) : bool :=
  match a, b with
  | VUndef, VUndef | VNull, VNull => true
  | VBool x, VBool y => Bool.eqb x y
  | VNum x, VNum y => Z.eqb x y
  | VStr x, VStr y => String.eqb x y
  | VFun x, VFun y => Nat.eqb x y
  | VObj l1 _ _, VObj l2 _ _ => Nat.eqb l1 l2
  | _, _ => false
  end.

(** [v == null]. *)
Definition loose_null (v : value) : bool :=
  match v with
  | VUndef | VNull => true
  | _ => false
  end.

Definition instanceof_Date (v : value) : bool :=
  match v with VObj _ (CDate _) _ => true | _ => false end.
Definition instanceof_RegExp (v : value) : bool :=
  match v with VObj _ (CRegExp _ _ _) _ => true | _ => false end.
Definition instanceof_DeferredConfig (v : value) : bool :=
  match v with VObj _ CDeferred _ => true | _ => false end.
Definition instanceof_RawConfig (v : value) : bool :=
  match v with VObj _ CRaw _ => true | _ => false end.

(** The decimal numeral of an array index. *)
Definition index_key (i : nat) : string :=
  NilEmpty.string_of_uint (Nat.to_uint i).

(* ------------------------------------------------------------------ *)
(** * Own properties *)
(* ------------------------------------------------------------------ *)

Fixpoint own (ps : props) (k : string) : option (attrs * value) :=
  match ps with
  | [] => None
  | (k', a, v) :: rest => if String.eqb k' k then Some (a, v) else own rest k
  end.

Definition keys (ps : props) : list string := map (fun e => fst (fst e)) ps.

(** The own enumerable properties, in enumeration order. *)
Definition enumerable_props (ps : props) : props :=
  filter (fun e => enumerable (snd (fst e))) ps.

(** [Object.keys(o)] of an object's properties. *)
Definition Object_keys (ps : props) : list string := keys (enumerable_props ps).

(** The characters of a string as its index properties: not writable,
    enumerable, not configurable. *)
Fixpoint string_props (i : nat) (s : string) : props :=
  match s with
  | EmptyString => []
  | String ch rest =>
      (index_key i, mkAttrs false true false, VStr (String ch EmptyString))
        :: string_props (S i) rest
  end.

(** [v[k]]: throws on [null] and [undefined]; a string has its indices and
    its [length]; a missing property reads as [undefined]. *)
Definition get_prop (v : value) (k : string) : result value :=
  match v with
  | VUndef | VNull => Throw (TypeError "Cannot read properties of null or undefined")
  | VObj _ _ ps =>
      match own ps k with
      | Some (_, x) => Ok x
      | None => Ok VUndef
      end
  | VStr s =>
      if String.eqb k "length" then Ok (VNum (Z.of_nat (String.length s)))
      else match own (string_props 0 s) k with
           | Some (_, x) => Ok x
           | None => Ok VUndef
           end
  | _ => Ok VUndef
  end.

(** What [for (k in v)] enumerates, with the value [v[k]] of each key. *)
Definition for_in (v : value) : props :=
  match v with
  | VObj _ _ ps => enumerable_props ps
  | VStr s => string_props 0 s
  | _ => []
  end.

(** Replace the value stored under [k], keeping the attributes: the write-back
    of an object that was mutated in place. *)
Fixpoint store (ps : props) (k : string) (v : value) : props :=
  match ps with
  | [] => []
  | (k', a, x) :: rest =>
      if String.eqb k' k then (k', a, v) :: rest else (k', a, x) :: store rest k v
  end.

(** [[Set]] on own data properties, outside strict mode: a write to a
    non-writable property is ignored, a new key is appended. *)
Fixpoint assign (ps : props) (k : string) (v : value) : props :=
  match ps with
  | [] => [(k, default_attrs, v)]
  | (k', a, x) :: rest =>
      if String.eqb k' k
      then (if writable a then (k', a, v) :: rest else (k', a, x) :: rest)
      else (k', a, x) :: assign rest k v
  end.

(** [o[k] = v] outside strict mode: throws on [null] and [undefined], does
    nothing on another primitive. *)
Definition set_prop (o : value) (k : string) (v : value) : result value :=
  match o with
  | VUndef | VNull => Throw (TypeError "Cannot set properties of null or undefined")
  | VObj l c ps => Ok (VObj l c (assign ps k v))
  | _ => Ok o
  end.

(** A property descriptor as passed to [Object.defineProperty]: each field
    may be absent. *)
Record descriptor : Type := mkDesc
  { d_value : option value;
    d_writable : option bool;
    d_enumerable : option bool;
    d_configurable : option bool }.

Definition opt_default {A} (o : option A) (d : A) : A :=
  match o with Some a => a | None => d end.

(** SameValue, on the values of the embedding. *)
Definition same_value : value -> value -> bool := strict_eq.

(** ValidateAndApplyPropertyDescriptor for a data descriptor against an
    existing data property: [None] when the change is rejected. *)
Definition apply_descriptor (a : attrs) (x : value) (d : descriptor)
  : option (attrs * value) :=
  let rejected :=
    negb (configurable a) &&
    (opt_default (d_configurable d) false
     || match d_enumerable d with
        | Some e => negb (Bool.eqb e (enumerable a))
        | None => false
        end
     || (negb (writable a) &&
         (opt_default (d_writable d) false
          || match d_value d with
             | Some v => negb (same_value v x)
             | None => false
             end))) in
  if rejected then None
  else Some (mkAttrs (opt_default (d_writable d) (writable a))
                     (opt_default (d_enumerable d) (enumerable a))
                     (opt_default (d_configurable d) (configurable a)),
             opt_default (d_value d) x).

(** [[DefineOwnProperty]] on the property list; a created property takes
    [false] and [undefined] for the absent fields. *)
Fixpoint define_own (ps : props) (k : string) (d : descriptor) : option props :=
  match ps with
  | [] =>
      Some [(k,
             mkAttrs (opt_default (d_writable d) false)
                     (opt_default (d_enumerable d) false)
                     (opt_default (d_configurable d) false),
             opt_default (d_value d) VUndef)]
  | (k', a, x) :: rest =>
      if String.eqb k' k
      then match apply_descriptor a x d with
           | Some (a', x') => Some ((k', a', x') :: rest)
           | None => None
           end
      else match define_own rest k d with
           | Some rest' => Some ((k', a, x) :: rest')
           | None => None
           end
  end.

(** [Object.defineProperty(o, k, d)], which returns [o]. *)
Definition defineProperty (o : value) (k : string) (d : descriptor) : result value :=
  match o with
  | VObj l c ps =>
      match define_own ps k d with
      | Some ps' => Ok (VObj l c ps')
      | None => Throw (TypeError "Cannot redefine property")
      end
  | _ => Throw (TypeError "Object.defineProperty called on non-object")
  end.

(** [Object.getOwnPropertyDescriptor(Object(o), k)]. *)
Definition getOwnPropertyDescriptor (o : value) (k : string) : option descriptor :=
  match own (match o with VObj _ _ ps => ps | VStr s => string_props 0 s | _ => [] end) k with
  | Some (a, v) =>
      Some (mkDesc (Some v) (Some (writable a)) (Some (enumerable a))
                   (Some (configurable a)))
  | None => None
  end.

(** [o.hasOwnProperty(k)]. *)
Definition hasOwnProperty (o : value) (k : string) : bool :=
  match getOwnPropertyDescriptor o k with Some _ => true | None => false end.

(* ------------------------------------------------------------------ *)
(** * Static members *)
(* ------------------------------------------------------------------ *)

Definition DEFAULT_CLONE_DEPTH : Z := 20.

(** [util.isObject]: an object, not [null], not an array. *)
Definition isObject (obj : value) : bool :=
  negb (strict_eq obj VNull) && typeof_object obj && negb (isArray obj).

(* ------------------------------------------------------------------ *)
(** * Accessors: [getImpl], [get], [has] *)
(* ------------------------------------------------------------------ *)

(** [s.split(sep)] for a one-character separator. *)
Fixpoint split_on (sep : ascii) (s : string) : list string :=
  match s with
  | EmptyString => [EmptyString]
  | String ch rest =>
      if Ascii.eqb ch sep then EmptyString :: split_on sep rest
      else match split_on sep rest with
           | [] => [String ch EmptyString]
           | piece :: pieces => String ch piece :: pieces
           end
  end.

(** The decimal numeral of an integer. *)
Definition number_key (n : Z) : string :=
  match n with
  | Zneg p => "-" ++ index_key (Pos.to_nat p)
  | _ => index_key (Z.to_nat n)
  end.

(** ToPropertyKey of a path element.  An object or a function as a key
    (which would go through its own [toString]) is read as the string the
    default [toString] of a plain object gives. *)
Definition to_key (v : value) : string :=
  match v with
  | VStr s => s
  | VNum n => number_key n
  | VBool true => "true"
  | VBool false => "false"
  | VUndef => "undefined"
  | VNull => "null"
  | VFun _ | VObj _ _ _ => "[object Object]"
  end.

(** The elements of an array, in index order. *)
Definition array_elements (v : value) : list value :=
  match v with
  | VObj _ _ ps => map snd ps
  | _ => []
  end.

(** The body of [getImpl] once [elems] is known; the recursive call passes
    [elems.slice(1)], an array, so it lands here again. *)
Fixpoint getImpl_elems (object : value) (elems : list value) : result value :=
  match elems with
  | [] => get_prop object (to_key VUndef)
  | name :: rest =>
      let* val := get_prop object (to_key name) in
      match rest with
      | [] => Ok val
      | _ :: _ =>
          if strict_eq val VNull || negb (typeof_object val) then Ok VUndef
          else getImpl_elems val rest
      end
  end.

(** [Array.isArray(property) ? property : property.split('.')].  Only a
    string has a [split]; on any other value the call throws. *)
Definition path_elems (property : value) : result (list value) :=
  if isArray property then Ok (array_elements property)
  else match property with
       | VStr s => Ok (map VStr (split_on "."%char s))
       | VUndef | VNull =>
           Throw (TypeError "Cannot read properties of null or undefined")
       | _ => Throw (TypeError "property.split is not a function")
       end.

Definition getImpl (object property : value) : result value :=
  let* elems := path_elems property in
  getImpl_elems object elems.

(* ------------------------------------------------------------------ *)
(** * [util.makeImmutable] *)
(* ------------------------------------------------------------------ *)

(** The [property] argument of [makeImmutable]: absent, one name, or an
    array of names. *)
Inductive property_arg : Type :=
| NoProperty
| OneProperty (name : string)
| Properties (names : list string).

Definition frozen_descriptor (val : value) : descriptor :=
  mkDesc (Some val) (Some false) None (Some false).

(** The mode [makeImmutable(object)] with no property list, which is also
    the mode of every recursive call.  The loop runs over
    [Object.keys(object)]; [val] is what [object[propertyName]] reads. *)
Fixpoint makeImmutable_all (object : value) : result value :=
  match object with
  | VUndef | VNull => Throw (TypeError "Cannot convert undefined or null to object")
  | VStr s =>
      match s with
      | EmptyString => Ok object
      | String _ _ => Throw (TypeError "Object.defineProperty called on non-object")
      end
  | VObj _ _ ps =>
      (fix process (properties : props) (object : value) {struct properties}
         : result value :=
         match properties with
         | [] => Ok object
         | (propertyName, a, val) :: rest =>
             if enumerable a && negb (instanceof_RawConfig val) then
               let* object := defineProperty object propertyName (frozen_descriptor val) in
               if isObject val then
                 let* val := makeImmutable_all val in
                 match object with
                 | VObj l c ps => process rest (VObj l c (store ps propertyName val))
                 | _ => process rest object
                 end
               else process rest object
             else process rest object
         end) ps object
  | _ => Ok object
  end.

Definition makeImmutable (object : value) (property : property_arg) (val : value)
  : result value :=
  match property with
  | OneProperty name =>
      let* current := get_prop object name in
      defineProperty object name
        (frozen_descriptor (match val with VUndef => current | _ => val end))
  | Properties names =>
      fold_left
        (fun acc propertyName =>
           let* object := acc in
           let* val := get_prop object propertyName in
           if negb (instanceof_RawConfig val) then
             let* object := defineProperty object propertyName (frozen_descriptor val) in
             if isObject val then
               let* val := makeImmutable_all val in
               match object with
               | VObj l c ps => Ok (VObj l c (store ps propertyName val))
               | _ => Ok object
               end
             else Ok object
           else Ok object)
        names (Ok object)
  | NoProperty => makeImmutable_all object
  end.

(* ------------------------------------------------------------------ *)
(** * [Config.prototype.get] and [Config.prototype.has] *)
(* ------------------------------------------------------------------ *)

(** The module-level variables [get] reads and writes. *)
Record module_state : Type := mkState
  { config : value; checkMutability : bool }.

(** ToString of the [property] argument inside the error message. *)
Definition property_text (property : value) : string :=
  if isArray property
  then String.concat "," (map to_key (array_elements property))
  else to_key property.

(** The double quote character of the error message. *)
Definition quote : string := String (ascii_of_nat 34) EmptyString.

Definition not_defined (property : value) : error :=
  Error ("Configuration property " ++ quote ++ property_text property ++ quote
         ++ " is not defined").

Section Accessors.

(** The call of a function value: its identity, [this], the arguments. *)
Variable js_call : nat -> value -> list value -> result value.

(** What [util.initParam('ALLOW_CONFIG_MUTATIONS', false)] finds on the
    command line or in the environment. *)
Variable ALLOW_CONFIG_MUTATIONS : value.

Definition call_method (object : value) (name : string) (args : list value)
  : result value :=
  let* f := get_prop object name in
  match f with
  | VFun id => js_call id object args
  | _ => Throw (TypeError "not a function")
  end.

Definition get (st : module_state) (t property : value)
  : result (value * module_state) :=
  if strict_eq property VNull || strict_eq property VUndef
  then Throw (Error "Calling config.get with null or undefined argument")
  else
    let* val := getImpl t property in
    if strict_eq val VUndef then Throw (not_defined property)
    else
      let* st :=
        if checkMutability st then
          let* frozen :=
            if negb (truthy ALLOW_CONFIG_MUTATIONS)
            then makeImmutable (config st) NoProperty VUndef
            else Ok (config st) in
          Ok (mkState frozen false)
        else Ok st in
      let* val :=
        if instanceof_RawConfig val then call_method val "resolve" []
        else Ok val in
      Ok (val, st).

Definition has (t property : value) : result bool :=
  if strict_eq property VNull || strict_eq property VUndef
  then Ok false
  else
    let* val := getImpl t property in
    Ok (negb (strict_eq val VUndef)).

End Accessors.

(* ------------------------------------------------------------------ *)
(** * [util.equalsDeep] *)
(* ------------------------------------------------------------------ *)

(** A depth argument: a number, or one of the values the code meets when the
    argument is omitted ([undefined], then NaN after [depth - 1]) or [null]. *)
Inductive jsdepth : Type :=
| DUndefined
| DNull
| DNaN
| DNum (z : Z).

(** [depth === null ? DEFAULT_CLONE_DEPTH : depth]. *)
Definition depth_or_default (depth : jsdepth) : jsdepth :=
  match depth with
  | DNull => DNum DEFAULT_CLONE_DEPTH
  | _ => depth
  end.

(** [depth < 0]: false of [undefined] and NaN. *)
Definition depth_negative (depth : jsdepth) : bool :=
  match depth with
  | DNum z => z <? 0
  | _ => false
  end.

(** [depth - 1]. *)
Definition depth_minus_1 (depth : jsdepth) : jsdepth :=
  match depth with
  | DNum z => DNum (z - 1)
  | DNull => DNum (-1)
  | DUndefined | DNaN => DNaN
  end.

(** What [equalsDeep] returns: a boolean, or the empty object literal of its
    recursion guard. *)
Inductive equals_result : Type :=
| EqBool (b : bool)
| EqEmptyObject.

(** ToBoolean of the result: an object is truthy. *)
Definition result_truthy (r : equals_result) : bool :=
  match r with
  | EqBool b => b
  | EqEmptyObject => true
  end.

(** [o[k]] on the properties of an object. *)
Definition read (ps : props) (k : string) : value :=
  match own ps k with
  | Some (_, x) => x
  | None => VUndef
  end.

(** The loop [for (var prop in object1)] of [equalsDeep]; [equals] is the
    recursive call [util.equalsDeep(_, _, depth - 1)]. *)
Definition compare_props (equals : value -> value -> equals_result) (ps2 : props) :=
  fix compare (todo : props) : equals_result :=
    match todo with
    | [] => EqBool true
    | (prop, a, v1) :: rest =>
        if enumerable a then
          if truthy v1 && typeof_object v1 then
            if negb (result_truthy (equals v1 (read ps2 prop)))
            then EqBool false
            else compare rest
          else if negb (strict_eq v1 (read ps2 prop)) then EqBool false
          else compare rest
        else compare rest
    end.

Fixpoint equalsDeep (object1 object2 : value) (depth : jsdepth) {struct object1}
  : equals_result :=
  let depth := depth_or_default depth in
  if depth_negative depth then EqEmptyObject
  else if negb (truthy object1) || negb (truthy object2) then EqBool false
  else if strict_eq object1 object2 then EqBool true
  else if negb (typeof_object object1) || negb (typeof_object object2) then EqBool false
  else
    match object1, object2 with
    | VObj _ _ ps1, VObj _ _ ps2 =>
        if negb (Nat.eqb (List.length (Object_keys ps1)) (List.length (Object_keys ps2)))
        then EqBool false
        else compare_props (fun v1 v2 => equalsDeep v1 v2 (depth_minus_1 depth)) ps2 ps1
    | _, _ => EqBool false
    end.

(* ------------------------------------------------------------------ *)
(** * [util.cloneDeep] *)
(* ------------------------------------------------------------------ *)

Fixpoint mentions (ch : ascii) (s : string) : bool :=
  match s with
  | EmptyString => false
  | String c rest => Ascii.eqb c ch || mentions ch rest
  end.

(** [util.getRegExpFlags], on the flags of the expression. *)
Definition getRegExpFlags (flags : string) : string :=
  (if mentions "g"%char flags then "g" else "")
  ++ (if mentions "i"%char flags then "i" else "")
  ++ (if mentions "m"%char flags then "m" else "").

(** The two parallel arrays [allParents] and [allChildren]: the identity of
    a visited parent with its child. *)
Definition visited := list (loc * value).

(** [allChildren[allParents.indexOf(parent)]]. *)
Fixpoint child_of (seen : visited) (l : loc) : option value :=
  match seen with
  | [] => None
  | (l', child) :: rest => if Nat.eqb l' l then Some child else child_of rest l
  end.

(** The entry of a parent refers to its child, which the loop of [_clone]
    fills in after the entry was pushed. *)
Fixpoint fill_child (seen : visited) (l : loc) (child : value) : visited :=
  match seen with
  | [] => []
  | (l', c) :: rest =>
      if Nat.eqb l' l then (l', child) :: rest else (l', c) :: fill_child rest l child
  end.

(** The state of one [cloneDeep]: the next unused identity, and the parents
    visited so far. *)
Definition clone_state : Type := loc * visited.

(** The empty child [_clone] creates for an object parent: an array, a
    regular expression with the parent's source, flags and [lastIndex], a
    date with the parent's time, or an object with the parent's prototype. *)
Definition child_class (c : cls) : cls :=
  match c with
  | CRegExp source flags lastIndex => CRegExp source (getRegExpFlags flags) lastIndex
  | _ => c
  end.

(** The loop [for (var i in parent) child[i] = _clone(parent[i], depth - 1)];
    [clone] is the recursive call. *)
Definition copy_props (clone : value -> clone_state -> value * clone_state) :=
  fix copy (todo : props) (child_ps : props) (st : clone_state) {struct todo}
    : props * clone_state :=
    match todo with
    | [] => (child_ps, st)
    | (i, a, v) :: rest =>
        if enumerable a then
          let '(v', st) := clone v st in
          copy rest (assign child_ps i v') st
        else copy rest child_ps st
    end.

Fixpoint _clone (circular : bool) (parent : value) (depth : Z) (st : clone_state)
  {struct parent} : value * clone_state :=
  match parent with
  | VNull => (VNull, st)
  | VObj l c ps =>
      if depth =? 0 then (parent, st)
      else
        let '(child_loc, seen) := st in
        let child := VObj child_loc (child_class c) [] in
        match (if circular then child_of seen l else None) with
        | Some known => (known, (S child_loc, seen))
        | None =>
            let seen := if circular then (seen ++ [(l, child)])%list else seen in
            let '(child_ps, (next, seen)) :=
              copy_props (fun v st => _clone circular v (depth - 1) st) ps []
                (S child_loc, seen) in
            let child := VObj child_loc (child_class c) child_ps in
            (child, (next, if circular then fill_child seen l child else seen))
        end
  | _ => (parent, st)
  end.

(** [cloneDeep(parent, depth, circular)]; an omitted argument is [None].
    The fourth argument, [prototype], is never passed in this file. *)
Definition cloneDeep (parent : value) (depth : option Z) (circular : option bool)
    (next : loc) : value * loc :=
  let circular := opt_default circular true in
  let depth := opt_default depth 20 in
  let '(child, (next, _)) := _clone circular parent depth (next, []) in
  (child, next).
Arguments cloneDeep parent depth circular next%_nat_scope.

(* ------------------------------------------------------------------ *)
(** * [util.diffDeep] *)
(* ------------------------------------------------------------------ *)

(** One turn of the loop of [diffDeep]; [recurse] is the call
    [util.diffDeep(value1, value2, depth - 1)]. *)
Definition diff_entry (diff : value) (parm : string) (value1 value2 : value)
    (recurse : loc -> result (value * loc)) (next : loc) : result (value * loc) :=
  if truthy value1 && truthy value2 && isObject value2 then
    if negb (result_truthy (equalsDeep value1 value2 DUndefined)) then
      let* '(d, next) := recurse next in
      let* diff := set_prop diff parm d in
      Ok (diff, next)
    else Ok (diff, next)
  else if isArray value1 && isArray value2 then
    if negb (result_truthy (equalsDeep value1 value2 DUndefined)) then
      let* diff := set_prop diff parm value2 in
      Ok (diff, next)
    else Ok (diff, next)
  else if negb (strict_eq value1 value2) then
    let* diff := set_prop diff parm value2 in
    Ok (diff, next)
  else Ok (diff, next).

(** The loop [for (var parm in object2)] of [diffDeep]; [diff_of] is the
    recursive call [util.diffDeep(_, _, depth - 1)]. *)
Definition diff_props (object1 : value)
    (diff_of : value -> value -> loc -> result (value * loc)) :=
  fix each (todo : props) (diff : value) (next : loc) {struct todo}
    : result (value * loc) :=
    match todo with
    | [] => Ok (diff, next)
    | (parm, a, value2) :: rest =>
        if enumerable a then
          let* value1 := get_prop object1 parm in
          let* '(diff, next) :=
            diff_entry diff parm value1 value2 (diff_of value1 value2) next in
          each rest diff next
        else each rest diff next
    end.

Fixpoint diffDeep (object1 object2 : value) (depth : jsdepth) (next : loc)
  {struct object2} : result (value * loc) :=
  let diff := VObj next CObject [] in
  let next := S next in
  let depth := depth_or_default depth in
  if depth_negative depth then Ok (VObj next CObject [], S next)
  else
    match object2 with
    | VObj _ _ ps2 =>
        diff_props object1
          (fun value1 value2 => diffDeep value1 value2 (depth_minus_1 depth))
          ps2 diff next
    | VStr s =>
        (* the characters of a string are strings: [isObject(value2)] fails
           and the recursive call is never made *)
        diff_props object1
          (fun _ _ next => Ok (VObj next CObject [], S next))
          (string_props 0 s) diff next
    | _ => Ok (diff, next)
    end.
Arguments diffDeep object1 object2 depth next%_nat_scope.

(* ------------------------------------------------------------------ *)
(** * [util.extendDeep] *)
(* ------------------------------------------------------------------ *)

(** One turn of the inner loop of [extendDeep], for the property [prop] of
    [mergeFrom]; [recurse] is the call
    [util.extendDeep(mergeInto[prop], mergeFrom[prop], depth - 1)] and
    [depth] the depth of the running call. *)
Definition extend_entry
    (recurse : value -> value -> loc -> result (value * loc))
    (depth : Z) (mergeFrom : value) (prop : string) (from : value)
    (mergeInto : value) (next : loc) : result (value * loc) :=
  (* save original value in deferred elements *)
  let fromIsDeferredFunc := instanceof_DeferredConfig from in
  let* into := get_prop mergeInto prop in
  let isDeferredFunc := instanceof_DeferredConfig into in
  let* from :=
    if fromIsDeferredFunc && hasOwnProperty mergeInto prop then
      let* original :=
        if isDeferredFunc then get_prop into "_original" else Ok into in
      set_prop from "_original" original
    else Ok from in
  let* mergeInto :=
    if instanceof_Date from then set_prop mergeInto prop from else Ok mergeInto in
  if instanceof_RegExp from then
    let* mergeInto := set_prop mergeInto prop from in
    Ok (mergeInto, next)
  else
    let* into := get_prop mergeInto prop in
    if isObject into && isObject from && negb isDeferredFunc then
      let* '(into, next) := recurse into from next in
      match mergeInto with
      | VObj l c ps => Ok (VObj l c (store ps prop into), next)
      | _ => Ok (mergeInto, next)
      end
    else if truthy from && typeof_object from then
      let '(copy, next) := cloneDeep from (Some (depth - 1)) None next in
      let* mergeInto := set_prop mergeInto prop copy in
      Ok (mergeInto, next)
    else
      match getOwnPropertyDescriptor mergeFrom prop with
      | Some d =>
          let* mergeInto := defineProperty mergeInto prop d in
          Ok (mergeInto, next)
      | None =>
          let* mergeInto := set_prop mergeInto prop from in
          Ok (mergeInto, next)
      end.

(** The body of [extendDeep] once [vargs] and [depth] are known.  The
    recursion guard [depth < 0] bounds the nesting of calls by [depth + 1],
    and the definition recurses on that number: [extend_calls n] is the call
    at depth [n - 1]. *)
Fixpoint extend_calls (n : nat) (mergeInto : value) (vargs : list value)
    (next : loc) {struct n} : result (value * loc) :=
  match n with
  | O => Ok (mergeInto, next)
  | S n' =>
      let depth := Z.of_nat n' in
      fold_left
        (fun acc mergeFrom =>
           let* '(mergeInto, next) := acc in
           fold_left
             (fun acc e =>
                let* '(mergeInto, next) := acc in
                extend_entry
                  (fun into from next => extend_calls n' into [from] next)
                  depth mergeFrom (fst (fst e)) (snd e) mergeInto next)
             (for_in mergeFrom) (Ok (mergeInto, next)))
        vargs (Ok (mergeInto, next))
  end.

(** [var depth = vargs.pop(); if (typeof(depth) != 'number')
    { vargs.push(depth); depth = DEFAULT_CLONE_DEPTH; }] *)
Definition extend_arguments (arguments : list value) : list value * Z :=
  match rev arguments with
  | VNum depth :: before => (rev before, depth)
  | _ :: _ => (arguments, DEFAULT_CLONE_DEPTH)
  | [] => ([VUndef], DEFAULT_CLONE_DEPTH)
  end.

(** [util.extendDeep(mergeInto, ...arguments)]. *)
Definition extendDeep (mergeInto : value) (arguments : list value) (next : loc)
  : result (value * loc) :=
  let '(vargs, depth) := extend_arguments arguments in
  if depth <? 0 then Ok (mergeInto, next)
  else extend_calls (S (Z.to_nat depth)) mergeInto vargs next.
Arguments extendDeep mergeInto arguments%_list_scope next%_nat_scope.
Arguments extend_calls n%_nat_scope mergeInto vargs%_list_scope next%_nat_scope.

(* ------------------------------------------------------------------ *)
(** * [util.resolveDeferredConfigs] *)
(* ------------------------------------------------------------------ *)

(** [Array.prototype.sort] without a comparison function, on strings. *)
Fixpoint insert_sorted (k : string) (sorted : list string) : list string :=
  match sorted with
  | [] => [k]
  | k' :: rest =>
      if String.leb k k' then k :: sorted else k' :: insert_sorted k rest
  end.

Definition sort (ks : list string) : list string :=
  fold_right insert_sorted [] ks.

(** [v.constructor == Object] and [v.constructor == Array], read off the
    class. *)
Definition constructor_is_Object (v : value) : bool :=
  match v with VObj _ CObject _ => true | _ => false end.
Definition constructor_is_Array (v : value) : bool := isArray v.

(** [a.length] of an array. *)
Definition array_length (v : value) : nat :=
  match v with VObj _ _ ps => List.length ps | _ => O end.

(** The write-back of a mutated child on a value. *)
Definition store_in (o : value) (k : string) (v : value) : value :=
  match o with
  | VObj l c ps => VObj l c (store ps k v)
  | _ => o
  end.

Section Resolve.

Variable js_call : nat -> value -> list value -> result value.

(** [_iterate(prop)].  [root_with p] is [completeConfig] when the object
    being iterated is in the state [p].  [None]: the nesting of [prop] is
    deeper than [fuel]. *)
Fixpoint _iterate (fuel : nat) (root_with : value -> value) (prop : value)
  {struct fuel} : option (result value) :=
  match fuel with
  | O => None
  | S fuel =>
      let propsToSort :=
        filter
          (fun property =>
             hasOwnProperty prop property
             && match get_prop prop property with
                | Ok v => negb (loose_null v)
                | Throw _ => false
                end)
          (keys (for_in prop)) in
      fold_left
        (fun acc property =>
           match acc with
           | Some (Ok prop) =>
               match get_prop prop property with
               | Throw e => Some (Throw e)
               | Ok v =>
                   if constructor_is_Object v then
                     match _iterate fuel
                             (fun v' => root_with (store_in prop property v')) v with
                     | Some (Ok v') => Some (Ok (store_in prop property v'))
                     | other => other
                     end
                   else if constructor_is_Array v then
                     match
                       fold_left
                         (fun acc i =>
                            match acc with
                            | Some (Ok arr) =>
                                match get_prop arr (index_key i) with
                                | Throw e => Some (Throw e)
                                | Ok el =>
                                    match _iterate fuel
                                            (fun el' =>
                                               root_with
                                                 (store_in prop property
                                                    (store_in arr (index_key i) el')))
                                            el with
                                    | Some (Ok el') =>
                                        Some (Ok (store_in arr (index_key i) el'))
                                    | other => other
                                    end
                                end
                            | other => other
                            end)
                         (seq 0 (array_length v)) (Some (Ok v))
                     with
                     | Some (Ok arr) => Some (Ok (store_in prop property arr))
                     | other => other
                     end
                   else if instanceof_DeferredConfig v then
                     let completeConfig := root_with prop in
                     Some
                       (let* original := get_prop v "_original" in
                        let* resolve := get_prop v "resolve" in
                        let* resolved :=
                          match resolve with
                          | VFun f => js_call f completeConfig [completeConfig; original]
                          | _ => Throw (TypeError "resolve.call is not a function")
                          end in
                        set_prop prop property resolved)
                   else Some (Ok prop)
               end
           | other => other
           end)
        (sort propsToSort) (Some (Ok prop))
  end.

Definition resolveDeferredConfigs (fuel : nat) (config : value)
  : option (result value) :=
  _iterate fuel (fun root => root) config.

End Resolve.

(* ------------------------------------------------------------------ *)
(** * [util.makeHidden] *)
(* ------------------------------------------------------------------ *)

(** [typeof value === 'undefined'] picks the descriptor: [enumerable] alone,
    or [value] and [enumerable].  The object, updated, is returned. *)
Definition makeHidden (object : value) (property : string) (val : value)
  : result value :=
  match val with
  | VUndef => defineProperty object property (mkDesc None None (Some false) None)
  | _ => defineProperty object property (mkDesc (Some val) None (Some false) None)
  end.

(* ------------------------------------------------------------------ *)
(** * [util.setPath] *)
(* ------------------------------------------------------------------ *)

(** [object.hasOwnProperty(key)]: throws on [null] and [undefined]; a string
    has its indices and its [length], another primitive has nothing. *)
Definition has_own_property (object : value) (key : string) : result bool :=
  match object with
  | VUndef | VNull => Throw (TypeError "Cannot read properties of null or undefined")
  | VStr _ => Ok (String.eqb key "length" || hasOwnProperty object key)
  | _ => Ok (hasOwnProperty object key)
  end.

(** [setPath(object, path, value)].  The function returns nothing and works
    by mutation: the embedding returns [object] as the call leaves it (and
    the next unused identity, since [{}] makes an object).  [path.shift()]
    also empties the caller's array, which is not represented.  A function
    value holds no properties in the embedding. *)
Fixpoint setPath (object : value) (path : list string) (val : value) (next : loc)
  {struct path} : result (value * loc) :=
  if strict_eq val VNull then Ok (object, next)
  else
    match path with
    | [] => Ok (object, next)
    | nextKey :: rest =>
        match rest with
        | [] =>
            let* object := set_prop object nextKey val in
            Ok (object, next)
        | _ :: _ =>
            let* has := has_own_property object nextKey in
            let* '(object, next) :=
              if negb has then
                let* object := set_prop object nextKey (VObj next CObject []) in
                Ok (object, S next)
              else Ok (object, next) in
            let* child := get_prop object nextKey in
            let* '(child, next) := setPath child rest val next in
            Ok (store_in object nextKey child, next)
        end
    end.
Arguments setPath object path%_list_scope val next%_nat_scope.

(* ------------------------------------------------------------------ *)
(** * [util.getCmdLineArg], [util.initParam], [util.getEnv] *)
(* ------------------------------------------------------------------ *)

(** [s.substr(start)]. *)
Fixpoint substr (s : string) (start : nat) : string :=
  match start, s with
  | O, _ => s
  | S n, String _ rest => substr rest n
  | S _, EmptyString => EmptyString
  end.

(** [getCmdLineArg(searchFor)], given [process.argv].  The test
    [arg.indexOf(argName) === 0] is [String.prefix argName arg]. *)
Definition getCmdLineArg (argv : list string) (searchFor : string) : value :=
  let cmdLineArgs := skipn 2 argv in
  let argName := ("--" ++ searchFor ++ "=")%string in
  (fix scan (args : list string) : value :=
     match args with
     | [] => VBool false
     | arg :: rest =>
         if String.prefix argName arg
         then VStr (substr arg (String.length argName))
         else scan rest
     end) cmdLineArgs.

(** [a || b]. *)
Definition js_or (a b : value) : value := if truthy a then a else b.

(** [process.env[name]]: the string of the first binding of [name], or
    [undefined]. *)
Definition process_env_get (process_env : list (string * string)) (name : string)
  : value :=
  match find (fun e => String.eqb (fst e) name) process_env with
  | Some (_, v) => VStr v
  | None => VUndef
  end.

(** [initParam(paramName, defaultValue)]: [env] is the module-level object
    of that name, given and returned by its properties. *)
Definition initParam (argv : list string) (process_env : list (string * string))
    (env : props) (paramName : string) (defaultValue : value) : value * props :=
  let val :=
    js_or (js_or (getCmdLineArg argv paramName) (process_env_get process_env paramName))
          defaultValue in
  (val, assign env paramName val).

(** [getEnv(varName)]: [env[varName]]. *)
Definition getEnv (env : props) (varName : string) : value := read env varName.

(* ------------------------------------------------------------------ *)
(** * [util.attachProtoDeep] *)
(* ------------------------------------------------------------------ *)

Section Prototype.

(** The properties of [Config.prototype]: [util], [get], [has] and the
    deprecated names, all enumerable. *)
Variable Config_prototype : props.

(** The loop [for (var fnName in Config.prototype)]. *)
Definition attach_members (toObject : value) : result value :=
  fold_left
    (fun acc e =>
       let* toObject := acc in
       let* current := get_prop toObject (fst (fst e)) in
       if negb (truthy current) then makeHidden toObject (fst (fst e)) (snd e)
       else Ok toObject)
    (enumerable_props Config_prototype) (Ok toObject).

(** [attachProtoDeep(toObject, depth)], for an object that does not inherit
    from [Config.prototype] (a node of the configuration, the configuration
    of a module): [toObject[fnName]] then reads an own property.  [None]:
    the nesting of [toObject] is deeper than [fuel]. *)
Fixpoint attachProtoDeep (fuel : nat) (toObject : value) (depth : jsdepth)
  {struct fuel} : option (result value) :=
  match fuel with
  | O => None
  | S fuel =>
      if instanceof_RawConfig toObject then Some (Ok toObject)
      else
        let depth := depth_or_default depth in
        if depth_negative depth then Some (Ok toObject)
        else
          match attach_members toObject with
          | Throw e => Some (Throw e)
          | Ok toObject =>
              fold_left
                (fun acc e =>
                   match acc with
                   | Some (Ok toObject) =>
                       match get_prop toObject (fst (fst e)) with
                       | Throw e => Some (Throw e)
                       | Ok v =>
                           if isObject v then
                             match attachProtoDeep fuel v (depth_minus_1 depth) with
                             | Some (Ok v') => Some (Ok (store_in toObject (fst (fst e)) v'))
                             | other => other
                             end
                           else Some (Ok toObject)
                       end
                   | other => other
                   end)
                (for_in toObject) (Some (Ok toObject))
          end
  end.

End Prototype.

(* ------------------------------------------------------------------ *)
(** * [util.setModuleDefaults] *)
(* ------------------------------------------------------------------ *)

(** The module-level variables [setModuleDefaults] reads and writes: the
    array [configSources], the properties of the object [env], and, in
    [state], [checkMutability]. *)
Record module_vars : Type := mkVars
  { configSources : list value; env : props; state : module_state }.

Section ModuleDefaults.

Variable argv : list string.
Variable process_env : list (string * string).
Variable Config_prototype : props.

(** [t[k]] where [t] is the [Config] instance the functions of [util] are
    bound to: an object that inherits from [Config.prototype]. *)
Definition get_inherited (t : value) (k : string) : result value :=
  match t with
  | VObj _ _ ps =>
      match own ps k with
      | Some (_, x) => Ok x
      | None => Ok (read Config_prototype k)
      end
  | _ => get_prop t k
  end.

(** [t[k] = v] on that object, outside strict mode: a key that [t] lacks
    becomes an own property of [t], unless the prototype holds it
    read-only. *)
Definition set_inherited (t : value) (k : string) (v : value) : result value :=
  match t with
  | VObj l c ps =>
      match own ps k, own Config_prototype k with
      | None, Some (a, _) => if writable a then Ok (VObj l c (assign ps k v)) else Ok t
      | _, _ => Ok (VObj l c (assign ps k v))
      end
  | _ => set_prop t k v
  end.

(** [configSources.length === 0 || configSources[0].name !== 'Module Defaults'] *)
Definition no_module_defaults (sources : list value) : result bool :=
  match sources with
  | [] => Ok true
  | first :: _ =>
      let* name := get_prop first "name" in
      Ok (negb (strict_eq name (VStr "Module Defaults")))
  end.

(** [configSources[0].parsed[moduleName] = {};
     util.extendDeep(configSources[0].parsed[moduleName], defaultProperties);]
    The objects are updated in place: the result is the first source as the
    two statements leave it. *)
Definition record_defaults (first : value) (moduleName : string)
    (defaultProperties : value) (next : loc) : result (value * loc) :=
  let* parsed := get_prop first "parsed" in
  let* parsed := set_prop parsed moduleName (VObj next CObject []) in
  let next := S next in
  let* into := get_prop parsed moduleName in
  let* '(into, next) := extendDeep into [defaultProperties] next in
  Ok (store_in first "parsed" (store_in parsed moduleName into), next).

(** The statements of [setModuleDefaults] before its [return], with
    [this = t]: the module configuration [t[moduleName]], [t], the
    module-level variables and the next unused identity, as they are when
    [attachProtoDeep] is called. *)
Definition merge_module_defaults (vars : module_vars) (t : value)
    (moduleName : string) (defaultProperties : value) (next : loc)
  : result (value * value * module_vars * loc) :=
  (* Copy the properties into a new object *)
  let '(moduleConfig, next) := cloneDeep defaultProperties None None next in
  (* Set module defaults into the first sources element *)
  let* missing := no_module_defaults (configSources vars) in
  let '(sources, next) :=
    if missing then
      (VObj next CObject [("name", default_attrs, VStr "Module Defaults");
                          ("parsed", default_attrs, VObj (S next) CObject [])]
         :: configSources vars, S (S next))
    else (configSources vars, next) in
  match sources with
  | [] => Throw (TypeError "Cannot read properties of null or undefined")
  | first :: others =>
      let* '(first, next) := record_defaults first moduleName defaultProperties next in
      (* Create a top level config for this module if it doesn't exist *)
      let* current := get_inherited t moduleName in
      let '(current, next) :=
        if truthy current then (current, next) else (VObj next CObject [], S next) in
      let* t := set_inherited t moduleName current in
      (* Extend local configurations into the module config *)
      let* local := get_inherited t moduleName in
      let* '(moduleConfig, next) := extendDeep moduleConfig [local] next in
      (* Merge the extended configs without replacing the original *)
      let* local := get_inherited t moduleName in
      let* '(local, next) := extendDeep local [moduleConfig] next in
      let t := store_in t moduleName local in
      (* reset the mutability check for "config.get" method. *)
      let '(allow, env) :=
        initParam argv process_env (env vars) "ALLOW_CONFIG_MUTATIONS" (VBool false) in
      let checkMutability :=
        if negb (truthy allow) then true else checkMutability (state vars) in
      let* local := get_inherited t moduleName in
      Ok (local, t,
          mkVars (first :: others) env (mkState (config (state vars)) checkMutability),
          next)
  end.

(** [setModuleDefaults(moduleName, defaultProperties)]: the value returned,
    [t], the module-level variables and the next unused identity.  The
    sources of the merges are taken as the calls find them: the
    [_original] that [extendDeep] writes into a deferred value of a source
    is not carried from one merge to the next.  [None]: the module
    configuration is nested deeper than [fuel]. *)
Definition setModuleDefaults (fuel : nat) (vars : module_vars) (t : value)
    (moduleName : string) (defaultProperties : value) (next : loc)
  : option (result (value * value * module_vars * loc)) :=
  match merge_module_defaults vars t moduleName defaultProperties next with
  | Throw e => Some (Throw e)
  | Ok (local, t, vars, next) =>
      (* Attach handlers & watchers onto the module config object *)
      match attachProtoDeep Config_prototype fuel local DUndefined with
      | Some (Ok local) => Some (Ok (local, store_in t moduleName local, vars, next))
      | Some (Throw e) => Some (Throw e)
      | None => None
      end
  end.

End ModuleDefaults.
Arguments setModuleDefaults argv%_list_scope process_env%_list_scope
  Config_prototype%_list_scope fuel%_nat_scope vars t moduleName defaultProperties
  next%_nat_scope.

(* ------------------------------------------------------------------ *)
(** * The vocabulary of the specification *)
(* ------------------------------------------------------------------ *)

(** A path argument as the facade documents it: a string, an array of
    keys, or a missing ([null], [undefined]) argument. *)
Definition path_argument (property : value) : bool :=
  match property with
  | VUndef | VNull | VStr _ => true
  | _ => isArray property
  end.

(** The object a prefix of keys leads to, when every key on the way holds
    an object. *)
Fixpoint descend (t : value) (prefix : list string) : option value :=
  match prefix with
  | [] => Some t
  | k :: rest =>
      match t with
      | VObj _ _ ps =>
          match own ps k with
          | Some (_, VObj l c ps') => descend (VObj l c ps') rest
          | _ => None
          end
      | _ => None
      end
  end.

(** Keys are unique within an object, at every level. *)
Fixpoint distinct (ks : list string) : bool :=
  match ks with
  | [] => true
  | k :: rest => negb (existsb (String.eqb k) rest) && distinct rest
  end.

Fixpoint well_formed (v : value) : bool :=
  match v with
  | VObj _ _ ps => distinct (keys ps) && forallb (fun e => well_formed (snd e)) ps
  | _ => true
  end.

(** A property [makeImmutable] leaves alone: one that is not enumerable, or
    whose value is a [RawConfig]. *)
Definition skipped (a : attrs) (x : value) : bool :=
  negb (enumerable a) || instanceof_RawConfig x.

(** The immutable form of a node, in the words of the contract: every own
    enumerable property is non-writable and non-configurable, and so are
    those of the nodes they hold; skipped properties are as they were. *)
Fixpoint makeImmutable_spec (v : value) : value :=
  match v with
  | VObj l c ps =>
      VObj l c
        (map (fun e =>
                let '(k, a, x) := e in
                if skipped a x then (k, a, x)
                else (k, mkAttrs false (enumerable a) false,
                      if isObject x then makeImmutable_spec x else x))
             ps)
  | _ => v
  end.

(** Every own enumerable property that is not skipped is non-writable and
    non-configurable, recursively through the nodes. *)
Fixpoint immutable (v : value) : bool :=
  match v with
  | VObj _ _ ps =>
      forallb (fun e =>
                 let '(k, a, x) := e in
                 skipped a x
                 || (negb (writable a) && negb (configurable a)
                     && (if isObject x then immutable x else true)))
              ps
  | _ => true
  end.

(** Every property reachable in a value has attributes that satisfy [P]. *)
Fixpoint all_attrs (P : attrs -> bool) (v : value) : bool :=
  match v with
  | VObj _ _ ps => forallb (fun e => P (snd (fst e)) && all_attrs P (snd e)) ps
  | _ => true
  end.

(** No property was made non-configurable: the state before freezing. *)
Definition configurable_throughout : value -> bool := all_attrs configurable.

(** The attributes of an unfrozen property. *)
Definition writable_configurable (a : attrs) : bool := writable a && configurable a.

(** Every property is writable and configurable. *)
Definition unfrozen : value -> bool := all_attrs writable_configurable.

Definition is_string (v : value) : bool :=
  match v with VStr _ => true | _ => false end.

Definition is_number (v : value) : bool :=
  match v with VNum _ => true | _ => false end.

(** [all_attrs] on the properties of an object. *)
Definition all_props (P : attrs -> bool) (ps : props) : bool :=
  forallb (fun e => P (snd (fst e)) && all_attrs P (snd e)) ps.

(** [all_attrs] on the children recorded by a running [cloneDeep]. *)
Definition all_children (P : attrs -> bool) (seen : visited) : Prop :=
  Forall (fun e => all_attrs P (snd e) = true) seen.

(** A clone function keeps [all_attrs P]: on the child it returns and on the
    children it records. *)
Definition clone_keeps (P : attrs -> bool)
    (clone : value -> clone_state -> value * clone_state) (v : value) : Prop :=
  forall st, all_attrs P v = true -> all_children P (snd st) ->
             all_attrs P (fst (clone v st)) = true
             /\ all_children P (snd (snd (clone v st))).

(** The outcome of a merge into the object [l] of class [c] that did not
    throw: the same object, updated, with [all_attrs P]. *)
Definition merges (P : attrs -> bool) (r : result (value * loc)) (l : loc) (c : cls)
  : Prop :=
  exists ps' next', r = Ok (VObj l c ps', next') /\ all_attrs P (VObj l c ps') = true.

(** Anything that is not an object: a primitive, [null], a function. *)
Definition scalar (v : value) : bool :=
  match v with VObj _ _ _ => false | _ => true end.

(** The value a source defines at the nested key [k.m]: [k] holds a node
    and the node holds [m], both enumerable. *)
Definition nested (source : value) (k m : string) : option value :=
  match source with
  | VObj _ _ ps =>
      match own ps k with
      | Some (ak, VObj _ CObject kps) =>
          match own kps m with
          | Some (am, v) => if enumerable ak && enumerable am then Some v else None
          | None => None
          end
      | _ => None
      end
  | _ => None
  end.

(** The value stored at [k.m] in the properties [ps]. *)
Definition at_nested (ps : props) (k m : string) (b : value) : Prop :=
  exists a l c kps am, own ps k = Some (a, VObj l c kps) /\ own kps m = Some (am, b).

(** The identities of the objects of a value. *)
Fixpoint locs (v : value) : list loc :=
  match v with
  | VObj l _ ps => l :: flat_map (fun e => locs (snd e)) ps
  | _ => []
  end.

Definition locs_of_props (ps : props) : list loc :=
  flat_map (fun e => locs (snd e)) ps.

(** A write to the object [target], seen from a value: wherever the object
    occurs, its class (with the time of a date) and its properties are the
    new ones. *)
Fixpoint overwrite (target : loc) (c' : cls) (ps' : props) (v : value) : value :=
  match v with
  | VObj l c ps =>
      if Nat.eqb l target then VObj l c' ps'
      else VObj l c (map (fun e => (fst e, overwrite target c' ps' (snd e))) ps)
  | _ => v
  end.
Arguments overwrite target%_nat_scope c' ps'%_list_scope v.

(** The nesting of a value: 0 for a scalar, one more than its deepest
    property for an object. *)
Fixpoint height (v : value) : nat :=
  match v with
  | VObj _ _ ps => S (fold_right (fun e h => Nat.max (height (snd e)) h) O ps)
  | _ => O
  end.

(** Nodes, arrays and primitive values only: no date, regular expression,
    deferred or raw value, and no function. *)
Fixpoint plain_data (v : value) : bool :=
  match v with
  | VObj _ c ps =>
      match c with
      | CObject | CArray => forallb (fun e => plain_data (snd e)) ps
      | _ => false
      end
  | VFun _ => false
  | _ => true
  end.

(** What [extendDeep] maintains about identities: every object of the
    value satisfies [ok], and the next identity to hand out is past
    [next0]. *)
Definition identities (ok : loc -> Prop) (next0 : loc) (v : value) (next : loc) : Prop :=
  (forall l, In l (locs v) -> ok l) /\ (next0 <= next)%nat.

(** The children recorded by a running [cloneDeep] have identities that
    satisfy [ok]. *)
Definition children_ok (ok : loc -> Prop) (seen : visited) : Prop :=
  Forall (fun e => forall l, In l (locs (snd e)) -> ok l) seen.

(** [_clone(v, depth)] never reaches depth 0 on an object of [v]: the value
    is copied whole, no object of it is returned as it is. *)
Definition deep_enough (v : value) (depth : Z) : Prop :=
  Z.of_nat (height v) <= depth \/ depth < 0.

(** A clone function that hands out identities past [next0] only. *)
Definition clone_is_new (ok : loc -> Prop) (next0 : loc)
    (clone : value -> clone_state -> value * clone_state) (v : value) : Prop :=
  forall next seen child next' seen',
    (next0 <= next)%nat -> children_ok ok seen ->
    clone v (next, seen) = (child, (next', seen')) ->
    (forall l, In l (locs child) -> ok l)
    /\ (next <= next')%nat
    /\ children_ok ok seen'.

(** A source that the call [extend_calls n] copies whole: plain data with
    distinct keys, nested no deeper than the depth of the call. *)
Definition mergeable (n : nat) (v : value) : Prop :=
  plain_data v = true /\ well_formed v = true /\ is_string v = false
  /\ (height v <= n - 1)%nat.

Definition is_object (v : value) : bool :=
  match v with VObj _ _ _ => true | _ => false end.

(** The value without the identities of its objects. *)
Fixpoint erase (v : value) : value :=
  match v with
  | VObj _ c ps => VObj 0 c (map (fun e => (fst e, erase (snd e))) ps)
  | _ => v
  end.

(** Two values that differ in the identities of their objects only: what a
    deep copy is of its original. *)
Definition same_shape (a b : value) : Prop := erase a = erase b.

(** Deep equality in the words of the specification: the same own keys, and
    recursively equal values under each of them; primitives compare with
    [===].  As in [equalsDeep], the class of an object is not compared. *)
Fixpoint deep_equal (a b : value) : bool :=
  match a, b with
  | VObj _ _ ps1, VObj _ _ ps2 =>
      forallb (fun e =>
                 match own ps2 (fst (fst e)) with
                 | Some (_, y) => deep_equal (snd e) y
                 | None => false
                 end) ps1
      && forallb (fun k => existsb (String.eqb k) (keys ps1)) (keys ps2)
  | VObj _ _ _, _ | _, VObj _ _ _ => false
  | _, _ => strict_eq a b
  end.

Definition attrs_eqb (a b : attrs) : bool :=
  Bool.eqb (writable a) (writable b) && Bool.eqb (enumerable a) (enumerable b)
  && Bool.eqb (configurable a) (configurable b).

(** A tree as a JSON source gives it: nodes and arrays with distinct keys
    and the attributes of plain assignment, and [null], booleans, numbers
    and strings at the leaves. *)
Fixpoint json_like (v : value) : bool :=
  match v with
  | VObj _ c ps =>
      match c with CObject | CArray => true | _ => false end
      && distinct (keys ps)
      && forallb (fun e => attrs_eqb (snd (fst e)) default_attrs && json_like (snd e)) ps
  | VUndef | VFun _ => false
  | _ => true
  end.

(** [changed] removes no key of [base], and puts a node only where [base]
    has a node or a falsy value: wherever both hold a node this holds of the
    two nodes again. *)
Fixpoint keeps_keys (base changed : value) : bool :=
  match base, changed with
  | VObj _ _ ps1, VObj _ _ ps2 =>
      forallb (fun e =>
                 match own ps2 (fst (fst e)) with
                 | Some (_, v2) =>
                     if isObject v2 && truthy (snd e)
                     then isObject (snd e) && keeps_keys (snd e) v2
                     else true
                 | None => false
                 end) ps1
  | _, _ => true
  end.

(** No identity occurs twice. *)
Fixpoint distinct_locs (ls : list loc) : bool :=
  match ls with
  | [] => true
  | l :: rest => negb (existsb (Nat.eqb l) rest) && distinct_locs rest
  end.

(** A depth argument that never becomes negative: the omitted one, and what
    [depth - 1] makes of it. *)
Definition unbounded (depth : jsdepth) : Prop :=
  depth = DUndefined \/ depth = DNaN.

Definition erase_entry (e : string * attrs * value) : string * attrs * value :=
  (fst e, erase (snd e)).

(** Two values that share no object. *)
Definition apart (a b : value) : Prop :=
  forall l, In l (locs a) -> ~ In l (locs b).

(** What a write to the key [k] does to the keys of an object: they stay
    distinct, and no key other than [k] is new. *)
Definition grows_by (k : string) (ps ps' : props) : Prop :=
  (distinct (keys ps) = true -> distinct (keys ps') = true)
  /\ forall k', In k' (keys ps') -> k' = k \/ In k' (keys ps).

(** The object [diff] does the work of a diff of [base] and [changed]:
    merged into a copy of [base], by a call of [extendDeep] that has depth
    left for the nesting of [changed], it gives a value deep-equal to
    [changed]. *)
Definition restores (diff base changed : value) : Prop :=
  json_like diff = true /\ isObject diff = true
  /\ forall n into next,
       (height changed <= S n)%nat -> same_shape into base ->
       exists r next',
         extend_calls (S n) into [diff] next = Ok (r, next')
         /\ deep_equal r changed = true.

(** What a diff records, or not, under the key [k] where [changed] holds
    [x2] and the properties of [base] are [ps1]: nothing where the two values
    are deep-equal, and otherwise a diff of the two nodes or [x2] itself, the
    latter where [base] holds no node to merge into. *)
Definition recorded (ps1 : props) (k : string) (x2 : value)
    (entry : option (attrs * value)) : Prop :=
  match entry with
  | None => exists a1 x1, own ps1 k = Some (a1, x1) /\ deep_equal x1 x2 = true
  | Some (a, y) =>
      a = default_attrs
      /\ ((isObject (read ps1 k) = true /\ isObject x2 = true
           /\ restores y (read ps1 k) x2)
          \/ (y = x2 /\ (isObject x2 = true -> isObject (read ps1 k) = false)))
  end.

(** A chain of [n] nodes over a leaf, each under the key [a]. *)
Fixpoint nest (n : nat) (l : loc) (leaf : value) : value :=
  match n with
  | O => leaf
  | S n' => VObj l CObject [("a", default_attrs, nest n' (S l) leaf)]
  end.

(** [extendDeep(cloneDeep(base), diffDeep(base, changed))], the arguments
    evaluated from left to right. *)
Definition round_trip (base changed : value) (next : loc) : result value :=
  let '(copy, next) := cloneDeep base None None next in
  let* '(diff, next) := diffDeep base changed DUndefined next in
  let* '(r, _) := extendDeep copy [diff] next in
  Ok r.
Arguments round_trip base changed next%_nat_scope.
Arguments nest n%_nat_scope l%_nat_scope leaf.

(** The keys of a path can be written through an object: every key before
    the last is absent or holds an object, and the last key is absent or
    writable. *)
Fixpoint path_open (object : value) (path : list string) : bool :=
  match object, path with
  | VObj _ _ ps, key :: rest =>
      match rest with
      | [] =>
          match own ps key with
          | Some (a, _) => writable a
          | None => true
          end
      | _ :: _ =>
          match own ps key with
          | Some (_, child) => path_open child rest
          | None => true
          end
      end
  | _, _ => false
  end.

(** A boolean, a number or a string. *)
Definition primitive (v : value) : bool :=
  match v with
  | VBool _ | VNum _ | VStr _ => true
  | _ => false
  end.

(** The attributes of a property created by [Object.defineProperty] with
    [enumerable: false] and no other attribute. *)
Definition hidden_attrs : attrs := mkAttrs false false false.

(** A falsy value stored under the name of a member is replaced by the
    member, and the property hidden. *)
Definition replace_falsy (members : props) (e : string * attrs * value)
  : string * attrs * value :=
  let '(k, a, x) := e in
  match own members k with
  | Some (_, member) =>
      if truthy x then (k, a, x)
      else (k, mkAttrs (writable a) false (configurable a), member)
  | None => (k, a, x)
  end.

(** The members that an object with the properties [ps] lacks, as the
    hidden properties that are created for them. *)
Definition missing_members (members ps : props) : props :=
  map (fun e => (fst (fst e), hidden_attrs, snd e))
      (filter (fun e => match own ps (fst (fst e)) with
                        | Some _ => false
                        | None => true
                        end) members).

(** What [attachProtoDeep] makes of a value, in words: a node gets every
    member of the prototype that it does not hold with a truthy value, as a
    property that is not enumerable (a falsy value under the name of a member
    is replaced by the member); the nodes held by its enumerable properties
    are treated in the same way; a [RawConfig] and everything else is as it
    was. *)
Fixpoint attach_spec (members : props) (v : value) : value :=
  match v with
  | VObj l c ps =>
      match c with
      | CRaw => v
      | _ =>
          VObj l c
            (map (fun e =>
                    let '(k, a, x) := e in
                    match own members k with
                    | Some (_, member) =>
                        if truthy x
                        then (k, a, if enumerable a && isObject x
                                    then attach_spec members x else x)
                        else (k, mkAttrs (writable a) false (configurable a), member)
                    | None =>
                        (k, a, if enumerable a && isObject x
                               then attach_spec members x else x)
                    end) ps
             ++ missing_members members ps)%list
      end
  | _ => v
  end.

(** The step of [attach_spec] on the nodes held by enumerable properties. *)
Definition attach_child (members : props) (e : string * attrs * value)
  : string * attrs * value :=
  let '(k, a, x) := e in
  (k, a, if enumerable a && isObject x then attach_spec members x else x).

(** A property that [attachProtoDeep] overwrites: it has the name of a
    member of the prototype and a falsy value. *)
Definition shadowed (members : props) (e : string * attrs * value) : bool :=
  match own members (fst (fst e)) with
  | Some _ => negb (truthy (snd e))
  | None => false
  end.

(** The first configuration source can take the defaults of a module: there
    is none yet, or it is an object which, if it is the source named
    ['Module Defaults'], holds a JSON-like object as [parsed]. *)
Definition sources_ready (sources : list value) : bool :=
  match sources with
  | [] => true
  | VObj _ _ sps :: _ =>
      negb (strict_eq (read sps "name") (VStr "Module Defaults"))
      || (is_object (read sps "parsed") && json_like (read sps "parsed"))
  | _ :: _ => false
  end.

(** The configuration sources without the source of the module defaults. *)
Definition other_sources (sources : list value) : list value :=
  match sources with
  | VObj _ _ sps :: others =>
      if strict_eq (read sps "name") (VStr "Module Defaults") then others else sources
  | _ => sources
  end.

(** [attachProtoDeep] can hide what it has to hide: a property that it
    overwrites is configurable, in every object of the value. *)
Fixpoint attachable (members : props) (v : value) : bool :=
  match v with
  | VObj _ _ ps =>
      forallb (fun e => (configurable (snd (fst e)) || negb (shadowed members e))
                        && attachable members (snd e)) ps
  | _ => true
  end.

(** The properties of a configuration object without nested objects, not
    frozen, as [attachProtoDeep] leaves it: the keys are distinct; an
    enumerable property has the attributes of an assignment and holds
    [null], a boolean, a number or a string; a hidden property holds a
    truthy value (a member of the prototype). *)
Definition flat_config (ps : props) : bool :=
  distinct (keys ps)
  && forallb (fun e =>
                if enumerable (snd (fst e))
                then attrs_eqb (snd (fst e)) default_attrs
                     && scalar (snd e) && json_like (snd e)
                else truthy (snd e) && well_formed (snd e)
                     && configurable_throughout (snd e)) ps.

(** No key of [ps] is a hidden property of [local]. *)
Definition visible_in (local ps : props) : bool :=
  forallb (fun k => match own local k with
                    | Some (a, _) => enumerable a
                    | None => true
                    end) (keys ps).

(* ================================================================== *)
(** * Properties *)
(* ================================================================== *)

Local Open Scope list_scope.

(** ** Accessors *)

Lemma getImpl_elems_object (elems : list value) :
  forall l c ps, exists v, getImpl_elems (VObj l c ps) elems = Ok v.
Proof.
  induction elems as [|name rest IH]; intros l c ps.
  - simpl. destruct (own ps "undefined") as [[a x]|]; eauto.
  - cbn [getImpl_elems get_prop].
    destruct (own ps (to_key name)) as [[a x]|] eqn:E; cbn [bind].
    + destruct rest as [|name' rest']; [eauto|].
      destruct x; cbn [strict_eq typeof_object negb orb]; eauto.
    + destruct rest; cbn [strict_eq typeof_object negb orb]; eauto.
Qed.

Lemma getImpl_elems_descend (prefix : list string) :
  forall t o k,
    descend t prefix = Some o ->
    getImpl_elems t (map VStr (prefix ++ [k])%list) = get_prop o k.
Proof.
  induction prefix as [|k' rest IH]; intros t o k H; simpl in *.
  - injection H as ->. destruct (get_prop o k); reflexivity.
  - destruct t; try discriminate.
    destruct (own ps k') as [[a x]|] eqn:E; try discriminate.
    destruct x; try discriminate.
    simpl. rewrite E. simpl.
    destruct (map VStr (rest ++ [k])%list) eqn:M.
    + destruct rest; discriminate.
    + rewrite <- M. apply IH. exact H.
Qed.

(** C8, as the code has it.  For a path argument of the documented kinds (a
    string, an array of keys, [null] or [undefined]) [has] returns a boolean
    and does not throw, and for [null] and [undefined] the boolean is
    [false]. *)
Theorem has_returns_boolean :
  forall l c ps property,
    path_argument property = true ->
    (exists b, has (VObj l c ps) property = Ok b)
    /\ (loose_null property = true -> has (VObj l c ps) property = Ok false).
Proof.
  intros l c ps property Hp. split.
  - unfold has, getImpl, path_elems.
    destruct property; try discriminate; simpl; eauto.
    + destruct (getImpl_elems_object (map VStr (split_on "."%char s)) l c ps) as [v ->].
      simpl. eauto.
    + destruct c0; try discriminate. simpl.
      destruct (getImpl_elems_object (map snd ps0) l c ps) as [v ->].
      simpl. eauto.
  - destruct property; try discriminate; reflexivity.
Qed.

Lemma has_returns_boolean_witness :
  (exists b, has (VObj 0 CObject [("db", default_attrs, VObj 1 CObject [("port", default_attrs, VNum 5433)])])
               (VStr "db.port") = Ok b)
  /\ (loose_null (VStr "db.port") = true ->
      has (VObj 0 CObject [("db", default_attrs, VObj 1 CObject [("port", default_attrs, VNum 5433)])])
          (VStr "db.port") = Ok false).
Proof.
  apply (has_returns_boolean 0%nat CObject
           [("db", default_attrs, VObj 1 CObject [("port", default_attrs, VNum 5433)])]
           (VStr "db.port")).
  reflexivity.
Defined.

(** C8 as stated fails: a number has no [split], and [has(42)] throws. *)
Lemma has_throws_on_a_number :
  has (VObj 0 CObject [("db", default_attrs, VNum 1)]) (VNum 42)
  = Throw (TypeError "property.split is not a function").
Proof. reflexivity. Qed.



(** ** [equalsDeep] *)

(** C9.  On a falsy value [equalsDeep] answers [false] even when both
    arguments are that same value: the test [!object1 || !object2] comes
    before the identity test.  This holds with the depth omitted, as in
    [equalsDeep(x, x)], and with any depth that is not negative. *)
Theorem equalsDeep_not_reflexive_on_falsy :
  forall x depth,
    truthy x = false ->
    depth_negative (depth_or_default depth) = false ->
    equalsDeep x x depth = EqBool false.
Proof.
  intros x depth Hx Hd.
  destruct x; simpl in *; rewrite ?Hd, ?Hx; try reflexivity; discriminate.
Qed.

Lemma equalsDeep_not_reflexive_on_falsy_witness :
  equalsDeep (VNum 0) (VNum 0) DUndefined = EqBool false.
Proof.
  apply (equalsDeep_not_reflexive_on_falsy (VNum 0) DUndefined); reflexivity.
Defined.

(** C2, at the failing inputs.  With the depth exhausted [equalsDeep] returns
    the object literal of its guard, not [false]; one level up the caller
    negates that truthy object, so two trees that differ below the bound
    compare equal. *)
Theorem equalsDeep_depth_overflow :
  equalsDeep (VObj 1 CObject [("a", default_attrs, VNum 1)])
             (VObj 2 CObject [("a", default_attrs, VNum 1)]) (DNum (-1))
  = EqEmptyObject
  /\ equalsDeep
       (VObj 1 CObject [("a", default_attrs, VObj 2 CObject [("b", default_attrs, VNum 1)])])
       (VObj 3 CObject [("a", default_attrs, VObj 4 CObject [("b", default_attrs, VNum 2)])])
       (DNum 0)
     = EqBool true.
Proof. split; reflexivity. Qed.

(** ** [resolveDeferredConfigs] *)

(** C3, at the failing input [{a: [deferred]}].  An element of an array is
    handed to [_iterate] as a container, never tested with
    [instanceof DeferredConfig]: the deferred value is still there after the
    pass, whatever its resolver would have returned. *)
Theorem resolveDeferredConfigs_misses_array_elements :
  forall js_call,
    resolveDeferredConfigs js_call 3
      (VObj 0 CObject
         [("a", default_attrs,
           VObj 1 CArray
             [("0", default_attrs,
               VObj 2 CDeferred [("resolve", default_attrs, VFun 7)])])])
    = Some (Ok (VObj 0 CObject
         [("a", default_attrs,
           VObj 1 CArray
             [("0", default_attrs,
               VObj 2 CDeferred [("resolve", default_attrs, VFun 7)])])])).
Proof. intros js_call. reflexivity. Qed.

(** ** Property lists *)

Lemma strict_eq_refl (v : value) : strict_eq v v = true.
Proof.
  destruct v; simpl; auto using Bool.eqb_reflx, Z.eqb_refl, String.eqb_refl, Nat.eqb_refl.
Qed.

Lemma existsb_eqb_false (k : string) (ks : list string) :
  existsb (String.eqb k) ks = false <-> ~ In k ks.
Proof.
  induction ks as [|k' ks IH]; simpl.
  - tauto.
  - rewrite orb_false_iff, IH, String.eqb_neq. intuition congruence.
Qed.

Lemma distinct_app_cons (pre : list string) (k : string) (rest : list string) :
  distinct (pre ++ k :: rest) = true -> ~ In k pre /\ ~ In k rest.
Proof.
  induction pre as [|k' pre IH]; simpl; rewrite andb_true_iff, negb_true_iff,
    existsb_eqb_false; intros [H1 H2].
  - tauto.
  - destruct (IH H2) as [Hp Hr]. split; [|exact Hr].
    intros [->|Hin]; [|tauto]. apply H1. apply in_or_app. right. left. reflexivity.
Qed.

Lemma define_own_at (pre : props) (k : string) (a : attrs) (x : value)
    (rest : props) (d : descriptor) :
  ~ In k (keys pre) ->
  define_own (pre ++ (k, a, x) :: rest) k d
  = match apply_descriptor a x d with
    | Some (a', x') => Some (pre ++ (k, a', x') :: rest)
    | None => None
    end.
Proof.
  induction pre as [|[[k' a'] x'] pre IH]; simpl; intros Hk.
  - rewrite String.eqb_refl. destruct (apply_descriptor a x d) as [[? ?]|]; reflexivity.
  - destruct (String.eqb_spec k' k) as [->|Hne]; [tauto|].
    rewrite IH by tauto. destruct (apply_descriptor a x d) as [[? ?]|]; reflexivity.
Qed.

Lemma store_at (pre : props) (k : string) (a : attrs) (x y : value) (rest : props) :
  ~ In k (keys pre) ->
  store (pre ++ (k, a, x) :: rest) k y = pre ++ (k, a, y) :: rest.
Proof.
  induction pre as [|[[k' a'] x'] pre IH]; simpl; intros Hk.
  - rewrite String.eqb_refl. reflexivity.
  - destruct (String.eqb_spec k' k) as [->|Hne]; [tauto|].
    rewrite IH by tauto. reflexivity.
Qed.

Lemma apply_frozen_descriptor (a : attrs) (x : value) :
  apply_descriptor a x (frozen_descriptor x)
  = Some (mkAttrs false (enumerable a) false, x).
Proof.
  unfold apply_descriptor, frozen_descriptor. simpl.
  rewrite strict_eq_refl. simpl. rewrite !andb_false_r. reflexivity.
Qed.

(** ** [makeImmutable] *)

Lemma makeImmutable_all_spec (v : value) :
  well_formed v = true ->
  match v with
  | VObj _ _ _ => makeImmutable_all v = Ok (makeImmutable_spec v)
  | _ => True
  end.
Proof.
  induction v as [| | | | | |l c ps IH] using value_props_ind; try exact (fun _ => I).
  intros Hwf.
  cbn [makeImmutable_all makeImmutable_spec].
  match goal with |- _ = Ok (VObj l c (map ?f ps)) => set (freeze_entry := f) end.
  simpl in Hwf. apply andb_true_iff in Hwf as [Hd Hwf].
  match goal with |- ?F ps (VObj l c ps) = _ => set (process := F) end.
  assert (L : forall todo pre,
             Forall (fun e => well_formed (snd e) = true ->
                              match snd e with
                              | VObj _ _ _ =>
                                  makeImmutable_all (snd e) = Ok (makeImmutable_spec (snd e))
                              | _ => True
                              end) todo ->
             forallb (fun e => well_formed (snd e)) todo = true ->
             distinct (keys (pre ++ todo)) = true ->
             process todo (VObj l c (pre ++ todo))
             = Ok (VObj l c (pre ++ map freeze_entry todo))).
  { induction todo as [|[[k a] x] todo IHt]; intros pre HF Hw Hdis.
    - reflexivity.
    - inversion HF as [|? ? Hx HF']; subst. simpl in Hx.
      simpl in Hw. apply andb_true_iff in Hw as [Hwx Hw].
      unfold keys in Hdis. rewrite map_app in Hdis. simpl in Hdis.
      destruct (distinct_app_cons _ _ _ Hdis) as [Hpre _].
      assert (Hdis' : forall y a', distinct (keys ((pre ++ [(k, a', y)]) ++ todo)) = true).
      { intros y a'. unfold keys. rewrite <- app_assoc, map_app. exact Hdis. }
      assert (Next : forall y a',
                 process todo (VObj l c (pre ++ (k, a', y) :: todo))
                 = Ok (VObj l c (pre ++ (k, a', y) :: map freeze_entry todo))).
      { intros y a'. specialize (IHt (pre ++ [(k, a', y)]) HF' Hw (Hdis' y a')).
        rewrite <- !app_assoc in IHt. exact IHt. }
      unfold process; cbn fix; fold process. cbn beta iota.
      cbn [map]. unfold freeze_entry at 1. cbn beta iota. unfold skipped.
      destruct (enumerable a) eqn:Ea; cbn [negb orb andb].
      + destruct (instanceof_RawConfig x) eqn:Er; cbn [negb orb andb].
        * apply Next.
        * cbn [defineProperty]. rewrite define_own_at by exact Hpre.
          rewrite apply_frozen_descriptor. cbn [bind].
          destruct (isObject x) eqn:Eo.
          -- destruct x as [| | | | | |xl xc xps]; try discriminate.
             rewrite (Hx Hwx). cbn [bind].
             rewrite store_at by exact Hpre. rewrite Ea. apply Next.
          -- rewrite Ea. apply Next.
      + apply Next. }
  apply (L ps []); assumption.
Qed.

Lemma makeImmutable_spec_class (v : value) :
  instanceof_RawConfig (makeImmutable_spec v) = instanceof_RawConfig v
  /\ isObject (makeImmutable_spec v) = isObject v.
Proof. destruct v; split; reflexivity. Qed.

Lemma makeImmutable_spec_immutable (v : value) :
  immutable (makeImmutable_spec v) = true.
Proof.
  induction v as [| | | | | |l c ps IH] using value_props_ind; try reflexivity.
  cbn [makeImmutable_spec immutable]. rewrite forallb_forall. intros e Hin.
  apply in_map_iff in Hin as [[[k a] x] [<- Hin]].
  rewrite Forall_forall in IH. specialize (IH _ Hin). simpl in IH.
  destruct (skipped a x) eqn:Es.
  - rewrite Es. reflexivity.
  - unfold skipped in *. apply orb_false_iff in Es as [Ee Er].
    apply negb_false_iff in Ee. cbn [enumerable writable configurable].
    rewrite Ee. destruct (isObject x) eqn:Eo.
    + destruct (makeImmutable_spec_class x) as [-> ->]. rewrite Er, Eo, IH. reflexivity.
    + rewrite Er, Eo. reflexivity.
Qed.

(** C1, as the code has it.  In default mode [makeImmutable] returns the
    node with every own enumerable property non-writable and
    non-configurable, recursively through the nodes those properties hold,
    except the properties whose value is a [RawConfig], which it skips and
    leaves as they were.  A property that holds a [DeferredConfig] is not
    skipped. *)
Theorem makeImmutable_freezes_all_but_raw :
  forall l c ps,
    well_formed (VObj l c ps) = true ->
    makeImmutable (VObj l c ps) NoProperty VUndef
    = Ok (makeImmutable_spec (VObj l c ps))
    /\ immutable (makeImmutable_spec (VObj l c ps)) = true.
Proof.
  intros l c ps Hwf. split.
  - unfold makeImmutable. exact (makeImmutable_all_spec (VObj l c ps) Hwf).
  - apply makeImmutable_spec_immutable.
Qed.

Lemma makeImmutable_freezes_all_but_raw_witness :
  makeImmutable
    (VObj 0 CObject
       [("db", default_attrs, VObj 1 CObject [("port", default_attrs, VNum 5433)]);
        ("key", default_attrs, VObj 2 CRaw [("resolve", default_attrs, VFun 3)])])
    NoProperty VUndef
  = Ok (makeImmutable_spec
          (VObj 0 CObject
             [("db", default_attrs, VObj 1 CObject [("port", default_attrs, VNum 5433)]);
              ("key", default_attrs, VObj 2 CRaw [("resolve", default_attrs, VFun 3)])]))
  /\ immutable
       (makeImmutable_spec
          (VObj 0 CObject
             [("db", default_attrs, VObj 1 CObject [("port", default_attrs, VNum 5433)]);
              ("key", default_attrs, VObj 2 CRaw [("resolve", default_attrs, VFun 3)])]))
     = true.
Proof.
  apply (makeImmutable_freezes_all_but_raw 0%nat CObject
           [("db", default_attrs, VObj 1 CObject [("port", default_attrs, VNum 5433)]);
            ("key", default_attrs, VObj 2 CRaw [("resolve", default_attrs, VFun 3)])]).
  reflexivity.
Defined.

(** C1 as stated fails: the test in the loop is [instanceof RawConfig], so a
    property that holds a [DeferredConfig] is not skipped.  It is made
    non-writable and non-configurable, and so is the [resolve] property of
    the deferred value itself. *)
Lemma makeImmutable_freezes_a_deferred_value :
  makeImmutable
    (VObj 0 CObject
       [("a", default_attrs, VObj 1 CDeferred [("resolve", default_attrs, VFun 7)])])
    NoProperty VUndef
  = Ok (VObj 0 CObject
          [("a", mkAttrs false true false,
            VObj 1 CDeferred [("resolve", mkAttrs false true false, VFun 7)])]).
Proof. reflexivity. Qed.

(** ** Attributes are preserved *)

Section AllAttrs.

Variable P : attrs -> bool.
Hypothesis P_default : P default_attrs = true.
Hypothesis P_configurable : forall a, P a = true -> configurable a = true.

Lemma all_props_own (ps : props) (k : string) (a : attrs) (x : value) :
  all_props P ps = true -> own ps k = Some (a, x) ->
  P a = true /\ all_attrs P x = true.
Proof.
  induction ps as [|[[k' a'] x'] ps IH]; simpl; [discriminate|].
  rewrite !andb_true_iff. intros [[Ha Hx] Hps].
  destruct (String.eqb k' k); [|auto].
  intros [= <- <-]. auto.
Qed.

Lemma all_attrs_get_prop (o : value) (k : string) (x : value) :
  all_attrs P o = true -> get_prop o k = Ok x -> all_attrs P x = true.
Proof.
  destruct o; simpl; try (intros _ [= <-]; reflexivity); try discriminate.
  - intros _. destruct (String.eqb k "length"); [intros [= <-]; reflexivity|].
    generalize 0%nat. induction s as [|ch s IH]; intros n; simpl.
    + intros [= <-]. reflexivity.
    + destruct (String.eqb (index_key n) k); [intros [= <-]; reflexivity|apply IH].
  - intros H. destruct (own ps k) as [[a y]|] eqn:E.
    + intros [= <-]. exact (proj2 (all_props_own _ _ _ _ H E)).
    + intros [= <-]. reflexivity.
Qed.

Lemma all_props_assign (ps : props) (k : string) (v : value) :
  all_props P ps = true -> all_attrs P v = true -> all_props P (assign ps k v) = true.
Proof.
  intros Hps Hv. induction ps as [|[[k' a'] x'] ps IH]; simpl in *.
  - rewrite P_default, Hv. reflexivity.
  - rewrite !andb_true_iff in Hps. destruct Hps as [[Ha Hx] Hps].
    destruct (String.eqb k' k); [destruct (writable a')|]; simpl;
      rewrite ?Ha, ?Hx, ?Hv, ?Hps, ?IH; auto.
Qed.

Lemma all_props_store (ps : props) (k : string) (v : value) :
  all_props P ps = true -> all_attrs P v = true -> all_props P (store ps k v) = true.
Proof.
  intros Hps Hv. induction ps as [|[[k' a'] x'] ps IH]; simpl in *; [reflexivity|].
  rewrite !andb_true_iff in Hps. destruct Hps as [[Ha Hx] Hps].
  destruct (String.eqb k' k); simpl; rewrite ?Ha, ?Hx, ?Hv, ?Hps, ?IH; auto.
Qed.

Lemma all_attrs_set_prop (l : loc) (c : cls) (ps : props) (k : string) (v : value) :
  all_attrs P (VObj l c ps) = true -> all_attrs P v = true ->
  exists ps', set_prop (VObj l c ps) k v = Ok (VObj l c ps')
              /\ all_attrs P (VObj l c ps') = true.
Proof.
  intros Ho Hv. exists (assign ps k v). split; [reflexivity|].
  apply all_props_assign; assumption.
Qed.

Lemma all_props_define (ps : props) (k : string) (a : attrs) (v : value) :
  all_props P ps = true -> P a = true -> all_attrs P v = true ->
  exists ps',
    define_own ps k (mkDesc (Some v) (Some (writable a)) (Some (enumerable a))
                            (Some (configurable a))) = Some ps'
    /\ all_props P ps' = true.
Proof.
  intros Hps Ha Hv. induction ps as [|[[k' a'] x'] ps IH]; simpl in *.
  - eexists. split; [reflexivity|]. simpl. destruct a. simpl in *.
    rewrite Ha, Hv. reflexivity.
  - rewrite !andb_true_iff in Hps. destruct Hps as [[Ha' Hx'] Hps].
    destruct (String.eqb k' k).
    + unfold apply_descriptor. rewrite (P_configurable _ Ha'). simpl.
      eexists. split; [reflexivity|]. simpl. destruct a. simpl in *.
      rewrite Ha, Hv, Hps. reflexivity.
    + destruct (IH Hps) as [ps' [-> Hps']].
      eexists. split; [reflexivity|]. simpl. rewrite Ha', Hx', Hps'. reflexivity.
Qed.

(** *** [cloneDeep] *)

Lemma all_children_child_of (seen : visited) (l : loc) (known : value) :
  all_children P seen -> child_of seen l = Some known -> all_attrs P known = true.
Proof.
  induction seen as [|[l' ch] seen IH]; simpl; [discriminate|].
  intros H. inversion H; subst. destruct (Nat.eqb l' l); [intros [= <-]; assumption|auto].
Qed.

Lemma all_children_fill (seen : visited) (l : loc) (child : value) :
  all_children P seen -> all_attrs P child = true -> all_children P (fill_child seen l child).
Proof.
  intros H Hc. induction H as [|[l' ch] seen Hh Ht IH]; simpl; [constructor|].
  destruct (Nat.eqb l' l); constructor; auto.
Qed.

Lemma copy_props_all_attrs clone (todo : props) :
  Forall (fun e => clone_keeps P clone (snd e)) todo ->
  forall child_ps st,
    all_props P todo = true -> all_props P child_ps = true -> all_children P (snd st) ->
    all_props P (fst (copy_props clone todo child_ps st)) = true
    /\ all_children P (snd (snd (copy_props clone todo child_ps st))).
Proof.
  induction 1 as [|[[i a] v] todo Hv _ IH]; intros child_ps st Ht Hc Hs; simpl.
  - auto.
  - simpl in Ht. rewrite !andb_true_iff in Ht. destruct Ht as [[Ha Hx] Ht].
    destruct (enumerable a); [|auto].
    destruct (Hv st Hx Hs) as [H1 H2]. simpl in *.
    destruct (clone v st) as [v' st']. simpl in *.
    apply IH; auto using all_props_assign.
Qed.

Lemma _clone_all_attrs (circular : bool) (parent : value) :
  forall depth, clone_keeps P (fun v st => _clone circular v depth st) parent.
Proof.
  induction parent as [| | | | | |l c ps IH] using value_props_ind;
    intros depth st Hp Hs; simpl; auto.
  destruct (depth =? 0); [auto|].
  destruct st as [child_loc seen]. simpl in Hs.
  destruct (if circular then child_of seen l else None) as [known|] eqn:Ek.
  - simpl. split; [|exact Hs].
    destruct circular; [|discriminate]. eapply all_children_child_of; eauto.
  - set (seen0 := if circular then seen ++ [(l, VObj child_loc (child_class c) [])] else seen).
    assert (Hs0 : all_children P seen0).
    { subst seen0. destruct circular; [|exact Hs].
      apply Forall_app. split; [exact Hs|]. constructor; [reflexivity|constructor]. }
    assert (HF : Forall (fun e => clone_keeps P
                                    (fun v st => _clone circular v (depth - 1) st) (snd e)) ps).
    { rewrite Forall_forall in *. intros e He. apply IH. exact He. }
    destruct (copy_props_all_attrs _ ps HF [] (S child_loc, seen0) Hp eq_refl Hs0)
      as [H1 H2].
    destruct (copy_props _ ps [] (S child_loc, seen0)) as [child_ps [next seen1]].
    simpl in *. split; [exact H1|].
    destruct circular; [|exact H2]. apply all_children_fill; assumption.
Qed.

Lemma cloneDeep_all_attrs (parent : value) depth circular next :
  all_attrs P parent = true ->
  all_attrs P (fst (cloneDeep parent depth circular next)) = true.
Proof.
  intros Hp. unfold cloneDeep.
  destruct (_clone_all_attrs (opt_default circular true) parent (opt_default depth 20)
              (next, []) Hp (Forall_nil _)) as [H _].
  destruct (_clone _ parent _ (next, [])) as [child [n s]]. exact H.
Qed.

(** *** [extendDeep] *)

Lemma extend_entry_all_attrs recurse depth mergeFrom prop from l c ps next :
  (forall il ic ips f n,
      all_attrs P (VObj il ic ips) = true -> all_attrs P f = true ->
      is_string f = false ->
      merges P (recurse (VObj il ic ips) f n) il ic) ->
  all_attrs P mergeFrom = true ->
  is_string mergeFrom = false ->
  all_attrs P from = true ->
  all_attrs P (VObj l c ps) = true ->
  merges P (extend_entry recurse depth mergeFrom prop from (VObj l c ps) next) l c.
Proof.
  intros Hrec HmF HnS Hfrom Hinto. unfold extend_entry.
  cbn [get_prop].
  set (into := match own ps prop with Some (_, x) => x | None => VUndef end).
  assert (Hi : all_attrs P into = true).
  { subst into. destruct (own ps prop) as [[a x]|] eqn:E; [|reflexivity].
    exact (proj2 (all_props_own _ _ _ _ Hinto E)). }
  replace (match own ps prop with Some (_, x) => Ok x | None => Ok VUndef end)
    with (Ok (A:=value) into) by (subst into; destruct (own ps prop) as [[? ?]|]; reflexivity).
  cbn [bind].
  (* the deferred original *)
  assert (Hfrom' : exists from',
             (if instanceof_DeferredConfig from && hasOwnProperty (VObj l c ps) prop
              then let* original :=
                     if instanceof_DeferredConfig into then get_prop into "_original"
                     else Ok into in
                   set_prop from "_original" original
              else Ok from) = Ok from'
             /\ all_attrs P from' = true
             /\ instanceof_Date from' = instanceof_Date from
             /\ instanceof_RegExp from' = instanceof_RegExp from
             /\ isObject from' = isObject from
             /\ (truthy from' && typeof_object from') = (truthy from && typeof_object from)).
  { destruct (instanceof_DeferredConfig from && hasOwnProperty (VObj l c ps) prop) eqn:E.
    - apply andb_true_iff in E as [Ed _].
      destruct from as [| | | | | |fl fc fps]; try discriminate.
      destruct fc; try discriminate.
      assert (Ho : exists original,
                 (if instanceof_DeferredConfig into then get_prop into "_original"
                  else Ok into) = Ok original /\ all_attrs P original = true).
      { destruct (instanceof_DeferredConfig into) eqn:Ei; [|eauto].
        destruct into as [| | | | | |il ic ips]; try discriminate.
        simpl. destruct (own ips "_original") as [[a x]|] eqn:Eo.
        - exists x. split; [reflexivity|]. exact (proj2 (all_props_own _ _ _ _ Hi Eo)).
        - exists VUndef. split; reflexivity. }
      destruct Ho as [original [-> Ho]]. cbn [bind].
      destruct (all_attrs_set_prop fl CDeferred fps "_original" original Hfrom Ho)
        as [fps' [-> Hf']].
      exists (VObj fl CDeferred fps'). repeat split; auto.
    - exists from. repeat split; auto. }
  destruct Hfrom' as [from' [-> [Hf' [ED [ER [EO ET]]]]]]. cbn [bind].
  clearbody into.
  (* the date *)
  assert (Hdate : exists ps1,
             (if instanceof_Date from' then set_prop (VObj l c ps) prop from'
              else Ok (VObj l c ps)) = Ok (VObj l c ps1)
             /\ all_attrs P (VObj l c ps1) = true).
  { destruct (instanceof_Date from'); [|eauto].
    apply all_attrs_set_prop; assumption. }
  destruct Hdate as [ps1 [-> H1]]. cbn [bind].
  destruct (instanceof_RegExp from').
  { destruct (all_attrs_set_prop l c ps1 prop from' H1 Hf') as [ps2 [-> H2]].
    cbn [bind]. exists ps2. eauto. }
  cbn [get_prop].
  set (into1 := match own ps1 prop with Some (_, x) => x | None => VUndef end).
  assert (Hi1 : all_attrs P into1 = true).
  { subst into1. destruct (own ps1 prop) as [[a x]|] eqn:E; [|reflexivity].
    exact (proj2 (all_props_own _ _ _ _ H1 E)). }
  replace (match own ps1 prop with Some (_, x) => Ok x | None => Ok VUndef end)
    with (Ok (A:=value) into1) by (subst into1; destruct (own ps1 prop) as [[? ?]|]; reflexivity).
  cbn [bind]. clearbody into1.
  destruct (isObject into1 && isObject from' && negb (instanceof_DeferredConfig into)) eqn:Eboth.
  - apply andb_true_iff in Eboth as [Eboth _]. apply andb_true_iff in Eboth as [Eo1 Eo2].
    destruct into1 as [| | | | | |il ic ips]; try discriminate.
    assert (Hns : is_string from' = false) by (destruct from'; try discriminate; reflexivity).
    destruct (Hrec il ic ips from' next Hi1 Hf' Hns) as [ips' [next' [-> Hr]]].
    cbn [bind]. exists (store ps1 prop (VObj il ic ips')), next'.
    split; [reflexivity|]. apply all_props_store; assumption.
  - destruct (truthy from' && typeof_object from').
    + pose proof (cloneDeep_all_attrs from' (Some (depth - 1)) None next Hf') as Hc.
      destruct (cloneDeep from' (Some (depth - 1)) None next) as [copy next'].
      simpl in Hc.
      destruct (all_attrs_set_prop l c ps1 prop copy H1 Hc) as [ps2 [-> H2]].
      cbn [bind]. exists ps2. eauto.
    + unfold getOwnPropertyDescriptor.
      destruct (own match mergeFrom with
                    | VObj _ _ ps0 => ps0
                    | VStr s => string_props 0 s
                    | _ => []
                    end prop) as [[a v]|] eqn:Eown.
      * assert (Hav : P a = true /\ all_attrs P v = true).
        { destruct mergeFrom; try discriminate.
          exact (all_props_own _ _ _ _ HmF Eown). }
        destruct Hav as [Ha Hv].
        destruct (all_props_define ps1 prop a v H1 Ha Hv) as [ps2 [E2 H2]].
        cbn [defineProperty]. rewrite E2. cbn [bind]. exists ps2. eauto.
      * destruct (all_attrs_set_prop l c ps1 prop from' H1 Hf') as [ps2 [-> H2]].
        cbn [bind]. exists ps2. eauto.
Qed.

Lemma for_in_all_attrs (mergeFrom : value) :
  all_attrs P mergeFrom = true -> is_string mergeFrom = false ->
  Forall (fun e => all_attrs P (snd e) = true) (for_in mergeFrom).
Proof.
  destruct mergeFrom; simpl; try constructor; try discriminate.
  intros H _. unfold enumerable_props. rewrite Forall_forall. intros e He.
  apply filter_In in He as [He _]. rewrite forallb_forall in H.
  specialize (H e He). apply andb_true_iff in H. tauto.
Qed.

Lemma extend_calls_all_attrs (n : nat) :
  forall l c ps vargs next,
    all_attrs P (VObj l c ps) = true ->
    Forall (fun v => all_attrs P v = true /\ is_string v = false) vargs ->
    merges P (extend_calls n (VObj l c ps) vargs next) l c.
Proof.
  induction n as [|n IH]; intros l c ps vargs next Hinto Hargs.
  - exists ps, next. auto.
  - cbn [extend_calls].
    assert (G : forall acc, merges P acc l c ->
                merges P
                  (fold_left
                     (fun acc mergeFrom =>
                        let* '(mergeInto, next) := acc in
                        fold_left
                          (fun acc e =>
                             let* '(mergeInto, next) := acc in
                             extend_entry
                               (fun into from next => extend_calls n into [from] next)
                               (Z.of_nat n) mergeFrom (fst (fst e)) (snd e) mergeInto next)
                          (for_in mergeFrom) (Ok (mergeInto, next)))
                     vargs acc) l c).
    { induction Hargs as [|mergeFrom vargs [HmF HnS] _ IHv]; intros acc Hacc; simpl.
      - exact Hacc.
      - apply IHv. destruct Hacc as [ps0 [next0 [-> H0]]]. cbn [bind].
        pose proof (for_in_all_attrs mergeFrom HmF HnS) as HF.
        assert (E : forall acc, merges P acc l c ->
                  merges P
                    (fold_left
                       (fun acc e =>
                          let* '(mergeInto, next) := acc in
                          extend_entry
                            (fun into from next => extend_calls n into [from] next)
                            (Z.of_nat n) mergeFrom (fst (fst e)) (snd e) mergeInto next)
                       (for_in mergeFrom) acc) l c).
        { induction HF as [|e es He _ IHe]; intros acc Hacc; simpl.
          - exact Hacc.
          - apply IHe. destruct Hacc as [ps1 [next1 [-> H1]]]. cbn [bind].
            apply extend_entry_all_attrs; auto. }
        apply E. exists ps0, next0. auto. }
    apply G. exists ps, next. auto.
Qed.

End AllAttrs.

Lemma extend_arguments_not_a_number (before : list value) (last : value) :
  is_number last = false ->
  extend_arguments (before ++ [last]) = (before ++ [last], DEFAULT_CLONE_DEPTH).
Proof.
  intros H. unfold extend_arguments. rewrite rev_app_distr. simpl.
  destruct last; try reflexivity. discriminate.
Qed.

Lemma extend_arguments_sources (arguments : list value) :
  Forall (fun v => configurable_throughout v = true /\ is_string v = false) arguments ->
  Forall (fun v => configurable_throughout v = true /\ is_string v = false)
         (fst (extend_arguments arguments)).
Proof.
  intros H. unfold extend_arguments.
  destruct (rev arguments) as [|last before] eqn:E; simpl.
  - constructor; [split; reflexivity|constructor].
  - assert (Hb : Forall (fun v => configurable_throughout v = true /\ is_string v = false)
                        (rev before)).
    { apply Forall_rev in H. rewrite E in H. inversion H; subst.
      apply Forall_rev. assumption. }
    destruct last; simpl; assumption.
Qed.





(** ** What a merge step changes *)

Lemma own_assign_other (ps : props) (p k : string) (v : value) :
  p <> k -> own (assign ps p v) k = own ps k.
Proof.
  intros Hne. induction ps as [|[[k' a'] x'] ps IH]; simpl.
  - destruct (String.eqb_spec p k); [contradiction|reflexivity].
  - destruct (String.eqb_spec k' p) as [->|Hp].
    + destruct (writable a'); simpl; destruct (String.eqb_spec p k); try contradiction; reflexivity.
    + simpl. rewrite IH. reflexivity.
Qed.

Lemma own_store_other (ps : props) (p k : string) (v : value) :
  p <> k -> own (store ps p v) k = own ps k.
Proof.
  intros Hne. induction ps as [|[[k' a'] x'] ps IH]; simpl; [reflexivity|].
  destruct (String.eqb_spec k' p) as [->|Hp]; simpl.
  - destruct (String.eqb_spec p k); [contradiction|reflexivity].
  - rewrite IH. reflexivity.
Qed.

Lemma own_define_other (ps ps' : props) (p k : string) (d : descriptor) :
  define_own ps p d = Some ps' -> p <> k -> own ps' k = own ps k.
Proof.
  intros H Hne. revert ps' H. induction ps as [|[[k' a'] x'] ps IH]; simpl; intros ps' H.
  - injection H as <-. simpl. destruct (String.eqb_spec p k); [contradiction|reflexivity].
  - destruct (String.eqb_spec k' p) as [->|Hp].
    + destruct (apply_descriptor a' x' d) as [[a2 x2]|]; [|discriminate].
      injection H as <-. simpl. destruct (String.eqb_spec p k); [contradiction|reflexivity].
    + destruct (define_own ps p d) as [rest'|]; [|discriminate].
      injection H as <-. simpl. rewrite (IH rest' eq_refl). reflexivity.
Qed.

Lemma own_assign_same (ps : props) (k : string) (v : value) :
  all_props writable_configurable ps = true ->
  exists a, own (assign ps k v) k = Some (a, v).
Proof.
  induction ps as [|[[k' a'] x'] ps IH]; simpl; intros H.
  - rewrite String.eqb_refl. eauto.
  - rewrite !andb_true_iff in H. destruct H as [[Ha _] Hps].
    destruct (String.eqb_spec k' k) as [->|Hne].
    + unfold writable_configurable in Ha. apply andb_true_iff in Ha as [-> _].
      simpl. rewrite String.eqb_refl. eauto.
    + simpl. destruct (String.eqb_spec k' k); [contradiction|]. auto.
Qed.

Lemma own_store_same (ps : props) (k : string) (a : attrs) (x v : value) :
  own ps k = Some (a, x) -> own (store ps k v) k = Some (a, v).
Proof.
  induction ps as [|[[k' a'] x'] ps IH]; simpl; [discriminate|].
  destruct (String.eqb_spec k' k) as [->|Hne]; simpl.
  - intros [= <- <-]. rewrite String.eqb_refl. reflexivity.
  - destruct (String.eqb_spec k' k); [contradiction|]. exact IH.
Qed.

Lemma own_define_same (ps ps' : props) (k : string) (a : attrs) (v : value) :
  define_own ps k (mkDesc (Some v) (Some (writable a)) (Some (enumerable a))
                          (Some (configurable a))) = Some ps' ->
  own ps' k = Some (a, v).
Proof.
  revert ps'. induction ps as [|[[k' a'] x'] ps IH]; simpl; intros ps' H.
  - injection H as <-. simpl. rewrite String.eqb_refl. destruct a; reflexivity.
  - destruct (String.eqb_spec k' k) as [->|Hne].
    + unfold apply_descriptor in H. simpl in H.
      match type of H with
      | (match (if ?b then _ else _) with _ => _ end) = _ => destruct b; [discriminate|]
      end.
      injection H as <-. simpl. rewrite String.eqb_refl. destruct a; reflexivity.
    + destruct (define_own ps k _) as [rest'|]; [|discriminate].
      injection H as <-. simpl. destruct (String.eqb_spec k' k); [contradiction|].
      apply IH. reflexivity.
Qed.

(** A turn of the loop of [extendDeep] for the property [prop] leaves every
    other property of the destination as it was. *)
Lemma extend_entry_frame recurse depth mergeFrom prop from l c ps next l' c' ps' next' k :
  extend_entry recurse depth mergeFrom prop from (VObj l c ps) next
  = Ok (VObj l' c' ps', next') ->
  prop <> k -> own ps' k = own ps k.
Proof.
  unfold extend_entry. cbn [get_prop].
  intros H Hne.
  destruct (own ps prop) as [[a0 into]|] eqn:E0; cbn [bind] in H.
  all: match type of H with
       | bind ?fr _ = _ => destruct fr as [from'|] eqn:Ef; [|discriminate]
       end; cbn [bind] in H.
  all: assert (H1 : exists ps1,
             (if instanceof_Date from' then set_prop (VObj l c ps) prop from'
              else Ok (VObj l c ps)) = Ok (VObj l c ps1)
             /\ own ps1 k = own ps k)
         by (destruct (instanceof_Date from'); simpl;
             eauto using own_assign_other).
  all: destruct H1 as [ps1 [E1 <-]]; rewrite E1 in H; cbn [bind] in H.
  all: destruct (instanceof_RegExp from');
         [injection H as <- <- <- _; apply own_assign_other; assumption|].
  all: cbn [get_prop] in H.
  all: match type of H with
       | bind (match own ?p1 ?pr with _ => _ end) _ = _ =>
           destruct (own p1 pr) as [[a1 into1]|] eqn:E2; cbn [bind] in H
       end.
  all: match type of H with
       | (if ?b then _ else _) = _ => destruct b
       end.
  all: try match type of H with
       | bind (?R ?i ?f ?n) _ = _ =>
           destruct (R i f n) as [[r nr]|]; [|discriminate];
             cbn [bind] in H; injection H as <- <- <- _;
             apply own_store_other; assumption
       end.
  all: match type of H with
       | (if ?b then _ else _) = _ => destruct b
       end.
  all: try match type of H with
       | (let '(_, _) := cloneDeep ?f ?d ?ci ?n in _) = _ =>
           destruct (cloneDeep f d ci n) as [copy nc];
             cbn [set_prop bind] in H; injection H as <- <- <- _;
             apply own_assign_other; assumption
       end.
  all: destruct (getOwnPropertyDescriptor mergeFrom prop) as [d|];
         [cbn [defineProperty] in H;
          match type of H with
          | bind (match define_own ?p1 ?pr ?dd with _ => _ end) _ = _ =>
              destruct (define_own p1 pr dd) as [ps2|] eqn:Ed; [|discriminate]
          end;
          cbn [bind] in H; injection H as <- <- <- _;
          eapply own_define_other; eauto
         |cbn [set_prop bind] in H; injection H as <- <- <- _;
          apply own_assign_other; assumption].
Qed.

(** ** The value that survives a merge *)

Lemma own_In (ps : props) (k : string) (a : attrs) (v : value) :
  own ps k = Some (a, v) -> In (k, a, v) ps.
Proof.
  induction ps as [|[[k' a'] x'] ps IH]; simpl; [discriminate|].
  destruct (String.eqb_spec k' k) as [->|Hne]; [intros [= <- <-]; auto|auto].
Qed.

Lemma distinct_cons (k : string) (ks : list string) :
  distinct (k :: ks) = true <-> ~ In k ks /\ distinct ks = true.
Proof.
  simpl. rewrite andb_true_iff, negb_true_iff, existsb_eqb_false. tauto.
Qed.

Lemma distinct_enumerable (ps : props) :
  distinct (keys ps) = true -> distinct (keys (enumerable_props ps)) = true.
Proof.
  induction ps as [|[[k a] x] ps IH]; [reflexivity|].
  change (keys ((k, a, x) :: ps)) with (k :: keys ps).
  rewrite distinct_cons. intros [Hk Hd]. unfold enumerable_props. simpl.
  destruct (enumerable a); [|auto].
  change (distinct (k :: keys (enumerable_props ps)) = true).
  rewrite distinct_cons. split; [|auto].
  intros Hin. apply Hk. unfold keys in *. apply in_map_iff in Hin as [e [He Hin]].
  apply filter_In in Hin as [Hin _]. apply in_map_iff. eauto.
Qed.

Lemma scalar_kinds (b : value) :
  scalar b = true ->
  instanceof_DeferredConfig b = false /\ instanceof_Date b = false
  /\ instanceof_RegExp b = false /\ isObject b = false
  /\ truthy b && typeof_object b = false.
Proof. destruct b; try discriminate; simpl; repeat split; auto using andb_false_r. Qed.

(** The turn of the loop for a property that holds a scalar: the
    destination takes the property, attributes and value, of the source. *)
Lemma extend_entry_scalar recurse depth fl fc fps m am b l c ps next l' c' ps' next' :
  extend_entry recurse depth (VObj fl fc fps) m b (VObj l c ps) next
  = Ok (VObj l' c' ps', next') ->
  own fps m = Some (am, b) -> scalar b = true ->
  own ps' m = Some (am, b).
Proof.
  intros H Hown Hb.
  destruct (scalar_kinds b Hb) as [Hd [HD [HR [HO HT]]]].
  unfold extend_entry in H. cbn [get_prop] in H.
  destruct (own ps m) as [[a0 into]|]; cbn [bind] in H.
  all: rewrite Hd in H; cbn [andb bind] in H.
  all: rewrite HD in H; cbn [bind] in H.
  all: rewrite HR in H; cbn [get_prop] in H.
  all: match type of H with
       | bind (match own ?p ?k with _ => _ end) _ = _ =>
           destruct (own p k) as [[a1 into1]|]; cbn [bind] in H
       end.
  all: rewrite HO, ?andb_false_r in H; cbn [andb] in H; rewrite HT in H.
  all: unfold getOwnPropertyDescriptor in H; rewrite Hown in H.
  all: cbn [defineProperty] in H.
  all: match type of H with
       | bind (match define_own ?p ?k ?d with _ => _ end) _ = _ =>
           destruct (define_own p k d) as [ps2|] eqn:Ed; [|discriminate]
       end.
  all: cbn [bind] in H; injection H as <- <- <- _.
  all: eapply own_define_same; exact Ed.
Qed.

(** [cloneDeep] of a node keeps its scalar properties. *)
Lemma copy_props_scalar clone (m : string) (b : value) :
  (forall st, fst (clone b st) = b) ->
  forall todo child_ps st,
    distinct (keys todo) = true ->
    Forall (fun e => snd (fst e) = default_attrs) child_ps ->
    (exists am, own todo m = Some (am, b) /\ enumerable am = true)
    \/ ((exists a, own child_ps m = Some (a, b)) /\ ~ In m (keys todo)) ->
    exists a, own (fst (copy_props clone todo child_ps st)) m = Some (a, b).
Proof.
  intros Hb. induction todo as [|[[i a] v] todo IH]; intros child_ps st Hd Hc Hm.
  - destruct Hm as [[am [Hm _]]|[Hm _]]; [discriminate|exact Hm].
  - change (keys ((i, a, v) :: todo)) with (i :: keys todo) in *.
    apply distinct_cons in Hd as [Hi Hd].
    assert (Hassign : forall x, Forall (fun e => snd (fst e) = default_attrs)
                                       (assign child_ps i x)).
    { intros x. clear -Hc. induction Hc as [|[[k' a'] x'] ps Ha Ht IHc]; simpl.
      - repeat constructor.
      - destruct (String.eqb k' i); [destruct (writable a')|]; constructor; auto. }
    simpl. destruct Hm as [[am Hm]|[Hm Hnot]].
    + simpl in Hm. destruct (String.eqb_spec i m) as [->|Hne].
      * destruct Hm as [[= -> ->] Ham]. rewrite Ham.
        specialize (Hb st). destruct (clone b st) as [b' st']. simpl in Hb. subst b'.
        apply IH; auto. right. split; [|exact Hi].
        clear -Hc. induction Hc as [|[[k' a'] x'] ps Ha _ IHc]; simpl.
        -- rewrite String.eqb_refl. eauto.
        -- simpl in Ha. subst a'. destruct (String.eqb_spec k' m) as [->|Hne]; simpl.
           ++ rewrite String.eqb_refl. eauto.
           ++ destruct (String.eqb_spec k' m); [contradiction|]. exact IHc.
      * destruct (enumerable a).
        -- destruct (clone v st) as [v' st']. apply IH; eauto.
        -- apply IH; eauto.
    + assert (Hne : i <> m) by (intros ->; apply Hnot; left; reflexivity).
      assert (Hnot' : ~ In m (keys todo)) by (intros Hin; apply Hnot; right; exact Hin).
      destruct (enumerable a).
      * destruct (clone v st) as [v' st']. apply IH; auto.
        right. split; [|exact Hnot']. rewrite own_assign_other by exact Hne. exact Hm.
      * apply IH; auto.
Qed.

Lemma _clone_scalar circular b depth st : scalar b = true -> fst (_clone circular b depth st) = b.
Proof. destruct b; try discriminate; reflexivity. Qed.

Lemma cloneDeep_scalar_property kl kc kps m am b depth next :
  distinct (keys kps) = true ->
  own kps m = Some (am, b) -> enumerable am = true -> scalar b = true ->
  exists l' c' ps' a',
    fst (cloneDeep (VObj kl kc kps) depth None next) = VObj l' c' ps'
    /\ own ps' m = Some (a', b).
Proof.
  intros Hd Hown Ham Hb. unfold cloneDeep. cbn [opt_default _clone].
  destruct (opt_default depth 20 =? 0).
  - exists kl, kc, kps, am. split; [reflexivity|exact Hown].
  - cbn [child_of].
    destruct (copy_props_scalar
                (fun v st => _clone true v (opt_default depth 20 - 1) st) m b
                (fun st => _clone_scalar true b _ st Hb)
                kps [] (S next, [] ++ [(kl, VObj next (child_class kc) [])])
                Hd (Forall_nil _) (or_introl (ex_intro _ am (conj Hown Ham))))
      as [a' Ha'].
    destruct (copy_props _ kps [] _) as [child_ps [n s]]. simpl in *.
    exists next, (child_class kc), child_ps, a'. split; [reflexivity|exact Ha'].
Qed.

Lemma writable_configurable_default : writable_configurable default_attrs = true.
Proof. reflexivity. Qed.

Lemma writable_configurable_configurable (a : attrs) :
  writable_configurable a = true -> configurable a = true.
Proof. unfold writable_configurable. rewrite andb_true_iff. tauto. Qed.

(** Merging one source object: if the turn for its property [k] establishes
    [Q], a fact about the destination's own [k], then [Q] holds of the
    destination at the end. *)
Lemma merge_source_at (n : nat) fl fc fps k ak v (Q : props -> Prop) :
  unfrozen (VObj fl fc fps) = true ->
  distinct (keys fps) = true ->
  own fps k = Some (ak, v) -> enumerable ak = true ->
  (forall ps ps', own ps' k = own ps k -> Q ps -> Q ps') ->
  (forall l c ps next ps' next',
      unfrozen (VObj l c ps) = true ->
      extend_entry (fun into from next => extend_calls n into [from] next)
        (Z.of_nat n) (VObj fl fc fps) k v (VObj l c ps) next
      = Ok (VObj l c ps', next') ->
      Q ps') ->
  forall l c ps next,
    unfrozen (VObj l c ps) = true ->
    exists ps' next',
      extend_calls (S n) (VObj l c ps) [VObj fl fc fps] next = Ok (VObj l c ps', next')
      /\ unfrozen (VObj l c ps') = true /\ Q ps'.
Proof.
  intros Hfrom Hdist Hown Hen HQframe HQk l c ps next Hinto.
  cbn [extend_calls fold_left bind for_in].
  set (step := fun (acc : result (value * loc)) (e : string * attrs * value) =>
                 let* '(mergeInto, next) := acc in
                 extend_entry (fun into from next => extend_calls n into [from] next)
                   (Z.of_nat n) (VObj fl fc fps) (fst (fst e)) (snd e) mergeInto next).
  assert (Hstep : forall e l c ps next,
             all_attrs writable_configurable (snd e) = true ->
             unfrozen (VObj l c ps) = true ->
             merges writable_configurable (step (Ok (VObj l c ps, next)) e) l c).
  { intros e l0 c0 ps0 next0 He H0. unfold step. cbn [bind].
    apply extend_entry_all_attrs;
      auto using writable_configurable_default, writable_configurable_configurable.
    intros il ic ips f n0 Hi Hf Hs.
    apply extend_calls_all_attrs;
      auto using writable_configurable_default, writable_configurable_configurable. }
  assert (Hentries : Forall (fun e => all_attrs writable_configurable (snd e) = true)
                            (enumerable_props fps)).
  { apply (for_in_all_attrs writable_configurable (VObj fl fc fps)); auto. }
  assert (Hd : distinct (keys (enumerable_props fps)) = true)
    by (apply distinct_enumerable; exact Hdist).
  assert (Hin : In (k, ak, v) (enumerable_props fps)).
  { apply filter_In. split; [apply own_In; exact Hown|exact Hen]. }
  clear Hdist Hown.
  revert ps next Hinto.
  assert (G : forall entries,
             Forall (fun e => all_attrs writable_configurable (snd e) = true) entries ->
             distinct (keys entries) = true ->
             forall ps next,
               unfrozen (VObj l c ps) = true ->
               In (k, ak, v) entries \/ (Q ps /\ ~ In k (keys entries)) ->
               exists ps' next',
                 fold_left step entries (Ok (VObj l c ps, next)) = Ok (VObj l c ps', next')
                 /\ unfrozen (VObj l c ps') = true /\ Q ps').
  { induction entries as [|[[p a] x] entries IH]; intros HF HD ps next Hinto Hcase.
    - destruct Hcase as [[]|[HQ _]]. exists ps, next. auto.
    - inversion HF as [|? ? Hx HF']; subst.
      change (keys ((p, a, x) :: entries)) with (p :: keys entries) in *.
      apply distinct_cons in HD as [Hp HD].
      destruct (Hstep (p, a, x) l c ps next Hx Hinto) as [ps1 [next1 [E1 H1]]].
      cbn [fold_left]. rewrite E1.
      apply IH; auto.
      destruct Hcase as [[Heq|Hin']|[HQ Hnot]].
      + injection Heq as -> -> ->. right. split; [|exact Hp].
        unfold step in E1. cbn [bind fst snd] in E1.
        exact (HQk l c ps next ps1 next1 Hinto E1).
      + left. exact Hin'.
      + right. split; [|intros Hk; apply Hnot; right; exact Hk].
        unfold step in E1. cbn [bind fst snd] in E1.
        apply (HQframe ps ps1); [|exact HQ].
        eapply extend_entry_frame; [exact E1|].
        intros ->. apply Hnot. left. reflexivity. }
  intros ps next Hinto. apply (G (enumerable_props fps)); auto.
Qed.

(** Merging a node that holds the scalar [b] at [m] into an object leaves
    [b] at [m]. *)
Lemma merge_node_scalar (n : nat) kl kc kps m am b :
  unfrozen (VObj kl kc kps) = true ->
  distinct (keys kps) = true ->
  own kps m = Some (am, b) -> enumerable am = true -> scalar b = true ->
  forall l c ps next,
    unfrozen (VObj l c ps) = true ->
    exists ps' next',
      extend_calls (S n) (VObj l c ps) [VObj kl kc kps] next = Ok (VObj l c ps', next')
      /\ unfrozen (VObj l c ps') = true /\ own ps' m = Some (am, b).
Proof.
  intros Hu Hd Hown Hen Hb.
  apply (merge_source_at n kl kc kps m am b (fun ps => own ps m = Some (am, b)));
    auto.
  - intros ps ps' ->. auto.
  - intros l c ps next ps' next' _ H. eapply extend_entry_scalar; eauto.
Qed.

(** The turn of the loop for a property [k] that holds a node with the
    scalar [b] at [m]: afterwards the destination has [b] at [k.m], whether
    the node was merged into an object already there or cloned. *)
Lemma extend_entry_node (n : nat) depth mergeFrom k kl kps m am b l c ps next ps' next' :
  unfrozen (VObj kl CObject kps) = true ->
  distinct (keys kps) = true ->
  own kps m = Some (am, b) -> enumerable am = true -> scalar b = true ->
  unfrozen (VObj l c ps) = true ->
  extend_entry (fun into from next => extend_calls (S n) into [from] next)
    depth mergeFrom k (VObj kl CObject kps) (VObj l c ps) next
  = Ok (VObj l c ps', next') ->
  at_nested ps' k m b.
Proof.
  intros Hu Hd Hown Hen Hb Hinto H.
  unfold extend_entry in H. cbn [get_prop instanceof_DeferredConfig andb] in H.
  destruct (own ps k) as [[a0 into]|] eqn:E0; cbn [bind] in H.
  all: cbn [instanceof_Date instanceof_RegExp bind get_prop] in H; rewrite E0 in H;
       cbn [bind] in H.
  - destruct (isObject into && isObject (VObj kl CObject kps)
              && negb (instanceof_DeferredConfig into)) eqn:Eb.
    + apply andb_true_iff in Eb as [Eb _]. apply andb_true_iff in Eb as [Ei _].
      destruct into as [| | | | | |il ic ips]; try discriminate.
      assert (Hi : unfrozen (VObj il ic ips) = true)
        by exact (proj2 (all_props_own _ _ _ _ _ Hinto E0)).
      destruct (merge_node_scalar n kl CObject kps m am b Hu Hd Hown Hen Hb
                  il ic ips next Hi) as [ips' [n1 [E1 [_ Hm]]]].
      rewrite E1 in H. cbn [bind] in H. injection H as <- <-.
      exists a0, il, ic, ips', am. split; [|exact Hm].
      eapply own_store_same; eauto.
    + cbn [truthy typeof_object andb] in H.
      destruct (cloneDeep_scalar_property kl CObject kps m am b (Some (depth - 1)) next
                  Hd Hown Hen Hb) as [l' [c' [cps [a' [Ec Hm]]]]].
      destruct (cloneDeep (VObj kl CObject kps) (Some (depth - 1)) None next)
        as [copy nc]. simpl in Ec. subst copy.
      cbn [set_prop bind] in H. injection H as <- <-.
      destruct (own_assign_same ps k (VObj l' c' cps) Hinto) as [a1 Ha1].
      exists a1, l', c', cps, a'. auto.
  - cbn [isObject strict_eq typeof_object andb negb truthy] in H.
    destruct (cloneDeep_scalar_property kl CObject kps m am b (Some (depth - 1)) next
                Hd Hown Hen Hb) as [l' [c' [cps [a' [Ec Hm]]]]].
    destruct (cloneDeep (VObj kl CObject kps) (Some (depth - 1)) None next)
      as [copy nc]. simpl in Ec. subst copy.
    cbn [set_prop bind] in H. injection H as <- <-.
    destruct (own_assign_same ps k (VObj l' c' cps) Hinto) as [a1 Ha1].
    exists a1, l', c', cps, a'. auto.
Qed.

Lemma extend_calls_two (n : nat) (into X Y : value) (next : loc) :
  extend_calls (S n) into [X; Y] next
  = let* '(r, next) := extend_calls (S n) into [X] next in
    extend_calls (S n) r [Y] next.
Proof.
  cbn [extend_calls fold_left bind].
  match goal with |- bind ?r _ = _ => destruct r as [[r1 n1]|] end; reflexivity.
Qed.

Lemma well_formed_own (ps : props) (k : string) (a : attrs) (x : value) :
  forallb (fun e => well_formed (snd e)) ps = true ->
  own ps k = Some (a, x) -> well_formed x = true.
Proof.
  intros H Hown. rewrite forallb_forall in H.
  exact (H _ (own_In _ _ _ _ Hown)).
Qed.

Lemma nested_inv (source : value) (k m : string) (b : value) :
  nested source k m = Some b ->
  exists sl sc sps ak kl kps am,
    source = VObj sl sc sps
    /\ own sps k = Some (ak, VObj kl CObject kps)
    /\ own kps m = Some (am, b)
    /\ enumerable ak = true /\ enumerable am = true.
Proof.
  unfold nested. destruct source as [| | | | | |sl sc sps]; try discriminate.
  destruct (own sps k) as [[ak x]|] eqn:Ek; try discriminate.
  destruct x as [| | | | | |kl kc kps]; try discriminate.
  destruct kc; try discriminate.
  destruct (own kps m) as [[am v]|] eqn:Em; try discriminate.
  destruct (enumerable ak && enumerable am) eqn:Een; try discriminate.
  apply andb_true_iff in Een as [E1 E2]. intros [= <-].
  exists sl, sc, sps, ak, kl, kps, am. auto.
Qed.

(** Two sources applied in order: the second one's scalar at [k.m] is what
    the destination holds. *)
Lemma extendDeep_second_source_wins dl dc dps X Y k m y next :
  unfrozen (VObj dl dc dps) = true ->
  unfrozen X = true -> is_string X = false ->
  unfrozen Y = true -> well_formed Y = true ->
  nested Y k m = Some y -> scalar y = true ->
  exists r n,
    extendDeep (VObj dl dc dps) [X; Y] next = Ok (r, n)
    /\ getImpl_elems r [VStr k; VStr m] = Ok y.
Proof.
  intros Hd HX HXs HY HYw HYn Hy.
  destruct (nested_inv Y k m y HYn)
    as [sl [sc [sps [ak [kl [kps [am [-> [Ek [Em [Eak Eam]]]]]]]]]]].
  assert (Hargs : extend_arguments [X; VObj sl sc sps] = ([X; VObj sl sc sps], 20))
    by reflexivity.
  unfold extendDeep. rewrite Hargs. cbn [Z.ltb Z.compare].
  change (Z.to_nat 20) with (S 19).
  rewrite extend_calls_two.
  destruct (extend_calls_all_attrs writable_configurable
              writable_configurable_default writable_configurable_configurable
              21 dl dc dps [X] next Hd
              (Forall_cons X (conj HX HXs) (Forall_nil _)))
    as [ps1 [n1 [-> H1]]].
  cbn [bind].
  simpl in HYw. apply andb_true_iff in HYw as [HYd HYw].
  pose proof (well_formed_own _ _ _ _ HYw Ek) as Hkw.
  simpl in Hkw. apply andb_true_iff in Hkw as [Hkd _].
  assert (Hku : unfrozen (VObj kl CObject kps) = true)
    by exact (proj2 (all_props_own _ _ _ _ _ HY Ek)).
  destruct (merge_source_at 20 sl sc sps k ak (VObj kl CObject kps)
              (fun ps => at_nested ps k m y) HY HYd Ek Eak) with (l := dl) (c := dc)
      (ps := ps1) (next := n1)
    as [ps2 [n2 [E2 [_ HQ]]]].
  - intros ps ps' E [a [l [c [kps' [am' [H2 H3]]]]]].
    exists a, l, c, kps', am'. rewrite E. auto.
  - intros l c ps nx ps' nx' Hu H.
    exact (extend_entry_node 19 (Z.of_nat 20) (VObj sl sc sps) k kl kps m am y
             l c ps nx ps' nx' Hku Hkd Em Eam Hy Hu H).
  - exact H1.
  - exists (VObj dl dc ps2), n2. split; [exact E2|].
    destruct HQ as [a [l [c [kps' [am' [H2 H3]]]]]].
    cbn [getImpl_elems get_prop to_key]. rewrite H2.
    cbn [bind strict_eq typeof_object negb orb getImpl_elems get_prop to_key].
    rewrite H3. reflexivity.
Qed.




(** ** Identities *)

Lemma locs_of_props_In (ps : props) (l : loc) :
  In l (locs_of_props ps) <-> exists e, In e ps /\ In l (locs (snd e)).
Proof. unfold locs_of_props. rewrite in_flat_map. tauto. Qed.

Lemma locs_assign (ps : props) (k : string) (v : value) (l : loc) :
  In l (locs_of_props (assign ps k v)) -> In l (locs_of_props ps) \/ In l (locs v).
Proof.
  induction ps as [|[[k' a'] x'] ps IH]; simpl.
  - rewrite app_nil_r. auto.
  - destruct (String.eqb k' k); [destruct (writable a')|]; simpl;
      rewrite !in_app_iff; intuition.
Qed.

Lemma locs_store (ps : props) (k : string) (v : value) (l : loc) :
  In l (locs_of_props (store ps k v)) -> In l (locs_of_props ps) \/ In l (locs v).
Proof.
  induction ps as [|[[k' a'] x'] ps IH]; simpl; [auto|].
  destruct (String.eqb k' k); simpl; rewrite !in_app_iff; intuition.
Qed.

Lemma locs_define (ps ps' : props) (k : string) (d : descriptor) (l : loc) :
  define_own ps k d = Some ps' ->
  In l (locs_of_props ps') ->
  In l (locs_of_props ps) \/ In l (locs (opt_default (d_value d) VUndef)).
Proof.
  revert ps'. induction ps as [|[[k' a'] x'] ps IH]; simpl; intros ps' H.
  - injection H as <-. simpl. rewrite app_nil_r. auto.
  - destruct (String.eqb k' k).
    + unfold apply_descriptor in H.
      match type of H with
      | (match (if ?b then _ else _) with _ => _ end) = _ => destruct b; [discriminate|]
      end.
      injection H as <-. simpl. rewrite !in_app_iff.
      destruct (d_value d); simpl; intuition.
    + destruct (define_own ps k d) as [rest'|]; [|discriminate].
      injection H as <-. simpl. rewrite !in_app_iff.
      specialize (IH rest' eq_refl). intuition.
Qed.

Lemma locs_own (ps : props) (k : string) (a : attrs) (x : value) (l : loc) :
  own ps k = Some (a, x) -> In l (locs x) -> In l (locs_of_props ps).
Proof.
  induction ps as [|[[k' a'] x'] ps IH]; simpl; [discriminate|].
  rewrite in_app_iff. destruct (String.eqb k' k); [intros [= <- <-]; auto|auto].
Qed.

Lemma height_In (ps : props) (e : string * attrs * value) :
  In e ps ->
  (height (snd e) <= fold_right (fun e h => Nat.max (height (snd e)) h) O ps)%nat.
Proof.
  induction ps as [|e' ps IH]; simpl; [tauto|].
  intros [->|Hin]; [lia|]. specialize (IH Hin). lia.
Qed.

Lemma own_of_distinct (ps : props) (k : string) (a : attrs) (v : value) :
  distinct (keys ps) = true -> In (k, a, v) ps -> own ps k = Some (a, v).
Proof.
  induction ps as [|[[k' a'] x'] ps IH]; simpl; [tauto|].
  rewrite andb_true_iff, negb_true_iff, existsb_eqb_false.
  intros [Hk Hd] [Heq|Hin].
  - injection Heq as -> -> ->. rewrite String.eqb_refl. reflexivity.
  - destruct (String.eqb_spec k' k) as [->|Hne]; [|auto].
    exfalso. apply Hk. unfold keys. apply in_map_iff. exists (k, a, v). auto.
Qed.

Lemma overwrite_absent (target : loc) (c' : cls) (ps' : props) (v : value) :
  ~ In target (locs v) -> overwrite target c' ps' v = v.
Proof.
  induction v as [| | | | | |l c ps IH] using value_props_ind; try reflexivity.
  intros Hnot. simpl in *.
  destruct (Nat.eqb_spec l target) as [->|Hne]; [tauto|].
  f_equal. rewrite <- (map_id ps) at 2. apply map_ext_in.
  intros e He. rewrite Forall_forall in IH. rewrite (IH e He).
  - destruct e as [[k a] x]. reflexivity.
  - intros Hin. apply Hnot. right. apply in_flat_map. eauto.
Qed.

(** ** [cloneDeep] hands out new identities *)

Section Identities.

Variable ok : loc -> Prop.
Variable next0 : loc.
Hypothesis ok_new : forall l, (next0 <= l)%nat -> ok l.

Lemma children_ok_child_of (seen : visited) (l : loc) (known : value) :
  children_ok ok seen -> child_of seen l = Some known ->
  forall l', In l' (locs known) -> ok l'.
Proof.
  induction seen as [|[l' ch] seen IH]; simpl; [discriminate|].
  intros H. inversion H; subst. destruct (Nat.eqb l' l); [intros [= <-]; assumption|auto].
Qed.

Lemma children_ok_fill (seen : visited) (l : loc) (child : value) :
  children_ok ok seen -> (forall l', In l' (locs child) -> ok l') ->
  children_ok ok (fill_child seen l child).
Proof.
  intros H Hc. induction H as [|[l' ch] seen Hh Ht IH]; simpl; [constructor|].
  destruct (Nat.eqb l' l); constructor; auto.
Qed.

Lemma copy_props_new clone (todo : props) :
  Forall (fun e => clone_is_new ok next0 clone (snd e)) todo ->
  forall child_ps next seen child_ps' next' seen',
    (forall l, In l (locs_of_props child_ps) -> ok l) ->
    (next0 <= next)%nat -> children_ok ok seen ->
    copy_props clone todo child_ps (next, seen) = (child_ps', (next', seen')) ->
    (forall l, In l (locs_of_props child_ps') -> ok l)
    /\ (next <= next')%nat
    /\ children_ok ok seen'.
Proof.
  induction 1 as [|[[i a] v] todo Hv _ IH];
    intros child_ps next seen child_ps' next' seen' Hc Hn Hs E; simpl in E.
  - injection E as <- <- <-. auto.
  - destruct (enumerable a); [|eapply IH; eauto].
    destruct (clone v (next, seen)) as [v' [next1 seen1]] eqn:Ev.
    destruct (Hv next seen v' next1 seen1 Hn Hs Ev) as [H1 [H2 H3]].
    assert (Ha : forall l, In l (locs_of_props (assign child_ps i v')) -> ok l).
    { intros l Hl. apply locs_assign in Hl as [Hl|Hl]; auto. }
    assert (Hn1 : (next0 <= next1)%nat) by exact (Nat.le_trans _ _ _ Hn H2).
    destruct (IH (assign child_ps i v') next1 seen1 _ _ _ Ha Hn1 H3 E) as [G1 [G2 G3]].
    repeat split; auto. exact (Nat.le_trans _ _ _ H2 G2).
Qed.

Lemma _clone_new (circular : bool) (parent : value) :
  forall depth, deep_enough parent depth ->
                clone_is_new ok next0 (fun v st => _clone circular v depth st) parent.
Proof.
  induction parent as [| | | | | |l c ps IH] using value_props_ind;
    intros depth Hdeep next seen child next' seen' Hn Hs E; simpl in E;
    try (injection E as <- <- <-; repeat split; auto; intros ? []).
  destruct (Z.eqb_spec depth 0) as [->|Hd0].
  { exfalso. destruct Hdeep as [Hh|Hh]; simpl in Hh; lia. }
  destruct (if circular then child_of seen l else None) as [known|] eqn:Ek.
  - injection E as <- <- <-. repeat split; auto.
    destruct circular; [|discriminate]. eapply children_ok_child_of; eauto.
  - set (seen0 := if circular then seen ++ [(l, VObj next (child_class c) [])] else seen) in E.
    assert (Hs0 : children_ok ok seen0).
    { subst seen0. destruct circular; [|exact Hs].
      apply Forall_app. split; [exact Hs|]. constructor; [|constructor].
      simpl. intros l' [<-|[]]. auto. }
    assert (HF : Forall (fun e => clone_is_new ok next0
                                    (fun v st => _clone circular v (depth - 1) st) (snd e)) ps).
    { rewrite Forall_forall in *. intros e He. apply IH; [exact He|].
      pose proof (height_In ps e He) as Hh.
      destruct Hdeep as [Hdeep|Hdeep]; [left|right]; simpl in Hdeep; lia. }
    destruct (copy_props _ ps [] (S next, seen0)) as [child_ps [next1 seen1]] eqn:Ec.
    assert (Hnil : forall l', In l' (locs_of_props []) -> ok l') by (intros l' []).
    assert (HSn : (next0 <= S next)%nat) by (apply Nat.le_le_succ_r; exact Hn).
    destruct (copy_props_new _ ps HF [] (S next) seen0 _ _ _ Hnil HSn Hs0 Ec) as [H1 [H2 H3]].
    injection E as <- <- <-.
    repeat split.
    + simpl. intros l' [<-|Hl]; auto.
    + exact (Nat.le_trans _ _ _ (Nat.le_succ_diag_r next) H2).
    + destruct circular; [|exact H3]. apply children_ok_fill; [exact H3|].
      simpl. intros l' [<-|Hl]; auto.
Qed.

Lemma cloneDeep_new (parent : value) (depth : Z) (next : loc) child next' :
  deep_enough parent depth -> (next0 <= next)%nat ->
  cloneDeep parent (Some depth) None next = (child, next') ->
  (forall l, In l (locs child) -> ok l) /\ (next <= next')%nat.
Proof.
  intros Hd Hn E. unfold cloneDeep in E. cbn [opt_default] in E.
  destruct (_clone true parent depth (next, [])) as [ch [n s]] eqn:Ec.
  injection E as <- <-.
  destruct (_clone_new true parent depth Hd next [] ch n s Hn (Forall_nil _) Ec)
    as [H1 [H2 _]].
  auto.
Qed.

(** *** [extendDeep] *)

Lemma plain_data_kinds (from : value) :
  plain_data from = true ->
  instanceof_DeferredConfig from = false /\ instanceof_Date from = false
  /\ instanceof_RegExp from = false.
Proof.
  destruct from as [| | | | | |l c ps]; simpl; auto. destruct c; auto; discriminate.
Qed.

Lemma extend_entry_identities recurse (n : nat) mergeFrom prop from l c ps next r next' :
  (isObject from = true ->
   forall il ic ips nx r' nx',
      identities ok next0 (VObj il ic ips) nx ->
      recurse (VObj il ic ips) from nx = Ok (r', nx') ->
      identities ok next0 r' nx') ->
  plain_data from = true ->
  (S (height from) <= n)%nat ->
  (forall d, getOwnPropertyDescriptor mergeFrom prop = Some d -> d_value d = Some from) ->
  identities ok next0 (VObj l c ps) next ->
  extend_entry recurse (Z.of_nat n) mergeFrom prop from (VObj l c ps) next = Ok (r, next') ->
  exists ps', r = VObj l c ps' /\ identities ok next0 r next'.
Proof.
  intros Hrec Hplain Hh Hdesc [Hok Hn] H.
  destruct (plain_data_kinds from Hplain) as [Hd [HD HR]].
  unfold extend_entry in H. cbn [get_prop] in H.
  assert (Hps : forall l', In l' (locs_of_props ps) -> ok l').
  { intros l' Hl. apply Hok. right. exact Hl. }
  assert (Hl : ok l) by (apply Hok; left; reflexivity).
  assert (Hassign : forall v, (forall l', In l' (locs v) -> ok l') ->
                              forall l', In l' (locs (VObj l c (assign ps prop v))) -> ok l').
  { intros v Hv l' [<-|Hin]; [exact Hl|].
    apply locs_assign in Hin as [Hin|Hin]; auto. }
  set (into := match own ps prop with Some (_, x) => x | None => VUndef end).
  assert (Hinto_ok : forall l', In l' (locs into) -> ok l').
  { subst into. destruct (own ps prop) as [[a0 x]|] eqn:E0; [|intros l' []].
    intros l' Hl'. apply Hps. eapply locs_own; eauto. }
  assert (Eread : match own ps prop with Some (_, x) => Ok x | None => Ok VUndef end
                  = Ok (A:=value) into)
    by (subst into; destruct (own ps prop) as [[? ?]|]; reflexivity).
  rewrite Eread in H. cbn [bind] in H.
  rewrite Hd in H. cbn [andb bind] in H.
  rewrite HD in H. cbn [bind] in H.
  rewrite HR in H. cbn [get_prop] in H. rewrite Eread in H. cbn [bind] in H.
  clear Eread. clearbody into.
  destruct (isObject into && isObject from && negb (instanceof_DeferredConfig into))
    eqn:Eboth.
  { apply andb_true_iff in Eboth as [Eboth _]. apply andb_true_iff in Eboth as [Ei Ef].
    destruct into as [| | | | | |il ic ips]; try discriminate Ei.
    destruct (recurse (VObj il ic ips) from next) as [[r1 n1]|] eqn:Er;
      cbn [bind] in H; [|discriminate H].
    injection H as <- <-.
    assert (Hinto : identities ok next0 (VObj il ic ips) next) by (split; assumption).
    destruct (Hrec Ef il ic ips next r1 n1 Hinto Er) as [Hr1 Hn1].
    eexists. split; [reflexivity|]. split; [|exact Hn1].
    intros l' [<-|Hin]; [exact Hl|].
    apply locs_store in Hin as [Hin|Hin]; auto. }
  destruct (truthy from && typeof_object from) eqn:Eobj.
  { destruct (cloneDeep from (Some (Z.of_nat n - 1)) None next) as [copy nc] eqn:Ec.
    cbn [set_prop bind] in H. injection H as <- <-.
    assert (Hdeep : deep_enough from (Z.of_nat n - 1)) by (left; lia).
    destruct (cloneDeep_new from (Z.of_nat n - 1) next copy nc Hdeep Hn Ec) as [Hc Hnc].
    eexists. split; [reflexivity|]. split.
    - apply Hassign. exact Hc.
    - exact (Nat.le_trans _ _ _ Hn Hnc). }
  assert (Hscalar : locs from = []).
  { destruct from; try reflexivity. discriminate. }
  destruct (getOwnPropertyDescriptor mergeFrom prop) as [d|] eqn:Eg.
  - cbn [defineProperty] in H.
    destruct (define_own ps prop d) as [ps2|] eqn:Ed; cbn [bind] in H; [|discriminate H].
    injection H as <- <-.
    eexists. split; [reflexivity|]. split; [|exact Hn].
    intros l' [<-|Hin]; [exact Hl|].
    apply (locs_define _ _ _ _ _ Ed) in Hin as [Hin|Hin]; [auto|].
    rewrite (Hdesc d eq_refl) in Hin. cbn [opt_default] in Hin.
    rewrite Hscalar in Hin. destruct Hin.
  - cbn [set_prop bind] in H. injection H as <- <-.
    eexists. split; [reflexivity|]. split; [|exact Hn].
    apply Hassign. rewrite Hscalar. intros l' [].
Qed.

Lemma fold_left_throw {A B} (step : result A -> B -> result A) (bs : list B) (e : error) :
  (forall b, step (Throw e) b = Throw e) ->
  fold_left step bs (Throw e) = Throw e.
Proof.
  intros H. induction bs as [|b bs IH]; simpl; [reflexivity|]. rewrite H. exact IH.
Qed.

Lemma mergeable_entries (n : nat) (fl : loc) (fc : cls) (fps : props) :
  mergeable (S n) (VObj fl fc fps) ->
  Forall (fun e =>
            plain_data (snd e) = true /\ well_formed (snd e) = true
            /\ (S (height (snd e)) <= n)%nat
            /\ forall d, getOwnPropertyDescriptor (VObj fl fc fps) (fst (fst e)) = Some d ->
                         d_value d = Some (snd e))
         (enumerable_props fps).
Proof.
  intros [Hp [Hw [_ Hh]]]. simpl in Hp, Hw, Hh.
  assert (Hps : forallb (fun e => plain_data (snd e)) fps = true)
    by (destruct fc; try discriminate; exact Hp).
  apply andb_true_iff in Hw as [Hd Hw].
  rewrite Forall_forall. intros [[k a] v] He. apply filter_In in He as [He _].
  rewrite forallb_forall in Hps, Hw. specialize (Hps _ He). specialize (Hw _ He).
  pose proof (height_In fps _ He) as Hhe. simpl in *.
  repeat split; auto; [lia|].
  intros d. unfold getOwnPropertyDescriptor.
  rewrite (own_of_distinct fps k a v Hd He). intros [= <-]. reflexivity.
Qed.

Lemma extend_calls_identities (n : nat) :
  forall l c ps vargs next r next',
    Forall (mergeable n) vargs ->
    identities ok next0 (VObj l c ps) next ->
    extend_calls n (VObj l c ps) vargs next = Ok (r, next') ->
    exists ps', r = VObj l c ps' /\ identities ok next0 r next'.
Proof.
  induction n as [|n IH]; intros l c ps vargs next r next' Hargs Hinv H.
  - simpl in H. injection H as <- <-. eauto.
  - cbn [extend_calls] in H.
    set (inner := fun mergeFrom (acc : result (value * loc)) (e : string * attrs * value) =>
                    let* '(mergeInto, next) := acc in
                    extend_entry (fun into from next => extend_calls n into [from] next)
                      (Z.of_nat n) mergeFrom (fst (fst e)) (snd e) mergeInto next) in H.
    assert (Hinner : forall mergeFrom entries,
               Forall (fun e =>
                         plain_data (snd e) = true /\ well_formed (snd e) = true
                         /\ (S (height (snd e)) <= n)%nat
                         /\ forall d, getOwnPropertyDescriptor mergeFrom (fst (fst e)) = Some d ->
                                      d_value d = Some (snd e))
                      entries ->
               forall ps next r next',
                 identities ok next0 (VObj l c ps) next ->
                 fold_left (inner mergeFrom) entries (Ok (VObj l c ps, next)) = Ok (r, next') ->
                 exists ps', r = VObj l c ps' /\ identities ok next0 r next').
    { intros mergeFrom entries. induction entries as [|[[k a] v] entries IHe];
        intros HF ps0 nx r0 nx' Hinv0 H0.
      - simpl in H0. injection H0 as <- <-. eauto.
      - inversion HF as [|? ? [Hp [Hw [Hh Hdesc]]] HF']; subst. simpl in Hp, Hw, Hh, Hdesc.
        cbn [fold_left] in H0.
        destruct (inner mergeFrom (Ok (VObj l c ps0, nx)) (k, a, v)) as [[r1 n1]|e] eqn:E1.
        + unfold inner in E1. cbn [bind fst snd] in E1.
          assert (Hrec : isObject v = true ->
                         forall il ic ips nx0 r' nx0',
                           identities ok next0 (VObj il ic ips) nx0 ->
                           extend_calls n (VObj il ic ips) [v] nx0 = Ok (r', nx0') ->
                           identities ok next0 r' nx0').
          { intros Ho il ic ips nx0 r' nx0' Hi Hr.
            assert (Hm : mergeable n v).
            { repeat split; auto; [destruct v; try discriminate; reflexivity|lia]. }
            destruct (IH il ic ips [v] nx0 r' nx0' (Forall_cons v Hm (Forall_nil _)) Hi Hr)
              as [ips' [-> Hinv']].
            exact Hinv'. }
          destruct (extend_entry_identities _ n mergeFrom k v l c ps0 nx r1 n1
                      Hrec Hp Hh Hdesc Hinv0 E1) as [ps1 [-> Hinv1]].
          eapply IHe; eauto.
        + rewrite fold_left_throw in H0; [discriminate|]. intros b. reflexivity. }
    revert ps next Hinv H.
    induction Hargs as [|mergeFrom vargs Hm _ IHv]; intros ps next Hinv H.
    + simpl in H. injection H as <- <-. eauto.
    + cbn [fold_left bind] in H.
      match type of H with
      | fold_left _ _ ?acc = _ => destruct acc as [[r1 n1]|e] eqn:E1
      end.
      * assert (Hen : Forall (fun e =>
                         plain_data (snd e) = true /\ well_formed (snd e) = true
                         /\ (S (height (snd e)) <= n)%nat
                         /\ forall d, getOwnPropertyDescriptor mergeFrom (fst (fst e)) = Some d ->
                                      d_value d = Some (snd e))
                      (for_in mergeFrom)).
        { destruct mergeFrom as [| | | | | |fl fc fps]; try constructor.
          - destruct Hm as [_ [_ [Hs _]]]. discriminate Hs.
          - apply mergeable_entries. exact Hm. }
        destruct (Hinner mergeFrom (for_in mergeFrom) Hen ps next r1 n1 Hinv E1)
          as [ps1 [-> Hinv1]].
        eapply IHv; eauto.
      * rewrite fold_left_throw in H; [discriminate|]. intros b. reflexivity.
Qed.

End Identities.

(** C6, as the code has it.  When every source is plain data (nodes, arrays
    and primitive values: no date, regular expression or function) with
    distinct keys, nested no deeper than the depth bound of 20, and shares no
    object with the destination, the merged destination holds none of the
    objects of the sources: a later write to any object of a source leaves
    the merged destination as it is. *)
Theorem extendDeep_copies_plain_sources :
  forall dl dc dps sources next r next',
    forallb (fun s => is_object s && plain_data s && well_formed s
                      && (height s <=? 20)%nat) sources = true ->
    forallb (fun l => (l <? next)%nat
                      && negb (existsb (Nat.eqb l) (locs (VObj dl dc dps))))
            (flat_map locs sources) = true ->
    extendDeep (VObj dl dc dps) sources next = Ok (r, next') ->
    forall l c' ps', In l (flat_map locs sources) -> overwrite l c' ps' r = r.
Proof.
  intros dl dc dps sources next r next' Hsrc Hlocs H l c' ps' Hl.
  apply overwrite_absent. intros Hin.
  rewrite forallb_forall in Hlocs. specialize (Hlocs l Hl).
  apply andb_true_iff in Hlocs as [Hlt Hnot].
  apply Nat.ltb_lt in Hlt. apply negb_true_iff in Hnot.
  assert (Hsources : Forall (fun s => is_object s = true /\ mergeable 21 s) sources).
  { rewrite Forall_forall. intros s Hs. rewrite forallb_forall in Hsrc.
    specialize (Hsrc s Hs). rewrite !andb_true_iff in Hsrc.
    destruct Hsrc as [[[Ho Hp] Hw] Hh]. apply Nat.leb_le in Hh.
    split; [exact Ho|]. repeat split; auto.
    destruct s; try discriminate; reflexivity. }
  assert (Hvargs : Forall (mergeable 21) (fst (extend_arguments sources))
                   /\ snd (extend_arguments sources) = 20).
  { unfold extend_arguments. destruct (rev sources) as [|last before] eqn:E.
    - split; [|reflexivity]. constructor; [|constructor].
      repeat split; auto. simpl. lia.
    - assert (Hlast : is_object last = true).
      { apply Forall_rev in Hsources. rewrite E in Hsources.
        inversion Hsources; subst. tauto. }
      destruct last; try discriminate. simpl. split; [|reflexivity].
      eapply Forall_impl; [|exact Hsources]. simpl. tauto. }
  destruct Hvargs as [Hv Hd]. unfold extendDeep in H.
  destruct (extend_arguments sources) as [vargs depth]. simpl in Hv, Hd. subst depth.
  cbn [Z.ltb Z.compare] in H. change (S (Z.to_nat 20)) with 21%nat in H.
  destruct (extend_calls_identities
              (fun l => In l (locs (VObj dl dc dps)) \/ (next <= l)%nat) next
              (fun l Hle => or_intror Hle)
              21 dl dc dps vargs next r next' Hv
              (conj (fun l Hin => or_introl Hin) (Nat.le_refl next)) H)
    as [ps1 [-> [Hok _]]].
  destruct (Hok l Hin) as [Hd|Hge].
  - assert (Hex : existsb (Nat.eqb l) (locs (VObj dl dc dps)) = true).
    { apply existsb_exists. exists l. split; [exact Hd|apply Nat.eqb_refl]. }
    rewrite Hex in Hnot. discriminate.
  - lia.
Qed.

Lemma extendDeep_copies_plain_sources_witness :
  overwrite 2 CObject [("hosts", default_attrs, VNull)]
    (VObj 0 CObject
       [("db", default_attrs,
         VObj 10 CObject [("hosts", default_attrs,
                           VObj 11 CArray [("0", default_attrs, VStr "a")])])])
  = VObj 0 CObject
      [("db", default_attrs,
        VObj 10 CObject [("hosts", default_attrs,
                          VObj 11 CArray [("0", default_attrs, VStr "a")])])].
Proof.
  apply (extendDeep_copies_plain_sources 0%nat CObject []
           [VObj 1 CObject
              [("db", default_attrs,
                VObj 2 CObject [("hosts", default_attrs,
                                 VObj 3 CArray [("0", default_attrs, VStr "a")])])]]
           10%nat _ 12%nat).
  - reflexivity.
  - reflexivity.
  - reflexivity.
  - simpl. right. left. reflexivity.
Defined.

(** C6 as stated fails for a date: [extendDeep] stores the source's own
    [Date] object in the destination ([mergeInto[prop] = mergeFrom[prop]]),
    so a later [setTime] on the source's date shows in the merged
    destination. *)
Lemma extendDeep_shares_a_date_with_its_source :
  (let* '(r, _) :=
     extendDeep (VObj 0 CObject [])
       [VObj 1 CObject [("since", default_attrs, VObj 2 (CDate 1) [])]] 10 in
   Ok (r, overwrite 2 (CDate 99) [] r))
  = Ok (VObj 0 CObject [("since", default_attrs, VObj 2 (CDate 1) [])],
        VObj 0 CObject [("since", default_attrs, VObj 2 (CDate 99) [])]).
Proof. reflexivity. Qed.

(** ** JSON-like trees *)

Lemma attrs_eqb_eq (a b : attrs) : attrs_eqb a b = true -> a = b.
Proof.
  destruct a as [w e c], b as [w' e' c']. unfold attrs_eqb. simpl.
  rewrite !andb_true_iff. intros [[H1 H2] H3].
  apply Bool.eqb_prop in H1, H2, H3. subst. reflexivity.
Qed.

Lemma json_like_inv (l : loc) (c : cls) (ps : props) :
  json_like (VObj l c ps) = true ->
  (c = CObject \/ c = CArray)
  /\ distinct (keys ps) = true
  /\ forall k a x, In (k, a, x) ps -> a = default_attrs /\ json_like x = true.
Proof.
  simpl. rewrite !andb_true_iff. intros [[Hc Hd] Hps]. repeat split.
  - destruct c; try discriminate; auto.
  - exact Hd.
  - rewrite forallb_forall in Hps. specialize (Hps _ H). simpl in Hps.
    apply andb_true_iff in Hps as [Ha _]. apply attrs_eqb_eq. exact Ha.
  - rewrite forallb_forall in Hps. specialize (Hps _ H). simpl in Hps.
    apply andb_true_iff in Hps as [_ Hx]. exact Hx.
Qed.

Lemma json_like_enumerable (l : loc) (c : cls) (ps : props) :
  json_like (VObj l c ps) = true -> enumerable_props ps = ps.
Proof.
  intros H. destruct (json_like_inv l c ps H) as [_ [_ Hps]].
  unfold enumerable_props. clear H. induction ps as [|[[k a] x] ps IH]; [reflexivity|].
  simpl. destruct (Hps k a x (or_introl eq_refl)) as [-> _]. simpl.
  f_equal. apply IH. intros k' a' x' Hin. apply (Hps k' a' x'). right. exact Hin.
Qed.

Lemma json_like_unfrozen (v : value) : json_like v = true -> unfrozen v = true.
Proof.
  induction v as [| | | | | |l c ps IH] using value_props_ind; try reflexivity.
  intros H. destruct (json_like_inv l c ps H) as [_ [_ Hps]].
  unfold unfrozen. simpl. rewrite forallb_forall. intros [[k a] x] Hin.
  destruct (Hps k a x Hin) as [-> Hx]. rewrite Forall_forall in IH.
  simpl. exact (IH _ Hin Hx).
Qed.

Lemma json_like_own (l : loc) (c : cls) (ps : props) (k : string) (a : attrs) (x : value) :
  json_like (VObj l c ps) = true -> own ps k = Some (a, x) ->
  a = default_attrs /\ json_like x = true.
Proof.
  intros H Hown. destruct (json_like_inv l c ps H) as [_ [_ Hps]].
  apply (Hps k). apply own_In. exact Hown.
Qed.

Lemma json_like_defined (v : value) : json_like v = true -> v <> VUndef.
Proof. intros H ->. discriminate. Qed.

(** ** Shapes *)

Lemma own_erase (ps : props) (k : string) :
  own (map erase_entry ps) k
  = match own ps k with Some (a, x) => Some (a, erase x) | None => None end.
Proof.
  induction ps as [|[[k' a'] x'] ps IH]; [reflexivity|].
  simpl. destruct (String.eqb k' k); [reflexivity|exact IH].
Qed.

Lemma keys_erase (ps : props) : keys (map erase_entry ps) = keys ps.
Proof. unfold keys. rewrite map_map. reflexivity. Qed.

Lemma same_shape_inv (l1 l2 : loc) (c1 c2 : cls) (ps1 ps2 : props) :
  same_shape (VObj l1 c1 ps1) (VObj l2 c2 ps2) ->
  c1 = c2 /\ map erase_entry ps1 = map erase_entry ps2.
Proof. unfold same_shape. simpl. intros [= -> H]. auto. Qed.

Lemma same_shape_own (ps1 ps2 : props) (k : string) :
  map erase_entry ps1 = map erase_entry ps2 ->
  match own ps1 k, own ps2 k with
  | Some (a1, x1), Some (a2, x2) => a1 = a2 /\ same_shape x1 x2
  | None, None => True
  | _, _ => False
  end.
Proof.
  intros H. pose proof (own_erase ps1 k) as H1. pose proof (own_erase ps2 k) as H2.
  rewrite H in H1. rewrite H1 in H2.
  destruct (own ps1 k) as [[a1 x1]|], (own ps2 k) as [[a2 x2]|]; try discriminate; auto.
  injection H2 as -> E. split; [reflexivity|exact E].
Qed.

Lemma erase_kinds (v : value) :
  isObject (erase v) = isObject v /\ truthy (erase v) = truthy v
  /\ typeof_object (erase v) = typeof_object v /\ isArray (erase v) = isArray v
  /\ instanceof_DeferredConfig (erase v) = instanceof_DeferredConfig v.
Proof. destruct v; simpl; auto. Qed.

Lemma same_shape_kinds (a b : value) :
  same_shape a b ->
  isObject a = isObject b /\ truthy a = truthy b
  /\ instanceof_DeferredConfig a = instanceof_DeferredConfig b.
Proof.
  unfold same_shape. intros H.
  destruct (erase_kinds a) as [A1 [A2 [_ [_ A5]]]].
  destruct (erase_kinds b) as [B1 [B2 [_ [_ B5]]]].
  rewrite <- A1, <- A2, <- A5, H. auto.
Qed.

Lemma same_shape_scalar (a b : value) :
  same_shape a b -> is_object b = false -> a = b.
Proof.
  unfold same_shape. destruct a, b; simpl; try discriminate; auto.
Qed.

Lemma json_like_erase (v : value) : json_like (erase v) = json_like v.
Proof.
  induction v as [| | | | | |l c ps IH] using value_props_ind; try reflexivity.
  cbn [erase json_like]. fold erase_entry. rewrite keys_erase. f_equal.
  induction IH as [|[[k a] x] ps Hx _ IHps]; [reflexivity|].
  simpl in *. rewrite Hx, IHps. reflexivity.
Qed.

Lemma same_shape_json_like (a b : value) :
  same_shape a b -> json_like b = true -> json_like a = true.
Proof.
  unfold same_shape. intros H Hb. rewrite <- json_like_erase, H, json_like_erase. exact Hb.
Qed.

(** ** Deep equality *)

Lemma deep_equal_erase (a : value) :
  forall b, deep_equal (erase a) b = deep_equal a b.
Proof.
  induction a as [| | | | | |l c ps IH] using value_props_ind; try reflexivity.
  intros b. destruct b as [| | | | | |l2 c2 ps2]; try reflexivity.
  cbn [erase deep_equal]. fold erase_entry. rewrite keys_erase. f_equal.
  induction IH as [|[[k a] x] ps Hx _ IHps]; [reflexivity|].
  simpl in *. rewrite IHps. f_equal.
  destruct (own ps2 k) as [[a2 y]|]; [apply Hx|reflexivity].
Qed.

Lemma same_shape_deep_equal (a a' b : value) :
  same_shape a a' -> deep_equal a b = deep_equal a' b.
Proof.
  unfold same_shape. intros H. rewrite <- deep_equal_erase, H, deep_equal_erase. reflexivity.
Qed.

Lemma existsb_eqb_In (k : string) (ks : list string) :
  existsb (String.eqb k) ks = true <-> In k ks.
Proof.
  rewrite existsb_exists. split.
  - intros [k' [Hin E]]. apply String.eqb_eq in E. subst. exact Hin.
  - intros Hin. exists k. split; [exact Hin|apply String.eqb_refl].
Qed.

Lemma deep_equal_refl (v : value) : json_like v = true -> deep_equal v v = true.
Proof.
  induction v as [| | | | | |l c ps IH] using value_props_ind; try reflexivity;
    try discriminate.
  - intros _. simpl. apply Bool.eqb_reflx.
  - intros _. simpl. apply Z.eqb_refl.
  - intros _. simpl. apply String.eqb_refl.
  - intros H. destruct (json_like_inv l c ps H) as [_ [Hd Hps]].
    cbn [deep_equal]. apply andb_true_iff. split.
    + rewrite forallb_forall. intros [[k a] x] Hin. simpl.
      rewrite (own_of_distinct ps k a x Hd Hin).
      rewrite Forall_forall in IH. apply (IH _ Hin). apply (Hps k a x Hin).
    + rewrite forallb_forall. intros k Hk. apply existsb_eqb_In. exact Hk.
Qed.

(** How to show two objects deep-equal, key by key. *)
Lemma deep_equal_objects (l1 l2 : loc) (c1 c2 : cls) (ps1 ps2 : props) :
  distinct (keys ps1) = true ->
  (forall k, In k (keys ps1) -> In k (keys ps2)) ->
  (forall k, In k (keys ps2) ->
             exists a x a' y, own ps1 k = Some (a, x) /\ own ps2 k = Some (a', y)
                              /\ deep_equal x y = true) ->
  deep_equal (VObj l1 c1 ps1) (VObj l2 c2 ps2) = true.
Proof.
  intros Hd Hsub Hall. cbn [deep_equal]. apply andb_true_iff. split.
  - rewrite forallb_forall. intros [[k a] x] Hin. simpl.
    assert (Hk : In k (keys ps1)).
    { unfold keys. apply in_map_iff. exists (k, a, x). auto. }
    destruct (Hall k (Hsub k Hk)) as [a0 [x0 [a' [y [H1 [H2 H3]]]]]].
    rewrite (own_of_distinct ps1 k a x Hd Hin) in H1. injection H1 as <- <-.
    rewrite H2. exact H3.
  - rewrite forallb_forall. intros k Hk. apply existsb_eqb_In.
    destruct (Hall k Hk) as [a0 [x0 [_ [_ [H1 _]]]]].
    apply own_In in H1. unfold keys. apply in_map_iff. exists (k, a0, x0). auto.
Qed.

(** ** [equalsDeep] is sound on JSON-like trees *)

Lemma distinct_NoDup (ks : list string) : distinct ks = true -> NoDup ks.
Proof.
  induction ks as [|k ks IH]; [constructor|].
  rewrite distinct_cons. intros [Hk Hd]. constructor; auto.
Qed.

Lemma apart_own (l1 l2 : loc) (c1 c2 : cls) (ps1 ps2 : props) k a1 x1 a2 x2 :
  apart (VObj l1 c1 ps1) (VObj l2 c2 ps2) ->
  own ps1 k = Some (a1, x1) -> own ps2 k = Some (a2, x2) -> apart x1 x2.
Proof.
  intros H H1 H2 l Hl Hl'. apply (H l).
  - right. eapply locs_own; eauto.
  - right. eapply locs_own; eauto.
Qed.

Lemma compare_props_true equals (ps2 todo : props) :
  result_truthy (compare_props equals ps2 todo) = true ->
  forall k a x, In (k, a, x) todo -> enumerable a = true ->
    if truthy x && typeof_object x
    then result_truthy (equals x (read ps2 k)) = true
    else strict_eq x (read ps2 k) = true.
Proof.
  induction todo as [|[[k' a'] x'] todo IH]; simpl; [intros _ k a x []|].
  intros H k a x [Heq|Hin] Hen.
  - injection Heq as -> -> ->. rewrite Hen in H.
    destruct (truthy x && typeof_object x).
    + destruct (result_truthy (equals x (read ps2 k))); [reflexivity|discriminate].
    + destruct (strict_eq x (read ps2 k)); [reflexivity|discriminate].
  - refine (IH _ k a x Hin Hen). destruct (enumerable a'); [|exact H].
    destruct (truthy x' && typeof_object x').
    + destruct (result_truthy (equals x' (read ps2 k'))); [exact H|discriminate].
    + destruct (strict_eq x' (read ps2 k')); [exact H|discriminate].
Qed.

Lemma strict_eq_scalar_deep_equal (x y : value) :
  is_object x = false -> strict_eq x y = true -> deep_equal x y = true.
Proof. destruct x, y; simpl; try discriminate; auto. Qed.

Lemma equalsDeep_sound (v1 : value) :
  forall v2 depth,
    unbounded depth ->
    json_like v1 = true -> json_like v2 = true -> apart v1 v2 ->
    result_truthy (equalsDeep v1 v2 depth) = true ->
    deep_equal v1 v2 = true.
Proof.
  induction v1 as [| |b|n|s|f|l1 c1 ps1 IH] using value_props_ind;
    intros v2 depth Hdepth H1 H2 Hap H; try discriminate H1.
  1-4: assert (Hneg : depth_negative (depth_or_default depth) = false)
         by (destruct Hdepth as [-> | ->]; reflexivity);
       cbn [equalsDeep typeof_object negb orb] in H; rewrite Hneg in H;
       apply strict_eq_scalar_deep_equal; [reflexivity|];
       match type of H with
       | context [strict_eq ?a ?b] => destruct (strict_eq a b); [reflexivity|]
       end;
       repeat match type of H with
              | context [if ?c then _ else _] => destruct c
              end; discriminate H.
  - assert (Hd : depth_negative (depth_or_default depth) = false
                 /\ unbounded (depth_minus_1 (depth_or_default depth))).
    { destruct Hdepth as [-> | ->]; split; try reflexivity; right; reflexivity. }
    destruct Hd as [Hneg Hnext].
    cbn [equalsDeep] in H. rewrite Hneg in H. cbn [truthy negb orb] in H.
    destruct v2 as [| |b2|n2|s2|f2|l2 c2 ps2]; try discriminate H2;
      try (simpl in H; discriminate H).
    + simpl in H. destruct b2; discriminate H.
    + simpl in H. destruct (n2 =? 0); discriminate H.
    + simpl in H. destruct (s2 =? "")%string; discriminate H.
    + assert (Hl : Nat.eqb l1 l2 = false).
      { apply Nat.eqb_neq. intros ->. apply (Hap l2); left; reflexivity. }
      cbn [truthy negb orb strict_eq typeof_object] in H. rewrite Hl in H.
      destruct (negb (Nat.eqb (List.length (Object_keys ps1)) (List.length (Object_keys ps2))))
        eqn:Elen; [discriminate H|].
      apply negb_false_iff, Nat.eqb_eq in Elen.
      unfold Object_keys in Elen.
      rewrite (json_like_enumerable _ _ _ H1), (json_like_enumerable _ _ _ H2) in Elen.
      destruct (json_like_inv _ _ _ H1) as [_ [Hd1 Hps1]].
      destruct (json_like_inv _ _ _ H2) as [_ [Hd2 Hps2]].
      pose proof (compare_props_true _ ps2 ps1 H) as Hcmp.
      assert (Hentry : forall k a x, In (k, a, x) ps1 ->
                 exists a' y, own ps2 k = Some (a', y) /\ deep_equal x y = true).
      { intros k a x Hin. destruct (Hps1 k a x Hin) as [-> Hx].
        specialize (Hcmp k default_attrs x Hin eq_refl).
        unfold read in Hcmp.
        destruct (truthy x && typeof_object x) eqn:Eo.
        - destruct (own ps2 k) as [[a' y]|] eqn:Ey.
          + exists a', y. split; [reflexivity|].
            rewrite Forall_forall in IH.
            apply (IH _ Hin y _ Hnext Hx).
            * exact (proj2 (Hps2 k a' y (own_In _ _ _ _ Ey))).
            * eapply apart_own; eauto. apply own_of_distinct; eauto.
            * exact Hcmp.
          + exfalso. destruct x; simpl in Eo; rewrite ?andb_false_r in Eo;
              try discriminate Eo.
            destruct Hnext as [E|E]; rewrite E in Hcmp; simpl in Hcmp; discriminate Hcmp.
        - destruct (own ps2 k) as [[a' y]|] eqn:Ey.
          + exists a', y. split; [reflexivity|].
            apply strict_eq_scalar_deep_equal; [|exact Hcmp].
            destruct x; try reflexivity. discriminate Eo.
          + exfalso. destruct x; try discriminate Hcmp. discriminate Hx. }
      apply deep_equal_objects; auto.
      * intros k Hk. unfold keys in Hk. apply in_map_iff in Hk as [[[k' a] x] [<- Hin]].
        destruct (Hentry k' a x Hin) as [a' [y [Hy _]]]. simpl.
        apply own_In in Hy. unfold keys. apply in_map_iff. exists (k', a', y). auto.
      * intros k Hk.
        assert (Hk1 : In k (keys ps1)).
        { refine (NoDup_length_incl (distinct_NoDup _ Hd1) _ _ k Hk).
          - unfold keys in *. rewrite !length_map in *. rewrite Elen. apply Nat.le_refl.
          - intros k' Hk'. unfold keys in Hk'.
            apply in_map_iff in Hk' as [[[k'' a] x] [<- Hin]].
            destruct (Hentry k'' a x Hin) as [a' [y [Hy _]]]. simpl.
            apply own_In in Hy. unfold keys. apply in_map_iff. exists (k'', a', y). auto. }
        unfold keys in Hk1. apply in_map_iff in Hk1 as [[[k' a] x] [<- Hin]]. simpl.
        destruct (Hentry k' a x Hin) as [a' [y [Hy Hxy]]].
        exists a, x, a', y. repeat split; auto. apply own_of_distinct; auto.
Qed.

(** ** [cloneDeep] keeps the shape of a JSON-like tree *)

Lemma NoDup_app_apart {A} (l1 l2 : list A) :
  NoDup (l1 ++ l2) -> forall a, In a l1 -> ~ In a l2.
Proof.
  induction l1 as [|x l1 IH]; simpl; [intros _ a []|].
  intros H a [<-|Hin] Hin2.
  - apply NoDup_cons_iff in H as [Hx _]. apply Hx. apply in_or_app. right. exact Hin2.
  - apply NoDup_cons_iff in H as [_ H]. exact (IH H a Hin Hin2).
Qed.

Lemma child_of_app (seen : visited) (l : loc) (c : value) (l' : loc) :
  child_of (seen ++ [(l, c)]) l'
  = match child_of seen l' with
    | Some x => Some x
    | None => if Nat.eqb l l' then Some c else None
    end.
Proof.
  induction seen as [|[l0 c0] seen IH]; simpl; [reflexivity|].
  destruct (Nat.eqb l0 l'); [reflexivity|exact IH].
Qed.

Lemma child_of_fill (seen : visited) (l : loc) (c : value) (l' : loc) :
  child_of seen l' = None -> child_of (fill_child seen l c) l' = None.
Proof.
  induction seen as [|[l0 c0] seen IH]; simpl; [reflexivity|].
  destruct (Nat.eqb l0 l') eqn:E0; [discriminate|]. intros H.
  destruct (Nat.eqb l0 l); simpl; rewrite E0; auto.
Qed.

Lemma assign_absent (ps : props) (k : string) (v : value) :
  ~ In k (keys ps) -> assign ps k v = ps ++ [(k, default_attrs, v)].
Proof.
  induction ps as [|[[k' a] x] ps IH]; simpl; [reflexivity|].
  intros H. destruct (String.eqb k' k) eqn:E.
  - apply String.eqb_eq in E. exfalso. apply H. left. exact E.
  - f_equal. apply IH. intros Hin. apply H. right. exact Hin.
Qed.

Lemma copy_props_shape clone (todo : props) :
  Forall (fun e => forall n seen child n' seen',
             json_like (snd e) = true -> NoDup (locs (snd e)) ->
             (forall l, In l (locs (snd e)) -> child_of seen l = None) ->
             clone (snd e) (n, seen) = (child, (n', seen')) ->
             erase child = erase (snd e)
             /\ (forall l, ~ In l (locs (snd e)) -> child_of seen l = None ->
                           child_of seen' l = None)) todo ->
  (forall k a x, In (k, a, x) todo -> a = default_attrs /\ json_like x = true) ->
  distinct (keys todo) = true -> NoDup (locs_of_props todo) ->
  forall acc n seen child_ps n' seen',
    (forall k, In k (keys todo) -> ~ In k (keys acc)) ->
    (forall l, In l (locs_of_props todo) -> child_of seen l = None) ->
    copy_props clone todo acc (n, seen) = (child_ps, (n', seen')) ->
    map erase_entry child_ps = map erase_entry acc ++ map erase_entry todo
    /\ (forall l, ~ In l (locs_of_props todo) -> child_of seen l = None ->
                  child_of seen' l = None).
Proof.
  induction 1 as [|[[k a] x] todo Hx _ IH]; intros Hps Hd Hnd acc n seen child_ps n' seen'
    Hacc Hseen Hcopy.
  - simpl in Hcopy. injection Hcopy as <- <- <-. rewrite app_nil_r. auto.
  - destruct (Hps k a x (or_introl eq_refl)) as [-> Hjx].
    change (keys ((k, default_attrs, x) :: todo)) with (k :: keys todo) in *.
    apply distinct_cons in Hd as [Hk Hd].
    change (locs_of_props ((k, default_attrs, x) :: todo))
      with (locs x ++ locs_of_props todo) in *.
    cbn [copy_props enumerable default_attrs] in Hcopy.
    destruct (clone x (n, seen)) as [x' [n1 seen1]] eqn:Ex.
    cbn [snd] in Hx.
    destruct (Hx n seen x' n1 seen1 Hjx (NoDup_app_remove_r _ _ Hnd)
                (fun l Hl => Hseen l (in_or_app _ _ _ (or_introl Hl))) Ex) as [Hshape Hframe].
    rewrite assign_absent in Hcopy by (apply Hacc; left; reflexivity).
    destruct (IH (fun k' a' x' Hin => Hps k' a' x' (or_intror Hin)) Hd
                 (NoDup_app_remove_l _ _ Hnd) (acc ++ [(k, default_attrs, x')])
                 n1 seen1 child_ps n' seen') as [Hmap Hfr].
    + intros k' Hk' Hin. unfold keys in Hin. rewrite map_app in Hin.
      apply in_app_or in Hin as [Hin|[Hin|[]]].
      * apply (Hacc k'); [right; exact Hk'|exact Hin].
      * simpl in Hin. subst k'. exact (Hk Hk').
    + intros l Hl. apply Hframe.
      * intros Hlx. exact (NoDup_app_apart _ _ Hnd l Hlx Hl).
      * apply Hseen. apply in_or_app. right. exact Hl.
    + exact Hcopy.
    + split.
      * rewrite Hmap, map_app, <- app_assoc. simpl. unfold erase_entry at 2 4. simpl.
        rewrite Hshape. reflexivity.
      * intros l Hl Hs. apply Hfr.
        -- intros Hin. apply Hl. apply in_or_app. right. exact Hin.
        -- apply Hframe; [|exact Hs]. intros Hin. apply Hl. apply in_or_app. left. exact Hin.
Qed.

Lemma json_like_class (l : loc) (c : cls) (ps : props) :
  json_like (VObj l c ps) = true -> child_class c = c.
Proof. intros H. destruct (json_like_inv l c ps H) as [[-> | ->] _]; reflexivity. Qed.

Lemma _clone_shape (v : value) :
  forall d n seen child n' seen',
    json_like v = true -> NoDup (locs v) ->
    (forall l, In l (locs v) -> child_of seen l = None) ->
    _clone true v d (n, seen) = (child, (n', seen')) ->
    erase child = erase v
    /\ (forall l, ~ In l (locs v) -> child_of seen l = None -> child_of seen' l = None).
Proof.
  induction v as [| |b|m|s|f|l c ps IH] using value_props_ind;
    intros d n seen child n' seen' Hj Hnd Hseen Hc;
    try (simpl in Hc; injection Hc as <- <- <-; auto; fail).
  cbn [_clone] in Hc. destruct (d =? 0).
  { injection Hc as <- <- <-. auto. }
  rewrite (Hseen l (or_introl eq_refl)) in Hc.
  destruct (copy_props (fun v st => _clone true v (d - 1) st) ps []
              (S n, seen ++ [(l, VObj n (child_class c) [])]))
    as [child_ps [n2 seen2]] eqn:Ecopy.
  injection Hc as <- <- <-.
  destruct (json_like_inv l c ps Hj) as [_ [Hd Hps]].
  change (locs (VObj l c ps)) with (l :: locs_of_props ps) in *.
  apply NoDup_cons_iff in Hnd as [Hl Hnd].
  destruct (copy_props_shape (fun v st => _clone true v (d - 1) st) ps
              (Forall_impl _ (fun e He => He (d - 1)) IH)
              Hps Hd Hnd [] (S n) (seen ++ [(l, VObj n (child_class c) [])])
              child_ps n2 seen2) as [Hmap Hfr].
  - intros k _ [].
  - intros l' Hl'. rewrite child_of_app, (Hseen l' (or_intror Hl')).
    destruct (Nat.eqb l l') eqn:E; [|reflexivity].
    apply Nat.eqb_eq in E. subst l'. contradiction.
  - exact Ecopy.
  - split.
    + cbn [erase]. fold erase_entry. rewrite Hmap, (json_like_class l c ps Hj). reflexivity.
    + intros l' Hl' Hs. apply child_of_fill. apply Hfr.
      * intros Hin. apply Hl'. right. exact Hin.
      * rewrite child_of_app, Hs. destruct (Nat.eqb l l') eqn:E; [|reflexivity].
        apply Nat.eqb_eq in E. subst l'. exfalso. apply Hl'. left. reflexivity.
Qed.

Lemma cloneDeep_shape (v : value) (depth : option Z) (next : loc) (copy : value) (next' : loc) :
  json_like v = true -> NoDup (locs v) ->
  cloneDeep v depth None next = (copy, next') -> same_shape copy v.
Proof.
  intros Hj Hnd. unfold cloneDeep. cbn [opt_default].
  destruct (_clone true v (opt_default depth 20) (next, [])) as [child [n seen]] eqn:E.
  intros [= <- <-].
  exact (proj1 (_clone_shape v _ next [] child n seen Hj Hnd (fun _ _ => eq_refl) E)).
Qed.

(** ** The keys of a destination *)

Lemma distinct_snoc (ks : list string) (k : string) :
  distinct ks = true -> ~ In k ks -> distinct (ks ++ [k]) = true.
Proof.
  induction ks as [|k' ks IH]; intros Hd Hk; [reflexivity|].
  apply distinct_cons in Hd as [Hk' Hd]. change ((k' :: ks) ++ [k]) with (k' :: (ks ++ [k])).
  apply distinct_cons. split.
  - intros Hin. apply in_app_or in Hin as [Hin|[<-|[]]]; [exact (Hk' Hin)|].
    apply Hk. left. reflexivity.
  - apply IH; [exact Hd|]. intros Hin. apply Hk. right. exact Hin.
Qed.

Lemma keys_store (ps : props) (k : string) (v : value) : keys (store ps k v) = keys ps.
Proof.
  induction ps as [|[[k' a] x] ps IH]; [reflexivity|]. simpl.
  destruct (String.eqb k' k); simpl; [reflexivity|]. f_equal. exact IH.
Qed.

Lemma keys_assign (ps : props) (k : string) (v : value) :
  keys (assign ps k v) = keys ps \/ (~ In k (keys ps) /\ keys (assign ps k v) = keys ps ++ [k]).
Proof.
  induction ps as [|[[k' a] x] ps IH]; simpl.
  - right. split; [intros []|reflexivity].
  - destruct (String.eqb_spec k' k) as [->|Hne].
    + left. destruct (writable a); reflexivity.
    + simpl. destruct IH as [IH|[Hk IH]]; [left|right].
      * f_equal. exact IH.
      * split; [intros [E|Hin]; [exact (Hne E)|exact (Hk Hin)]|]. f_equal. exact IH.
Qed.

Lemma keys_define (ps ps' : props) (k : string) (d : descriptor) :
  define_own ps k d = Some ps' ->
  keys ps' = keys ps \/ (~ In k (keys ps) /\ keys ps' = keys ps ++ [k]).
Proof.
  revert ps'. induction ps as [|[[k' a] x] ps IH]; simpl; intros ps' H.
  - injection H as <-. right. split; [intros []|reflexivity].
  - destruct (String.eqb_spec k' k) as [->|Hne].
    + destruct (apply_descriptor a x d) as [[a' x']|]; [|discriminate].
      injection H as <-. left. reflexivity.
    + destruct (define_own ps k d) as [rest|]; [|discriminate].
      injection H as <-. simpl.
      destruct (IH rest eq_refl) as [E|[Hk E]]; [left|right].
      * f_equal. exact E.
      * split; [intros [E'|Hin]; [exact (Hne E')|exact (Hk Hin)]|]. f_equal. exact E.
Qed.

Lemma grows_by_keys (k : string) (ps ps' : props) :
  keys ps' = keys ps \/ (~ In k (keys ps) /\ keys ps' = keys ps ++ [k]) ->
  grows_by k ps ps'.
Proof.
  unfold grows_by. intros [E|[Hk E]]; rewrite E; split; auto.
  - intros Hd. apply distinct_snoc; assumption.
  - intros k' Hin. apply in_app_or in Hin as [Hin|[<-|[]]]; auto.
Qed.

Lemma own_None_keys (ps : props) (k : string) : own ps k = None <-> ~ In k (keys ps).
Proof.
  induction ps as [|[[k' a] x] ps IH]; simpl; [tauto|].
  destruct (String.eqb_spec k' k) as [->|Hne].
  - split; [discriminate|]. intros H. exfalso. apply H. left. reflexivity.
  - rewrite IH. split; [intros H [E|Hin]; [exact (Hne E)|exact (H Hin)]|].
    intros H Hin. apply H. right. exact Hin.
Qed.

Lemma get_prop_read (l : loc) (c : cls) (ps : props) (k : string) :
  get_prop (VObj l c ps) k = Ok (read ps k).
Proof. unfold read. simpl. destruct (own ps k) as [[a x]|]; reflexivity. Qed.

(** ** The three turns of the loop of [extendDeep] on JSON-like values *)

Lemma json_like_kinds (v : value) :
  json_like v = true ->
  instanceof_DeferredConfig v = false /\ instanceof_Date v = false
  /\ instanceof_RegExp v = false.
Proof.
  destruct v as [| | | | | |l c ps]; try (intros _; repeat split; reflexivity).
  intros H. destruct (json_like_inv l c ps H) as [[-> | ->] _]; repeat split; reflexivity.
Qed.

Lemma extend_entry_merge recurse depth mergeFrom k from l c ps next :
  json_like from = true ->
  isObject (read ps k) = true -> isObject from = true ->
  instanceof_DeferredConfig (read ps k) = false ->
  extend_entry recurse depth mergeFrom k from (VObj l c ps) next
  = let* '(into, next) := recurse (read ps k) from next in
    Ok (VObj l c (store ps k into), next).
Proof.
  intros Hj Hi Hf Hd. destruct (json_like_kinds from Hj) as [K1 [K2 K3]].
  unfold extend_entry. rewrite get_prop_read. cbn [bind].
  rewrite K1. cbn [andb bind]. rewrite K2. cbn [bind]. rewrite K3.
  rewrite get_prop_read. cbn [bind]. rewrite Hi, Hf, Hd. reflexivity.
Qed.

Lemma extend_entry_clone recurse depth mergeFrom k from l c ps next :
  json_like from = true ->
  is_object from = true ->
  isObject (read ps k) && isObject from = false ->
  extend_entry recurse depth mergeFrom k from (VObj l c ps) next
  = let '(copy, next) := cloneDeep from (Some (depth - 1)) None next in
    Ok (VObj l c (assign ps k copy), next).
Proof.
  intros Hj Hf Hi. destruct (json_like_kinds from Hj) as [K1 [K2 K3]].
  unfold extend_entry. rewrite get_prop_read. cbn [bind].
  rewrite K1. cbn [andb bind]. rewrite K2. cbn [bind]. rewrite K3.
  rewrite get_prop_read. cbn [bind]. rewrite Hi. cbn [andb].
  destruct from; try discriminate Hf. cbn [truthy typeof_object andb].
  destruct (cloneDeep _ _ _ _) as [copy n]. reflexivity.
Qed.

Lemma extend_entry_define recurse depth fl fc fps k a from l c ps next :
  json_like from = true ->
  is_object from = false ->
  own fps k = Some (a, from) ->
  extend_entry recurse depth (VObj fl fc fps) k from (VObj l c ps) next
  = match define_own ps k (mkDesc (Some from) (Some (writable a)) (Some (enumerable a))
                                  (Some (configurable a))) with
    | Some ps' => Ok (VObj l c ps', next)
    | None => Throw (TypeError "Cannot redefine property")
    end.
Proof.
  intros Hj Hf Hown. destruct (json_like_kinds from Hj) as [K1 [K2 K3]].
  assert (Hs : scalar from = true) by (destruct from; try reflexivity; discriminate).
  destruct (scalar_kinds from Hs) as [_ [_ [_ [HO HT]]]].
  unfold extend_entry. rewrite get_prop_read. cbn [bind].
  rewrite K1. cbn [andb bind]. rewrite K2. cbn [bind]. rewrite K3.
  rewrite get_prop_read. cbn [bind]. rewrite HO, andb_false_r. cbn [andb]. rewrite HT.
  unfold getOwnPropertyDescriptor. rewrite Hown. cbn [defineProperty].
  destruct (define_own _ _ _); reflexivity.
Qed.

(** ** Merging a diff into a copy of its base *)

Lemma read_object_own (ps : props) (k : string) :
  is_object (read ps k) = true -> exists a, own ps k = Some (a, read ps k).
Proof.
  unfold read. destruct (own ps k) as [[a x]|]; [eauto|discriminate].
Qed.

Lemma isObject_is_object (v : value) : isObject v = true -> is_object v = true.
Proof. destruct v; try discriminate; reflexivity. Qed.

Lemma isObject_height (v : value) : isObject v = true -> (1 <= height v)%nat.
Proof. destruct v; try discriminate. intros _. simpl. apply le_n_S, Nat.le_0_l. Qed.

Lemma extend_entry_recorded (n : nat) ps1 dl dps k a y x2 il ic ips nx :
  json_like x2 = true -> NoDup (locs x2) -> (height x2 <= n)%nat ->
  own dps k = Some (a, y) ->
  recorded ps1 k x2 (Some (a, y)) ->
  (isObject (read ps1 k) = true -> instanceof_DeferredConfig (read ps1 k) = false) ->
  unfrozen (VObj il ic ips) = true ->
  same_shape (read ips k) (read ps1 k) ->
  exists ips' nx',
    extend_entry (fun into from next => extend_calls n into [from] next) (Z.of_nat n)
      (VObj dl CObject dps) k y (VObj il ic ips) nx
    = Ok (VObj il ic ips', nx')
    /\ unfrozen (VObj il ic ips') = true
    /\ grows_by k ips ips'
    /\ (forall k', k <> k' -> own ips' k' = own ips k')
    /\ exists a' x, own ips' k = Some (a', x) /\ deep_equal x x2 = true.
Proof.
  intros Hj2 Hnd Hh Hown [-> Hrec] Hdef Hu Hshape.
  destruct (same_shape_kinds _ _ Hshape) as [KO [KT KD]].
  assert (Hups : all_props writable_configurable ips = true) by exact Hu.
  destruct Hrec as [[Ho1 [Ho2 [Hjy [Hoy Hr]]]]|[-> Halias]].
  - (* the two nodes are merged *)
    rewrite extend_entry_merge; try assumption;
      [|rewrite KO; exact Ho1|rewrite KD; exact (Hdef Ho1)].
    pose proof (isObject_height x2 Ho2) as H1.
    destruct n as [|n']; [exfalso; exact (Nat.nle_succ_0 _ (Nat.le_trans _ _ _ H1 Hh))|].
    destruct (Hr n' (read ips k) nx Hh Hshape) as [r [nx' [Er Heq]]].
    assert (Hinto : is_object (read ips k) = true)
      by (apply isObject_is_object; rewrite KO; exact Ho1).
    destruct (read_object_own ips k Hinto) as [a0 Ha0].
    destruct (read ips k) as [| | | | | |l0 c0 ps0] eqn:Eread; try discriminate Hinto.
    destruct (extend_calls_all_attrs writable_configurable writable_configurable_default
                writable_configurable_configurable (S n') l0 c0 ps0 [y] nx)
      as [ps0' [nx0 [E0 Hu0]]].
    { exact (proj2 (all_props_own _ _ _ _ _ Hups Ha0)). }
    { constructor; [|constructor]. split; [apply json_like_unfrozen; exact Hjy|].
      destruct y; try discriminate Hoy; reflexivity. }
    rewrite Er in E0. injection E0 as -> ->.
    rewrite Er. cbn [bind]. exists (store ips k (VObj l0 c0 ps0')), nx0.
    split; [reflexivity|]. split; [|split; [|split]].
    + apply (all_props_store writable_configurable); assumption.
    + apply grows_by_keys. left. apply keys_store.
    + intros k' Hne. apply own_store_other. exact Hne.
    + exists a0, (VObj l0 c0 ps0'). split; [|exact Heq].
      eapply own_store_same. exact Ha0.
  - destruct (is_object x2) eqn:Eo.
    + (* the value is copied *)
      rewrite extend_entry_clone; try assumption.
      2:{ destruct (isObject x2) eqn:E2; [|apply andb_false_r].
          rewrite KO, (Halias eq_refl). reflexivity. }
      destruct (cloneDeep x2 (Some (Z.of_nat n - 1)) None nx) as [copy nx'] eqn:Ec.
      pose proof (cloneDeep_shape _ _ _ _ _ Hj2 Hnd Ec) as Hc.
      assert (Huc : unfrozen copy = true).
      { apply json_like_unfrozen. exact (same_shape_json_like _ _ Hc Hj2). }
      exists (assign ips k copy), nx'. split; [reflexivity|]. split; [|split; [|split]].
      * apply (all_props_assign writable_configurable writable_configurable_default);
          [exact Hups|exact Huc].
      * apply grows_by_keys. apply keys_assign.
      * intros k' Hne. apply own_assign_other. exact Hne.
      * destruct (own_assign_same ips k copy Hups) as [a' Ha'].
        exists a', copy. split; [exact Ha'|].
        rewrite (same_shape_deep_equal _ _ x2 Hc). apply deep_equal_refl. exact Hj2.
    + (* the value is defined as the diff has it *)
      rewrite (extend_entry_define _ _ dl CObject dps k default_attrs x2); try assumption.
      destruct (all_props_define writable_configurable
                  writable_configurable_configurable ips k default_attrs x2 Hups eq_refl)
        as [ips' [Ed Hu']].
      { apply json_like_unfrozen. exact Hj2. }
      rewrite Ed. exists ips', nx. split; [reflexivity|]. split; [|split; [|split]].
      * exact Hu'.
      * apply grows_by_keys. eapply keys_define. exact Ed.
      * intros k' Hne. eapply own_define_other; eassumption.
      * exists default_attrs, x2. split; [eapply own_define_same; exact Ed|].
        apply deep_equal_refl. exact Hj2.
Qed.

Lemma extend_fold_recorded (n : nat) ps1 ps2 dl dps (todo : props) :
  (forall k a2 x2, own ps2 k = Some (a2, x2) ->
                   json_like x2 = true /\ NoDup (locs x2) /\ (height x2 <= n)%nat) ->
  (forall k, isObject (read ps1 k) = true ->
             instanceof_DeferredConfig (read ps1 k) = false) ->
  (forall k a y, In (k, a, y) todo ->
                 own dps k = Some (a, y)
                 /\ exists a2 x2, own ps2 k = Some (a2, x2)
                                  /\ recorded ps1 k x2 (Some (a, y))) ->
  distinct (keys todo) = true ->
  forall il ic ips nx,
    unfrozen (VObj il ic ips) = true ->
    (forall k, In k (keys todo) -> same_shape (read ips k) (read ps1 k)) ->
    exists ips' nx',
      fold_left
        (fun acc e =>
           let* '(mergeInto, next) := acc in
           extend_entry (fun into from next => extend_calls n into [from] next)
             (Z.of_nat n) (VObj dl CObject dps) (fst (fst e)) (snd e) mergeInto next)
        todo (Ok (VObj il ic ips, nx))
      = Ok (VObj il ic ips', nx')
      /\ unfrozen (VObj il ic ips') = true
      /\ (distinct (keys ips) = true -> distinct (keys ips') = true)
      /\ (forall k, In k (keys ips') -> In k (keys todo) \/ In k (keys ips))
      /\ (forall k, ~ In k (keys todo) -> own ips' k = own ips k)
      /\ (forall k, In k (keys todo) ->
                    exists a x a2 x2,
                      own ips' k = Some (a, x) /\ own ps2 k = Some (a2, x2)
                      /\ deep_equal x x2 = true).
Proof.
  intros H2 Hdef. induction todo as [|[[k a] y] todo IH]; intros Hentries Hd il ic ips nx Hu Hsh.
  - exists ips, nx. repeat split; auto. intros k [].
  - change (keys ((k, a, y) :: todo)) with (k :: keys todo) in *.
    apply distinct_cons in Hd as [Hk Hd].
    destruct (Hentries k a y (or_introl eq_refl)) as [Hown [a2 [x2 [Hx2 Hrec]]]].
    destruct (H2 k a2 x2 Hx2) as [Hj2 [Hnd Hh]].
    destruct (extend_entry_recorded n ps1 dl dps k a y x2 il ic ips nx Hj2 Hnd Hh Hown Hrec
                (Hdef k) Hu (Hsh k (or_introl eq_refl)))
      as [ips1 [nx1 [E1 [Hu1 [[Hg1 Hg2] [Hf1 [a' [x [Hv Heq]]]]]]]]].
    destruct (IH (fun k' a' y' Hin => Hentries k' a' y' (or_intror Hin)) Hd il ic ips1 nx1 Hu1)
      as [ips' [nx' [E' [Hu' [Hd' [Hk' [Hf' Hg']]]]]]].
    { intros k' Hin. unfold read. rewrite Hf1 by (intros ->; exact (Hk Hin)).
      apply (Hsh k'). right. exact Hin. }
    exists ips', nx'. cbn [fold_left bind fst snd]. rewrite E1.
    split; [exact E'|]. split; [exact Hu'|]. split; [auto|]. split; [|split].
    + intros k0 Hin. destruct (Hk' k0 Hin) as [Ht|H1]; [left; right; exact Ht|].
      destruct (Hg2 k0 H1) as [->|H0]; [left; left; reflexivity|right; exact H0].
    + intros k0 Hnot. rewrite Hf'; [apply Hf1|]; intros H; apply Hnot; [left|right]; auto.
    + intros k0 [<-|Hin].
      * exists a', x, a2, x2. rewrite (Hf' k Hk). auto.
      * exact (Hg' k0 Hin).
Qed.

(** ** What [diffDeep] records *)

Lemma json_like_snoc (l : loc) (c : cls) (ps : props) (k : string) (v : value) :
  json_like (VObj l c ps) = true -> ~ In k (keys ps) -> json_like v = true ->
  json_like (VObj l c (ps ++ [(k, default_attrs, v)])) = true.
Proof.
  cbn [json_like]. rewrite !andb_true_iff. intros [[Hc Hd] Hps] Hk Hv.
  repeat split; [exact Hc| |].
  - unfold keys. rewrite map_app. apply distinct_snoc; assumption.
  - rewrite forallb_app, Hps. simpl. rewrite Hv. reflexivity.
Qed.

Lemma own_snoc (ps : props) (k : string) (a : attrs) (v : value) :
  own ps k = None -> own (ps ++ [(k, a, v)]) k = Some (a, v).
Proof.
  induction ps as [|[[k' a'] x'] ps IH]; simpl.
  - intros _. rewrite String.eqb_refl. reflexivity.
  - destruct (String.eqb k' k); [discriminate|exact IH].
Qed.

(** [diff[parm] = v] on a key the diff does not hold yet. *)
Lemma diff_set (dl : loc) (dacc : props) (k : string) (v : value) :
  json_like (VObj dl CObject dacc) = true -> own dacc k = None -> json_like v = true ->
  exists dps',
    set_prop (VObj dl CObject dacc) k v = Ok (VObj dl CObject dps')
    /\ json_like (VObj dl CObject dps') = true
    /\ (forall k', k <> k' -> own dps' k' = own dacc k')
    /\ own dps' k = Some (default_attrs, v).
Proof.
  intros Hj Hk Hv. exists (assign dacc k v). split; [reflexivity|].
  pose proof (proj1 (own_None_keys dacc k) Hk) as Hnot.
  split; [|split].
  - rewrite assign_absent by exact Hnot. apply json_like_snoc; assumption.
  - intros k' Hne. apply own_assign_other. exact Hne.
  - rewrite assign_absent by exact Hnot. apply own_snoc. exact Hk.
Qed.

Lemma isObject_truthy (v : value) : isObject v = true -> truthy v = true.
Proof. destruct v; try discriminate; reflexivity. Qed.

Lemma isArray_kinds (v : value) :
  isArray v = true -> isObject v = false /\ is_object v = true.
Proof. destruct v as [| | | | | |l c ps]; try discriminate. destruct c; try discriminate. auto. Qed.

Lemma diff_entry_recorded ps1 k x2 dl dacc recurse n :
  json_like x2 = true ->
  (own ps1 k = None
   \/ exists a1, own ps1 k = Some (a1, read ps1 k) /\ json_like (read ps1 k) = true) ->
  apart (read ps1 k) x2 ->
  (isObject x2 = true -> truthy (read ps1 k) = true -> isObject (read ps1 k) = true) ->
  (isObject (read ps1 k) = true -> isObject x2 = true ->
   forall n, exists D n', recurse n = Ok (D, n') /\ restores D (read ps1 k) x2) ->
  json_like (VObj dl CObject dacc) = true -> own dacc k = None ->
  exists dps' n',
    diff_entry (VObj dl CObject dacc) k (read ps1 k) x2 recurse n
    = Ok (VObj dl CObject dps', n')
    /\ json_like (VObj dl CObject dps') = true
    /\ (forall k', k <> k' -> own dps' k' = own dacc k')
    /\ recorded ps1 k x2 (own dps' k).
Proof.
  intros Hj2 H1 Hap Hkeep Hrec Hjd Hk.
  assert (Hsame : forall a1 x1, own ps1 k = Some (a1, x1) -> x1 = read ps1 k).
  { intros a1 x1 E. unfold read. rewrite E. reflexivity. }
  assert (Hpresent : truthy (read ps1 k) = true \/ is_object (read ps1 k) = true
                     \/ strict_eq (read ps1 k) x2 = true ->
                     exists a1, own ps1 k = Some (a1, read ps1 k)
                                /\ json_like (read ps1 k) = true).
  { intros Ht. destruct H1 as [E|H1]; [|exact H1]. exfalso.
    unfold read in Ht. rewrite E in Ht. destruct Ht as [Ht|[Ht|Ht]]; try discriminate Ht.
    destruct x2; discriminate. }
  assert (Hsound : result_truthy (equalsDeep (read ps1 k) x2 DUndefined) = true ->
                   json_like (read ps1 k) = true -> deep_equal (read ps1 k) x2 = true).
  { intros He Hj1. apply (equalsDeep_sound _ _ DUndefined); auto. left. reflexivity. }
  assert (Hskip : (exists a1, own ps1 k = Some (a1, read ps1 k)
                              /\ json_like (read ps1 k) = true) ->
                  deep_equal (read ps1 k) x2 = true ->
                  exists dps' n',
                    Ok (VObj dl CObject dacc, n) = Ok (VObj dl CObject dps', n')
                    /\ json_like (VObj dl CObject dps') = true
                    /\ (forall k', k <> k' -> own dps' k' = own dacc k')
                    /\ recorded ps1 k x2 (own dps' k)).
  { intros [a1 [E1 _]] Heq. exists dacc, n. repeat split; auto.
    rewrite Hk. exists a1, (read ps1 k). auto. }
  assert (Hset : (isObject x2 = true -> isObject (read ps1 k) = false) ->
                 exists dps' n',
                   (let* diff := set_prop (VObj dl CObject dacc) k x2 in Ok (diff, n))
                   = Ok (VObj dl CObject dps', n')
                   /\ json_like (VObj dl CObject dps') = true
                   /\ (forall k', k <> k' -> own dps' k' = own dacc k')
                   /\ recorded ps1 k x2 (own dps' k)).
  { intros Halias. destruct (diff_set dl dacc k x2 Hjd Hk Hj2) as [dps' [E [Hj' [Hf Hv]]]].
    exists dps', n. rewrite E. cbn [bind]. repeat split; auto.
    rewrite Hv. split; [reflexivity|]. right. auto. }
  unfold diff_entry.
  destruct (truthy (read ps1 k) && truthy x2 && isObject x2) eqn:EA.
  - apply andb_true_iff in EA as [EA Ho2]. apply andb_true_iff in EA as [Et1 Et2].
    destruct (Hpresent (or_introl Et1)) as [a1 [E1 Hj1]].
    destruct (result_truthy (equalsDeep (read ps1 k) x2 DUndefined)) eqn:Eeq; cbn [negb].
    + apply Hskip; eauto.
    + pose proof (Hkeep Ho2 Et1) as Ho1.
      destruct (Hrec Ho1 Ho2 n) as [D [n' [ED HD]]]. rewrite ED. cbn [bind].
      destruct HD as [HjD HD].
      destruct (diff_set dl dacc k D Hjd Hk HjD) as [dps' [E [Hj' [Hf Hv]]]].
      exists dps', n'. rewrite E. cbn [bind]. repeat split; auto.
      rewrite Hv. split; [reflexivity|]. left. repeat split; auto; apply HD.
  - destruct (isArray (read ps1 k) && isArray x2) eqn:EB.
    + apply andb_true_iff in EB as [Ea1 Ea2].
      destruct (isArray_kinds _ Ea1) as [_ Hob1]. destruct (isArray_kinds _ Ea2) as [Hno2 _].
      destruct (result_truthy (equalsDeep (read ps1 k) x2 DUndefined)) eqn:Eeq; cbn [negb].
      * destruct (Hpresent (or_intror (or_introl Hob1))) as [a1 [E1 Hj1]].
        apply Hskip; eauto.
      * apply Hset. rewrite Hno2. discriminate.
    + destruct (Bool.bool_dec (strict_eq (read ps1 k) x2) true) as [ES|ES];
        [|apply not_true_is_false in ES]; rewrite ES; cbn [negb].
      * destruct (Hpresent (or_intror (or_intror ES))) as [a1 [E1 Hj1]].
        apply Hskip; eauto.
        destruct (is_object (read ps1 k)) eqn:Eo1.
        -- exfalso. destruct (read ps1 k) as [| | | | | |l1 c1 q1]; try discriminate Eo1.
           destruct x2 as [| | | | | |l2 c2 q2]; try discriminate ES.
           simpl in ES. apply Nat.eqb_eq in ES. subst l2.
           apply (Hap l1); left; reflexivity.
        -- apply strict_eq_scalar_deep_equal; assumption.
      * apply Hset. intros Ho2.
        rewrite Ho2, (isObject_truthy _ Ho2), !andb_true_r in EA.
        destruct (read ps1 k); try reflexivity; discriminate EA.
Qed.

Lemma json_like_read (l : loc) (c : cls) (ps : props) (k : string) :
  json_like (VObj l c ps) = true ->
  own ps k = None
  \/ exists a1, own ps k = Some (a1, read ps k) /\ json_like (read ps k) = true.
Proof.
  intros Hj. unfold read. destruct (own ps k) as [[a x]|] eqn:E; [right|left; reflexivity].
  exists a. split; [reflexivity|]. exact (proj2 (json_like_own l c ps k a x Hj E)).
Qed.

Lemma diff_props_recorded l1 c1 ps1 diff_of (todo : props) :
  json_like (VObj l1 c1 ps1) = true ->
  distinct (keys todo) = true ->
  (forall k a x2, In (k, a, x2) todo ->
     a = default_attrs /\ json_like x2 = true /\ apart (read ps1 k) x2
     /\ (isObject x2 = true -> truthy (read ps1 k) = true -> isObject (read ps1 k) = true)
     /\ (isObject (read ps1 k) = true -> isObject x2 = true ->
         forall n, exists D n',
           diff_of (read ps1 k) x2 n = Ok (D, n') /\ restores D (read ps1 k) x2)) ->
  forall dl dacc n,
    json_like (VObj dl CObject dacc) = true ->
    (forall k, In k (keys todo) -> own dacc k = None) ->
    exists dps' n',
      diff_props (VObj l1 c1 ps1) diff_of todo (VObj dl CObject dacc) n
      = Ok (VObj dl CObject dps', n')
      /\ json_like (VObj dl CObject dps') = true
      /\ (forall k, ~ In k (keys todo) -> own dps' k = own dacc k)
      /\ (forall k a x2, In (k, a, x2) todo -> recorded ps1 k x2 (own dps' k)).
Proof.
  intros Hj1. induction todo as [|[[k a] x2] todo IH]; intros Hd Hentries dl dacc n Hjd Hnone.
  - exists dacc, n. repeat split; auto. intros k a x2 [].
  - change (keys ((k, a, x2) :: todo)) with (k :: keys todo) in *.
    apply distinct_cons in Hd as [Hk Hd].
    destruct (Hentries k a x2 (or_introl eq_refl)) as [-> [Hj2 [Hap [Hkeep Hrec]]]].
    cbn [diff_props enumerable default_attrs]. rewrite get_prop_read. cbn [bind].
    destruct (diff_entry_recorded ps1 k x2 dl dacc (diff_of (read ps1 k) x2) n Hj2
                (json_like_read l1 c1 ps1 k Hj1) Hap Hkeep Hrec Hjd
                (Hnone k (or_introl eq_refl)))
      as [dps1 [n1 [E1 [Hjd1 [Hf1 Hr1]]]]].
    rewrite E1. cbn [bind].
    destruct (IH Hd (fun k' a' x' Hin => Hentries k' a' x' (or_intror Hin)) dl dps1 n1 Hjd1)
      as [dps' [n' [E' [Hj' [Hf' Hr']]]]].
    { intros k' Hin. rewrite Hf1 by (intros ->; exact (Hk Hin)). apply Hnone. right. exact Hin. }
    exists dps', n'. split; [exact E'|]. split; [exact Hj'|]. split.
    + intros k0 Hnot. rewrite Hf'; [apply Hf1|]; intros H; apply Hnot; [left|right]; auto.
    + intros k0 a0 x0 [[= <- <- <-]|Hin].
      * rewrite (Hf' k Hk). exact Hr1.
      * exact (Hr' k0 a0 x0 Hin).
Qed.

Lemma NoDup_locs_In (l : loc) (c : cls) (ps : props) (k : string) (a : attrs) (x : value) :
  NoDup (locs (VObj l c ps)) -> In (k, a, x) ps -> NoDup (locs x).
Proof.
  cbn [locs]. intros H Hin. apply NoDup_cons_iff in H as [_ H].
  induction ps as [|e ps IH]; [destruct Hin|]. simpl in H.
  destruct Hin as [->|Hin].
  - exact (NoDup_app_remove_r _ _ H).
  - exact (IH (NoDup_app_remove_l _ _ H) Hin).
Qed.

Lemma apart_read (l1 l2 : loc) (c1 c2 : cls) (ps1 ps2 : props) k a x2 :
  apart (VObj l1 c1 ps1) (VObj l2 c2 ps2) -> own ps2 k = Some (a, x2) ->
  apart (read ps1 k) x2.
Proof.
  intros H H2. unfold read. destruct (own ps1 k) as [[a1 x1]|] eqn:E1.
  - eapply apart_own; eauto.
  - intros l [].
Qed.

Lemma keeps_keys_own (l1 l2 : loc) (c1 c2 : cls) (ps1 ps2 : props) k a1 x1 :
  keeps_keys (VObj l1 c1 ps1) (VObj l2 c2 ps2) = true ->
  own ps1 k = Some (a1, x1) ->
  exists a2 x2, own ps2 k = Some (a2, x2)
                /\ (isObject x2 = true -> truthy x1 = true ->
                    isObject x1 = true /\ keeps_keys x1 x2 = true).
Proof.
  cbn [keeps_keys]. rewrite forallb_forall. intros H E1.
  specialize (H _ (own_In _ _ _ _ E1)). cbn [fst snd] in H.
  destruct (own ps2 k) as [[a2 x2]|]; [|discriminate].
  exists a2, x2. split; [reflexivity|]. intros Ho Ht. rewrite Ho, Ht in H.
  apply andb_true_iff in H. exact H.
Qed.

Lemma height_own (l : loc) (c : cls) (ps : props) (k : string) (a : attrs) (x : value)
    (n : nat) :
  (height (VObj l c ps) <= S n)%nat -> own ps k = Some (a, x) -> (height x <= n)%nat.
Proof.
  intros H E. cbn [height] in H. apply le_S_n in H.
  exact (Nat.le_trans _ _ _ (height_In ps (k, a, x) (own_In _ _ _ _ E)) H).
Qed.

Lemma keys_In (ps : props) (k : string) :
  In k (keys ps) <-> exists a x, In (k, a, x) ps.
Proof.
  unfold keys. rewrite in_map_iff. split.
  - intros [[[k' a] x] [<- Hin]]. eauto.
  - intros [a [x Hin]]. exists (k, a, x). auto.
Qed.

(** ** The diff of two trees restores the second from the first *)

Lemma same_shape_read (ips ps1 : props) (k : string) :
  map erase_entry ips = map erase_entry ps1 -> same_shape (read ips k) (read ps1 k).
Proof.
  intros Hmap. pose proof (same_shape_own ips ps1 k Hmap) as H. unfold read.
  destruct (own ips k) as [[a x]|], (own ps1 k) as [[a1 x1]|]; try contradiction.
  - exact (proj2 H).
  - reflexivity.
Qed.

Lemma diffDeep_restores (v2 : value) :
  forall v1 depth n,
    unbounded depth -> isObject v1 = true -> isObject v2 = true ->
    json_like v1 = true -> json_like v2 = true -> keeps_keys v1 v2 = true ->
    apart v1 v2 -> NoDup (locs v2) ->
    exists D n', diffDeep v1 v2 depth n = Ok (D, n') /\ restores D v1 v2.
Proof.
  induction v2 as [| |b|m|s|f|l2 c2 ps2 IH] using value_props_ind;
    intros v1 depth n Hdepth Ho1 Ho2 Hj1 Hj2 Hkk Hap Hnd; try discriminate Ho2.
  destruct v1 as [| | | | | |l1 c1 ps1]; try discriminate Ho1.
  assert (Hdp : depth_negative (depth_or_default depth) = false
                /\ unbounded (depth_minus_1 (depth_or_default depth))).
  { destruct Hdepth as [-> | ->]; split; try reflexivity; right; reflexivity. }
  destruct Hdp as [Hneg Hnext].
  destruct (json_like_inv _ _ _ Hj1) as [_ [Hd1 Hps1]].
  destruct (json_like_inv _ _ _ Hj2) as [_ [Hd2 Hps2]].
  assert (Hkeep : forall k a x2, own ps2 k = Some (a, x2) ->
             isObject x2 = true -> truthy (read ps1 k) = true ->
             isObject (read ps1 k) = true /\ keeps_keys (read ps1 k) x2 = true).
  { intros k a x2 E2 Hx2 Ht. unfold read in *.
    destruct (own ps1 k) as [[a1 x1]|] eqn:E1; [|discriminate Ht].
    destruct (keeps_keys_own _ _ _ _ _ _ _ _ _ Hkk E1) as [a2 [x2' [E2' Hc]]].
    rewrite E2 in E2'. injection E2' as <- <-. apply Hc; assumption. }
  assert (Hjr : forall k, isObject (read ps1 k) = true -> json_like (read ps1 k) = true).
  { intros k Ho. destruct (json_like_read l1 c1 ps1 k Hj1) as [E|[a1 [_ Hj]]]; [|exact Hj].
    unfold read in Ho. rewrite E in Ho. discriminate Ho. }
  destruct (diff_props_recorded l1 c1 ps1
              (fun value1 value2 => diffDeep value1 value2 (depth_minus_1 (depth_or_default depth)))
              ps2 Hj1 Hd2) with (dl := n) (dacc := @nil (string * attrs * value)) (n := S n)
    as [dps [n' [E [HjD [Hframe Hrec]]]]].
  { intros k a x2 Hin. destruct (Hps2 k a x2 Hin) as [-> Hjx2].
    pose proof (own_of_distinct ps2 k default_attrs x2 Hd2 Hin) as E2.
    split; [reflexivity|]. split; [exact Hjx2|].
    split; [eapply apart_read; eauto|].
    split; [intros Hx2 Ht; exact (proj1 (Hkeep k _ x2 E2 Hx2 Ht))|].
    intros Hox1 Hox2 n0. rewrite Forall_forall in IH.
    apply (IH (k, default_attrs, x2) Hin); auto.
    - exact (proj2 (Hkeep k _ x2 E2 Hox2 (isObject_truthy _ Hox1))).
    - eapply apart_read; eauto.
    - eapply NoDup_locs_In; eauto. }
  { reflexivity. }
  { intros k _. reflexivity. }
  exists (VObj n CObject dps), n'. split.
  { cbn [diffDeep]. rewrite Hneg. exact E. }
  split; [exact HjD|]. split; [reflexivity|].
  intros d into nx Hh Hshape.
  destruct into as [| | | | | |il ic ips]; try (unfold same_shape in Hshape; discriminate Hshape).
  destruct (same_shape_inv _ _ _ _ _ _ Hshape) as [_ Hmap].
  assert (Hji : json_like (VObj il ic ips) = true)
    by exact (same_shape_json_like _ _ Hshape Hj1).
  destruct (json_like_inv _ _ _ Hji) as [_ [Hdi _]].
  destruct (json_like_inv _ _ _ HjD) as [_ [HdD HpsD]].
  destruct (extend_fold_recorded d ps1 ps2 n dps dps) with (il := il) (ic := ic) (ips := ips)
                                                           (nx := nx)
    as [ips' [nx' [Ef [Hu' [Hd' [Hk' [Hf' Hg']]]]]]].
  { intros k a2 x2 E2. split; [exact (proj2 (json_like_own _ _ _ _ _ _ Hj2 E2))|]. split.
    - eapply NoDup_locs_In; [exact Hnd|]. apply own_In. exact E2.
    - eapply height_own; eauto. }
  { intros k Ho. exact (proj1 (json_like_kinds _ (Hjr k Ho))). }
  { intros k a y Hin. split; [apply own_of_distinct; assumption|].
    destruct (in_dec string_dec k (keys ps2)) as [Hk2|Hnot].
    - apply keys_In in Hk2 as [a2 [x2 Hin2]]. exists a2, x2.
      split; [apply own_of_distinct; assumption|].
      pose proof (Hrec k a2 x2 Hin2) as Hr.
      rewrite (own_of_distinct dps k a y HdD Hin) in Hr. exact Hr.
    - pose proof (Hframe k Hnot) as Hnone.
      rewrite (own_of_distinct dps k a y HdD Hin) in Hnone. discriminate Hnone. }
  { exact HdD. }
  { apply json_like_unfrozen. exact Hji. }
  { intros k _. apply same_shape_read. exact Hmap. }
  exists (VObj il ic ips'), nx'. split.
  { cbn [extend_calls fold_left bind for_in]. rewrite (json_like_enumerable _ _ _ HjD).
    exact Ef. }
  assert (Hsub : forall k, In k (keys dps) -> In k (keys ps2)).
  { intros k Hin. destruct (in_dec string_dec k (keys ps2)) as [Hk2|Hnot]; [exact Hk2|].
    pose proof (Hframe k Hnot) as Hnone. apply own_None_keys in Hnone. contradiction. }
  apply deep_equal_objects.
  - apply Hd'. exact Hdi.
  - intros k Hin. destruct (Hk' k Hin) as [HinD|Hini]; [exact (Hsub k HinD)|].
    rewrite <- keys_erase, Hmap, keys_erase in Hini.
    apply keys_In in Hini as [a1 [x1 Hin1]].
    destruct (keeps_keys_own _ _ _ _ _ _ k a1 x1 Hkk (own_of_distinct _ _ _ _ Hd1 Hin1))
      as [a2 [x2 [E2 _]]].
    apply keys_In. exists a2, x2. apply own_In. exact E2.
  - intros k Hin. apply keys_In in Hin as [a2 [x2 Hin2]].
    pose proof (own_of_distinct ps2 k a2 x2 Hd2 Hin2) as E2.
    destruct (own dps k) as [[ad y]|] eqn:ED.
    + apply Hg'. apply keys_In. exists ad, y. apply own_In. exact ED.
    + pose proof (Hrec k a2 x2 Hin2) as Hr. rewrite ED in Hr.
      destruct Hr as [a1 [x1 [E1 Heq]]].
      rewrite (Hf' k (proj1 (own_None_keys dps k) ED)).
      pose proof (same_shape_own ips ps1 k Hmap) as Hs. rewrite E1 in Hs.
      destruct (own ips k) as [[ai xi]|]; [|contradiction].
      exists ai, xi, a2, x2. split; [reflexivity|]. split; [exact E2|].
      rewrite (same_shape_deep_equal xi x1 x2 (proj2 Hs)). exact Heq.
Qed.

Lemma distinct_locs_NoDup (ls : list loc) : distinct_locs ls = true -> NoDup ls.
Proof.
  induction ls as [|l ls IH]; [constructor|].
  simpl. rewrite andb_true_iff, negb_true_iff. intros [Hl Hd].
  constructor; [|exact (IH Hd)].
  intros Hin. apply Bool.not_true_iff_false in Hl. apply Hl.
  apply existsb_exists. exists l. split; [exact Hin|apply Nat.eqb_refl].
Qed.




(** ** [equalsDeep] decides deep equality *)

Lemma compare_props_boolean equals (ps2 todo : props) :
  exists b, compare_props equals ps2 todo = EqBool b.
Proof.
  induction todo as [|[[k a] x] todo IH]; simpl; [eauto|].
  destruct (enumerable a); [|exact IH].
  destruct (truthy x && typeof_object x).
  - destruct (negb (result_truthy (equals x (read ps2 k)))); eauto.
  - destruct (negb (strict_eq x (read ps2 k))); eauto.
Qed.

Lemma equalsDeep_boolean (v1 v2 : value) (depth : jsdepth) :
  depth_negative (depth_or_default depth) = false ->
  exists b, equalsDeep v1 v2 depth = EqBool b.
Proof.
  intros Hneg. destruct v1 as [| | | | | |l1 c1 ps1]; cbn [equalsDeep]; rewrite Hneg.
  1-6: repeat match goal with
              | |- context [if ?c then _ else _] => destruct c
              end; eauto.
  destruct (negb (truthy (VObj l1 c1 ps1)) || negb (truthy v2)); [eauto|].
  destruct (strict_eq (VObj l1 c1 ps1) v2); [eauto|].
  destruct (negb (typeof_object (VObj l1 c1 ps1)) || negb (typeof_object v2)); [eauto|].
  destruct v2; eauto.
  destruct (negb _); [eauto|]. apply compare_props_boolean.
Qed.

Lemma compare_props_complete equals (ps2 todo : props) :
  (forall k a x, In (k, a, x) todo ->
     if truthy x && typeof_object x
     then result_truthy (equals x (read ps2 k)) = true
     else strict_eq x (read ps2 k) = true) ->
  compare_props equals ps2 todo = EqBool true.
Proof.
  induction todo as [|[[k a] x] todo IH]; intros H; simpl; [reflexivity|].
  pose proof (H k a x (or_introl eq_refl)) as Hx.
  assert (IH' := IH (fun k' a' x' Hin => H k' a' x' (or_intror Hin))).
  destruct (enumerable a); [|exact IH'].
  destruct (truthy x && typeof_object x); rewrite Hx; exact IH'.
Qed.

Lemma deep_equal_inv (l1 l2 : loc) (c1 c2 : cls) (ps1 ps2 : props) :
  deep_equal (VObj l1 c1 ps1) (VObj l2 c2 ps2) = true ->
  (forall k a x, In (k, a, x) ps1 ->
                 exists a' y, own ps2 k = Some (a', y) /\ deep_equal x y = true)
  /\ (forall k, In k (keys ps2) -> In k (keys ps1)).
Proof.
  cbn [deep_equal]. rewrite andb_true_iff, !forallb_forall. intros [H1 H2]. split.
  - intros k a x Hin. specialize (H1 _ Hin). cbn [fst snd] in H1.
    destruct (own ps2 k) as [[a' y]|]; [eauto|discriminate].
  - intros k Hin. apply existsb_eqb_In. exact (H2 k Hin).
Qed.

Lemma deep_equal_scalar (x y : value) :
  is_object x = false -> deep_equal x y = true -> strict_eq x y = true.
Proof. destruct x, y; simpl; try discriminate; auto. Qed.

Lemma equalsDeep_complete (v1 : value) :
  forall v2 depth,
    is_object v1 = true -> json_like v1 = true -> json_like v2 = true ->
    deep_equal v1 v2 = true ->
    result_truthy (equalsDeep v1 v2 depth) = true.
Proof.
  induction v1 as [| |b|n|s|f|l1 c1 ps1 IH] using value_props_ind;
    intros v2 depth Ho H1 H2 Heq; try discriminate Ho.
  destruct v2 as [| | | | | |l2 c2 ps2]; try discriminate Heq.
  cbn [equalsDeep]. destruct (depth_negative (depth_or_default depth)); [reflexivity|].
  cbn [truthy negb orb strict_eq typeof_object].
  destruct (Nat.eqb l1 l2); [reflexivity|].
  destruct (json_like_inv _ _ _ H1) as [_ [Hd1 Hps1]].
  destruct (json_like_inv _ _ _ H2) as [_ [Hd2 Hps2]].
  destruct (deep_equal_inv _ _ _ _ _ _ Heq) as [Hfwd Hback].
  unfold Object_keys.
  rewrite (json_like_enumerable _ _ _ H1), (json_like_enumerable _ _ _ H2).
  assert (Hlen : List.length (keys ps1) = List.length (keys ps2)).
  { apply Nat.le_antisymm; apply NoDup_incl_length; auto using distinct_NoDup.
    intros k Hk. apply keys_In in Hk as [a [x Hin]].
    destruct (Hfwd k a x Hin) as [a' [y [Hy _]]].
    apply keys_In. exists a', y. apply own_In. exact Hy. }
  rewrite Hlen, Nat.eqb_refl. cbn [negb].
  rewrite compare_props_complete; [reflexivity|].
  intros k a x Hin. destruct (Hfwd k a x Hin) as [a' [y [Hy Hxy]]].
  unfold read. rewrite Hy.
  destruct (truthy x && typeof_object x) eqn:Eo.
  - rewrite Forall_forall in IH. apply (IH _ Hin); auto.
    + destruct x; try reflexivity; simpl in Eo; rewrite ?andb_false_r in Eo; discriminate Eo.
    + exact (proj2 (Hps1 k a x Hin)).
    + exact (proj2 (json_like_own _ _ _ _ _ _ H2 Hy)).
  - apply deep_equal_scalar; [|exact Hxy].
    destruct x; try reflexivity. discriminate Eo.
Qed.

Lemma apart_by_computation (a b : value) :
  forallb (fun l => negb (existsb (Nat.eqb l) (locs b))) (locs a) = true -> apart a b.
Proof.
  rewrite forallb_forall. intros H l Ha Hb. specialize (H l Ha).
  apply negb_true_iff in H. apply Bool.not_true_iff_false in H. apply H.
  apply existsb_exists. exists l. split; [exact Hb|apply Nat.eqb_refl].
Qed.



(** X2.  Whatever the depth argument, [equalsDeep] does not tell two
    deep-equal JSON-like object trees apart: a depth bound can only make it
    accept more. *)
Theorem equalsDeep_accepts_equal_trees :
  forall v1 v2 depth,
    is_object v1 = true -> json_like v1 = true -> json_like v2 = true ->
    deep_equal v1 v2 = true ->
    result_truthy (equalsDeep v1 v2 depth) = true.
Proof. intros v1 v2 depth. apply equalsDeep_complete. Qed.

Lemma equalsDeep_accepts_equal_trees_witness :
  result_truthy
    (equalsDeep
       (VObj 0 CObject [("a", default_attrs, VObj 1 CObject [("b", default_attrs, VNum 0)])])
       (VObj 2 CObject [("a", default_attrs, VObj 3 CObject [("b", default_attrs, VNum 0)])])
       (DNum 0))
  = true.
Proof. apply equalsDeep_accepts_equal_trees; reflexivity. Defined.

(** ** [cloneDeep] makes a deep copy *)



(** ** The diff of a tree and its copy *)

Lemma erase_isArray (a b : value) : same_shape a b -> isArray a = isArray b.
Proof.
  unfold same_shape. intros H.
  destruct (erase_kinds a) as [_ [_ [_ [A _]]]]. destruct (erase_kinds b) as [_ [_ [_ [B _]]]].
  rewrite <- A, <- B, H. reflexivity.
Qed.

Lemma same_shape_is_object (a b : value) : same_shape a b -> is_object a = is_object b.
Proof. unfold same_shape. destruct a, b; simpl; try discriminate; auto. Qed.

Lemma same_shape_equalsDeep (x1 x2 : value) :
  same_shape x1 x2 -> is_object x2 = true -> json_like x2 = true ->
  result_truthy (equalsDeep x1 x2 DUndefined) = true.
Proof.
  intros Hs Ho Hj. apply equalsDeep_complete.
  - rewrite (same_shape_is_object _ _ Hs). exact Ho.
  - exact (same_shape_json_like _ _ Hs Hj).
  - exact Hj.
  - rewrite (same_shape_deep_equal _ _ x2 Hs). apply deep_equal_refl. exact Hj.
Qed.

Lemma diff_entry_same_shape diff parm x1 x2 recurse next :
  same_shape x1 x2 -> json_like x2 = true ->
  diff_entry diff parm x1 x2 recurse next = Ok (diff, next).
Proof.
  intros Hs Hj. unfold diff_entry.
  destruct (truthy x1 && truthy x2 && isObject x2) eqn:EA.
  - apply andb_true_iff in EA as [_ Ho].
    rewrite (same_shape_equalsDeep x1 x2 Hs (isObject_is_object _ Ho) Hj). reflexivity.
  - destruct (isArray x1 && isArray x2) eqn:EB.
    + apply andb_true_iff in EB as [_ Ha].
      rewrite (same_shape_equalsDeep x1 x2 Hs (proj2 (isArray_kinds _ Ha)) Hj). reflexivity.
    + destruct (is_object x2) eqn:Eo.
      * exfalso. destruct (same_shape_kinds _ _ Hs) as [KO [KT _]].
        pose proof (erase_isArray _ _ Hs) as KA.
        destruct x2 as [| | | | | |l c ps]; try discriminate Eo.
        destruct (json_like_inv _ _ _ Hj) as [[-> | ->] _].
        -- rewrite KT in EA. discriminate EA.
        -- rewrite KA in EB. discriminate EB.
      * rewrite (same_shape_scalar _ _ Hs Eo), strict_eq_refl. reflexivity.
Qed.

Lemma diff_props_same_shape l1 c1 ps1 diff_of (todo : props) :
  (forall k a x2, In (k, a, x2) todo -> same_shape (read ps1 k) x2 /\ json_like x2 = true) ->
  forall diff next,
    diff_props (VObj l1 c1 ps1) diff_of todo diff next = Ok (diff, next).
Proof.
  induction todo as [|[[k a] x2] todo IH]; intros H diff next; [reflexivity|].
  cbn [diff_props]. destruct (enumerable a).
  - rewrite get_prop_read. cbn [bind].
    destruct (H k a x2 (or_introl eq_refl)) as [Hs Hj].
    rewrite (diff_entry_same_shape diff k _ x2 _ next Hs Hj). cbn [bind].
    apply IH. intros k' a' x' Hin. exact (H k' a' x' (or_intror Hin)).
  - apply IH. intros k' a' x' Hin. exact (H k' a' x' (or_intror Hin)).
Qed.

Lemma diffDeep_same_shape (v1 v2 : value) (next : loc) :
  is_object v2 = true -> json_like v2 = true -> same_shape v1 v2 ->
  diffDeep v1 v2 DUndefined next = Ok (VObj next CObject [], S next).
Proof.
  intros Ho Hj Hs. destruct v2 as [| | | | | |l2 c2 ps2]; try discriminate Ho.
  destruct v1 as [| | | | | |l1 c1 ps1]; try (unfold same_shape in Hs; discriminate Hs).
  destruct (same_shape_inv _ _ _ _ _ _ Hs) as [_ Hmap].
  destruct (json_like_inv _ _ _ Hj) as [_ [Hd Hps]].
  cbn [diffDeep depth_or_default depth_negative].
  apply diff_props_same_shape. intros k a x2 Hin. split.
  - pose proof (same_shape_read ps1 ps2 k Hmap) as Hr.
    unfold read in Hr at 2. rewrite (own_of_distinct ps2 k a x2 Hd Hin) in Hr. exact Hr.
  - exact (proj2 (Hps k a x2 Hin)).
Qed.



(** ** What [diffDeep] returns *)

Lemma get_prop_defined (o : value) (k : string) :
  loose_null o = false -> exists v, get_prop o k = Ok v.
Proof.
  destruct o as [| | | |s| |l c ps]; try discriminate; intros _; simpl; eauto.
  - destruct (String.eqb k "length"); [eauto|].
    destruct (own (string_props 0 s) k) as [[a x]|]; eauto.
  - destruct (own ps k) as [[a x]|]; eauto.
Qed.

Lemma truthy_defined (v : value) : truthy v = true -> loose_null v = false.
Proof. destruct v; try discriminate; reflexivity. Qed.

Lemma keys_assign_In (ps : props) (k : string) (v : value) (k' : string) :
  In k' (keys (assign ps k v)) -> k' = k \/ In k' (keys ps).
Proof.
  destruct (keys_assign ps k v) as [E|[_ E]]; rewrite E; [auto|].
  intros H. apply in_app_or in H as [H|[<-|[]]]; auto.
Qed.

Lemma diff_entry_keys dl dacc parm value1 value2 recurse next :
  (truthy value1 = true -> forall n, exists dl' dps' n',
      recurse n = Ok (VObj dl' CObject dps', n')) ->
  exists dps' next',
    diff_entry (VObj dl CObject dacc) parm value1 value2 recurse next
    = Ok (VObj dl CObject dps', next')
    /\ forall k, In k (keys dps') -> k = parm \/ In k (keys dacc).
Proof.
  intros Hrec. unfold diff_entry.
  destruct (truthy value1 && truthy value2 && isObject value2) eqn:EA.
  - destruct (negb _); [|exists dacc, next; auto].
    apply andb_true_iff in EA as [EA _]. apply andb_true_iff in EA as [Et _].
    destruct (Hrec Et next) as [dl' [dps' [n' E]]]. rewrite E. cbn [bind set_prop].
    exists (assign dacc parm (VObj dl' CObject dps')), n'. split; [reflexivity|].
    apply keys_assign_In.
  - destruct (isArray value1 && isArray value2).
    + destruct (negb _); [|exists dacc, next; auto]. cbn [bind set_prop].
      exists (assign dacc parm value2), next. split; [reflexivity|]. apply keys_assign_In.
    + destruct (negb _); [|exists dacc, next; auto]. cbn [bind set_prop].
      exists (assign dacc parm value2), next. split; [reflexivity|]. apply keys_assign_In.
Qed.

Lemma diff_props_keys object1 diff_of (todo : props) :
  loose_null object1 = false ->
  (forall k a x2, In (k, a, x2) todo ->
     forall v1 n, truthy v1 = true ->
                  exists dl' dps' n', diff_of v1 x2 n = Ok (VObj dl' CObject dps', n')) ->
  forall dl dacc n,
    exists dps' n',
      diff_props object1 diff_of todo (VObj dl CObject dacc) n = Ok (VObj dl CObject dps', n')
      /\ forall k, In k (keys dps') -> In k (keys (enumerable_props todo)) \/ In k (keys dacc).
Proof.
  intros Ho. induction todo as [|[[k a] x2] todo IH]; intros Hrec dl dacc n.
  - exists dacc, n. auto.
  - assert (IH' := IH (fun k' a' x' Hin => Hrec k' a' x' (or_intror Hin))).
    cbn [diff_props]. unfold enumerable_props. cbn [filter fst snd].
    destruct (enumerable a); [|apply IH'].
    destruct (get_prop_defined object1 k Ho) as [v1 E1]. rewrite E1. cbn [bind].
    destruct (diff_entry_keys dl dacc k v1 x2 (diff_of v1 x2) n) as [dps1 [n1 [E Hk1]]].
    { intros Ht n0. exact (Hrec k a x2 (or_introl eq_refl) v1 n0 Ht). }
    rewrite E. cbn [bind].
    destruct (IH' dl dps1 n1) as [dps' [n' [E' Hk']]].
    exists dps', n'. split; [exact E'|].
    intros k0 Hin. destruct (Hk' k0 Hin) as [H|H]; [left; right; exact H|].
    destruct (Hk1 k0 H) as [->|H0]; [left; left; reflexivity|right; exact H0].
Qed.

Lemma string_props_enumerable (s : string) (i : nat) :
  enumerable_props (string_props i s) = string_props i s.
Proof.
  revert i. induction s as [|ch s IH]; intros i; [reflexivity|].
  unfold enumerable_props in *. simpl. rewrite IH. reflexivity.
Qed.

(** X5.  [diffDeep] does not throw when [object1] is neither [null] nor
    [undefined]: it returns a plain object, and every key of that object is
    an enumerable key of [object2] (a key that [object2] lacks is never
    recorded). *)
Theorem diffDeep_records_keys_of_object2 :
  forall object2 object1 depth next,
    loose_null object1 = false ->
    exists dl dps next',
      diffDeep object1 object2 depth next = Ok (VObj dl CObject dps, next')
      /\ forall k, In k (keys dps) -> In k (keys (for_in object2)).
Proof.
  induction object2 as [| |b|m|s|f|l2 c2 ps2 IH] using value_props_ind;
    intros object1 depth next Ho; cbn [diffDeep];
    destruct (depth_negative (depth_or_default depth));
    try (eexists _, [], _; split; [reflexivity|intros k []]; fail).
  - destruct (diff_props_keys object1 (fun _ _ n => Ok (VObj n CObject [], S n))
                (string_props 0 s) Ho) with (dl := next) (dacc := @nil (string * attrs * value))
                                            (n := S next)
      as [dps [n' [E Hk]]].
    { intros k a x2 _ v1 n _. eauto. }
    exists next, dps, n'. split; [exact E|].
    intros k Hin. destruct (Hk k Hin) as [H|[]].
    rewrite string_props_enumerable in H. exact H.
  - destruct (diff_props_keys object1
                (fun value1 value2 =>
                   diffDeep value1 value2 (depth_minus_1 (depth_or_default depth)))
                ps2 Ho) with (dl := next) (dacc := @nil (string * attrs * value)) (n := S next)
      as [dps [n' [E Hk]]].
    { intros k a x2 Hin v1 n Ht. rewrite Forall_forall in IH.
      destruct (IH (k, a, x2) Hin v1 (depth_minus_1 (depth_or_default depth)) n
                  (truthy_defined _ Ht)) as [dl' [dps' [n' [E _]]]].
      eauto. }
    exists next, dps, n'. split; [exact E|].
    intros k Hin. destruct (Hk k Hin) as [H|[]]. exact H.
Qed.

Lemma diffDeep_records_keys_of_object2_witness :
  exists dl dps next',
    diffDeep (VNum 7) (VObj 0 CObject [("a", default_attrs, VNum 1)]) DUndefined 10
    = Ok (VObj dl CObject dps, next')
    /\ forall k, In k (keys dps) ->
                 In k (keys (for_in (VObj 0 CObject [("a", default_attrs, VNum 1)]))).
Proof. apply diffDeep_records_keys_of_object2. reflexivity. Defined.

Lemma diff_props_null_base object1 diff_of (todo : props) :
  loose_null object1 = true ->
  enumerable_props todo <> [] ->
  forall diff n,
    diff_props object1 diff_of todo diff n
    = Throw (TypeError "Cannot read properties of null or undefined").
Proof.
  intros Ho. induction todo as [|[[k a] x2] todo IH]; intros Hne diff n; [contradiction|].
  cbn [diff_props]. unfold enumerable_props in Hne. cbn [filter fst snd] in Hne.
  destruct (enumerable a).
  - destruct object1; try discriminate Ho; reflexivity.
  - apply IH. exact Hne.
Qed.

(** X6.  On a [null] or [undefined] base, [diffDeep] throws a [TypeError] as
    soon as [object2] has an enumerable property (and the depth is not
    negative): the loop reads [object1[parm]] before it looks at anything
    else. *)
Theorem diffDeep_throws_on_a_missing_base :
  forall object1 object2 depth next,
    loose_null object1 = true ->
    depth_negative (depth_or_default depth) = false ->
    for_in object2 <> [] ->
    diffDeep object1 object2 depth next
    = Throw (TypeError "Cannot read properties of null or undefined").
Proof.
  intros object1 object2 depth next Ho Hd Hne.
  destruct object2 as [| | | |s| |l c ps]; try (exfalso; apply Hne; reflexivity);
    cbn [diffDeep]; rewrite Hd; apply diff_props_null_base; auto.
  cbn [for_in] in Hne. rewrite string_props_enumerable. exact Hne.
Qed.

Lemma diffDeep_throws_on_a_missing_base_witness :
  diffDeep VUndef (VObj 0 CObject [("a", default_attrs, VNum 1)]) DUndefined 10
  = Throw (TypeError "Cannot read properties of null or undefined").
Proof.
  apply diffDeep_throws_on_a_missing_base; [reflexivity|reflexivity|discriminate].
Defined.

(** ** [makeImmutable], again and afterwards *)

Lemma makeImmutable_spec_idempotent (v : value) :
  makeImmutable_spec (makeImmutable_spec v) = makeImmutable_spec v.
Proof.
  induction v as [| | | | | |l c ps IH] using value_props_ind; try reflexivity.
  cbn [makeImmutable_spec]. f_equal. rewrite map_map.
  apply map_ext_in. intros [[k a] x] Hin.
  rewrite Forall_forall in IH. specialize (IH _ Hin). cbn [snd] in IH.
  destruct (skipped a x) eqn:Es; [rewrite Es; reflexivity|].
  unfold skipped in *. cbn [enumerable].
  destruct (isObject x) eqn:Eo.
  - destruct (makeImmutable_spec_class x) as [-> ->]. rewrite Es, Eo, IH. reflexivity.
  - rewrite Es, Eo. reflexivity.
Qed.

Lemma makeImmutable_spec_keys (l : loc) (c : cls) (ps : props) :
  match makeImmutable_spec (VObj l c ps) with
  | VObj _ _ ps' => keys ps' = keys ps
  | _ => False
  end.
Proof.
  cbn [makeImmutable_spec]. unfold keys. rewrite map_map. apply map_ext.
  intros [[k a] x]. destruct (skipped a x); reflexivity.
Qed.

Lemma makeImmutable_spec_well_formed (v : value) :
  well_formed v = true -> well_formed (makeImmutable_spec v) = true.
Proof.
  induction v as [| | | | | |l c ps IH] using value_props_ind; try (intros _; reflexivity).
  intros Hwf. pose proof (makeImmutable_spec_keys l c ps) as Hk.
  cbn [makeImmutable_spec] in *. cbn [well_formed] in *.
  apply andb_true_iff in Hwf as [Hd Hw]. rewrite Hk, Hd. cbn [andb].
  rewrite forallb_forall in *. intros e Hin.
  apply in_map_iff in Hin as [[[k a] x] [<- Hin]].
  rewrite Forall_forall in IH. specialize (IH _ Hin (Hw _ Hin)). cbn [snd] in IH.
  specialize (Hw _ Hin). cbn [snd] in Hw.
  destruct (skipped a x); cbn [snd]; [exact Hw|].
  destruct (isObject x); [exact IH|exact Hw].
Qed.

Lemma makeImmutable_object (v : value) :
  is_object v = true -> well_formed v = true ->
  makeImmutable v NoProperty VUndef = Ok (makeImmutable_spec v).
Proof.
  intros Ho Hwf. destruct v; try discriminate Ho. exact (makeImmutable_all_spec _ Hwf).
Qed.

Lemma makeImmutable_default (l : loc) (c : cls) (ps : props) :
  well_formed (VObj l c ps) = true ->
  makeImmutable (VObj l c ps) NoProperty VUndef = Ok (makeImmutable_spec (VObj l c ps)).
Proof. apply makeImmutable_object. reflexivity. Qed.

(** X7.  [makeImmutable] can be repeated: on the object a first call
    returned, a second call does not throw and returns the object as it
    is. *)
Theorem makeImmutable_twice :
  forall l c ps,
    well_formed (VObj l c ps) = true ->
    exists o,
      makeImmutable (VObj l c ps) NoProperty VUndef = Ok o
      /\ makeImmutable o NoProperty VUndef = Ok o.
Proof.
  intros l c ps Hwf. exists (makeImmutable_spec (VObj l c ps)).
  split; [exact (makeImmutable_default l c ps Hwf)|].
  rewrite makeImmutable_object, makeImmutable_spec_idempotent;
    [reflexivity|reflexivity|exact (makeImmutable_spec_well_formed _ Hwf)].
Qed.

Lemma makeImmutable_twice_witness :
  exists o,
    makeImmutable
      (VObj 0 CObject [("db", default_attrs, VObj 1 CObject [("port", default_attrs, VNum 5432)])])
      NoProperty VUndef = Ok o
    /\ makeImmutable o NoProperty VUndef = Ok o.
Proof. apply makeImmutable_twice. reflexivity. Defined.

Lemma own_makeImmutable_spec (l : loc) (c : cls) (ps : props) (k : string) :
  match makeImmutable_spec (VObj l c ps) with
  | VObj _ _ ps' =>
      own ps' k
      = match own ps k with
        | Some (a, x) =>
            if skipped a x then Some (a, x)
            else Some (mkAttrs false (enumerable a) false,
                       if isObject x then makeImmutable_spec x else x)
        | None => None
        end
  | _ => False
  end.
Proof.
  cbn [makeImmutable_spec]. induction ps as [|[[k' a] x] ps IH]; [reflexivity|].
  cbn [map own]. destruct (skipped a x) eqn:Es; cbn [own]; destruct (String.eqb k' k);
    rewrite ?Es; auto.
Qed.

Lemma assign_read_only (ps : props) (k : string) (a : attrs) (x v : value) :
  own ps k = Some (a, x) -> writable a = false -> assign ps k v = ps.
Proof.
  induction ps as [|[[k' a'] x'] ps IH]; simpl; [discriminate|].
  destruct (String.eqb k' k).
  - intros [= -> ->] ->. reflexivity.
  - intros H Hw. rewrite (IH H Hw). reflexivity.
Qed.

(** X8.  After [makeImmutable], an assignment (outside strict mode) to an
    enumerable property whose value is not a [RawConfig] does nothing: the
    object stays as it is. *)
Theorem makeImmutable_drops_later_writes :
  forall l c ps k a x v,
    well_formed (VObj l c ps) = true ->
    own ps k = Some (a, x) -> enumerable a = true -> instanceof_RawConfig x = false ->
    exists o,
      makeImmutable (VObj l c ps) NoProperty VUndef = Ok o
      /\ set_prop o k v = Ok o.
Proof.
  intros l c ps k a x v Hwf Hown He Hr.
  exists (makeImmutable_spec (VObj l c ps)).
  split; [exact (makeImmutable_default l c ps Hwf)|].
  pose proof (own_makeImmutable_spec l c ps k) as Ho.
  assert (Hs : skipped a x = false) by (unfold skipped; rewrite He, Hr; reflexivity).
  cbn [makeImmutable_spec] in *. rewrite Hown, Hs in Ho.
  cbn [set_prop]. rewrite (assign_read_only _ k _ _ v Ho eq_refl). reflexivity.
Qed.

Lemma makeImmutable_drops_later_writes_witness :
  exists o,
    makeImmutable (VObj 0 CObject [("port", default_attrs, VNum 5432)]) NoProperty VUndef = Ok o
    /\ set_prop o "port" (VNum 1) = Ok o.
Proof.
  apply (makeImmutable_drops_later_writes 0%nat CObject
           [("port", default_attrs, VNum 5432)] "port" default_attrs (VNum 5432) (VNum 1));
    reflexivity.
Defined.



(** ** Paths *)

Lemma append_empty (s : string) : (s ++ "")%string = s.
Proof. induction s as [|ch s IH]; simpl; [reflexivity|rewrite IH; reflexivity]. Qed.

Lemma split_on_nonempty (sep : ascii) (s : string) : split_on sep s <> [].
Proof.
  destruct s as [|ch s]; simpl; [discriminate|].
  destruct (Ascii.eqb ch sep); [discriminate|]. destruct (split_on sep s); discriminate.
Qed.

Lemma split_on_append (sep : ascii) (k s : string) :
  mentions sep k = false ->
  split_on sep (k ++ s)%string
  = match split_on sep s with
    | [] => [k]
    | piece :: pieces => (k ++ piece)%string :: pieces
    end.
Proof.
  induction k as [|ch k IH]; intros Hk.
  - simpl. pose proof (split_on_nonempty sep s) as Hne.
    destruct (split_on sep s); [contradiction|reflexivity].
  - simpl in Hk. apply orb_false_iff in Hk as [Hch Hk].
    cbn [append split_on]. rewrite Hch, (IH Hk).
    destruct (split_on sep s); reflexivity.
Qed.

(** Joining keys with the separator and splitting again gives the keys
    back, when no key holds the separator. *)
Lemma split_on_concat (sep : ascii) (ks : list string) :
  ks <> [] ->
  forallb (fun k => negb (mentions sep k)) ks = true ->
  split_on sep (String.concat (String sep EmptyString) ks) = ks.
Proof.
  induction ks as [|k ks IH]; intros Hne Hks; [contradiction|].
  cbn [forallb] in Hks. apply andb_true_iff in Hks as [Hk Hks].
  apply negb_true_iff in Hk.
  destruct ks as [|k2 ks].
  - cbn [String.concat]. rewrite <- (append_empty k) at 1.
    rewrite (split_on_append sep k "" Hk). cbn [split_on]. rewrite append_empty. reflexivity.
  - change (String.concat (String sep "") (k :: k2 :: ks))
      with (k ++ String sep (String.concat (String sep "") (k2 :: ks)))%string.
    rewrite (split_on_append sep k _ Hk). cbn [split_on]. rewrite Ascii.eqb_refl.
    rewrite append_empty. f_equal. apply IH; [discriminate|exact Hks].
Qed.

(** X10.  A dot-delimited path and the array of its keys select the same
    value: for keys that hold no dot, [getImpl] with the keys joined by dots
    and [getImpl] with the array of the keys return the same. *)
Theorem getImpl_string_and_array_paths_agree :
  forall object ks l ps,
    ks <> [] ->
    forallb (fun k => negb (mentions "."%char k)) ks = true ->
    map snd ps = map VStr ks ->
    getImpl object (VStr (String.concat "." ks)) = getImpl object (VObj l CArray ps).
Proof.
  intros object ks l ps Hne Hks Hps. unfold getImpl.
  cbn [path_elems isArray array_elements bind].
  rewrite (split_on_concat "."%char ks Hne Hks), Hps. reflexivity.
Qed.

Lemma getImpl_string_and_array_paths_agree_witness :
  getImpl (VObj 0 CObject [("db", default_attrs, VObj 1 CObject [("port", default_attrs, VNum 5432)])])
          (VStr (String.concat "." ["db"; "port"]))
  = getImpl (VObj 0 CObject [("db", default_attrs, VObj 1 CObject [("port", default_attrs, VNum 5432)])])
            (VObj 2 CArray [("0", default_attrs, VStr "db"); ("1", default_attrs, VStr "port")]).
Proof.
  apply getImpl_string_and_array_paths_agree; [discriminate|reflexivity|reflexivity].
Defined.

(** ** [get] *)

(** X11.  [get] returns the value stored at the path: when the keys before
    the last lead through objects to an object that holds a value other than
    [undefined] under the last key, [get] returns that value and [has]
    returns [true].  (Stated for a value that is not a [RawConfig], once the
    mutability check has been made.) *)
Theorem get_returns_the_stored_value :
  forall js_call allow st t property prefix k o_l o_c o_ps a v,
    path_elems property = Ok (map VStr (prefix ++ [k])%list) ->
    loose_null property = false ->
    descend t prefix = Some (VObj o_l o_c o_ps) ->
    own o_ps k = Some (a, v) ->
    strict_eq v VUndef = false ->
    instanceof_RawConfig v = false ->
    checkMutability st = false ->
    get js_call allow st t property = Ok (v, st)
    /\ has t property = Ok true.
Proof.
  intros js_call allow st t property prefix k l c ps a v Hpath Hnull Hdesc Hk Hv Hr Hst.
  assert (G : getImpl t property = Ok v).
  { unfold getImpl. rewrite Hpath. cbn [bind].
    rewrite (getImpl_elems_descend prefix t (VObj l c ps) k Hdesc). simpl.
    rewrite Hk. reflexivity. }
  assert (N : strict_eq property VNull || strict_eq property VUndef = false).
  { destruct property; try discriminate; reflexivity. }
  unfold get, has. rewrite N, G. cbn [bind]. rewrite Hv, Hst, Hr. split; reflexivity.
Qed.

Lemma get_returns_the_stored_value_witness :
  get (fun _ _ _ => Ok VUndef) VUndef (mkState VNull false)
      (VObj 0 CObject [("db", default_attrs, VObj 1 CObject [("port", default_attrs, VNum 0)])])
      (VStr "db.port")
  = Ok (VNum 0, mkState VNull false)
  /\ has (VObj 0 CObject [("db", default_attrs, VObj 1 CObject [("port", default_attrs, VNum 0)])])
         (VStr "db.port") = Ok true.
Proof.
  apply (get_returns_the_stored_value (fun _ _ _ => Ok VUndef) VUndef (mkState VNull false)
           (VObj 0 CObject [("db", default_attrs, VObj 1 CObject [("port", default_attrs, VNum 0)])])
           (VStr "db.port") ["db"] "port" 1%nat CObject [("port", default_attrs, VNum 0)]
           default_attrs (VNum 0)); reflexivity.
Defined.

(** X12.  The first successful [get] freezes the configuration: when
    mutations are not allowed and the check is still pending, the
    configuration object of the module is afterwards the immutable form of
    what it was, and the check is off; a successful [get] after that leaves
    the state of the module as it is. *)
Theorem first_get_freezes_the_configuration :
  forall js_call allow st t property v st',
    truthy allow = false ->
    checkMutability st = true ->
    is_object (config st) = true -> well_formed (config st) = true ->
    get js_call allow st t property = Ok (v, st') ->
    config st' = makeImmutable_spec (config st)
    /\ immutable (config st') = true
    /\ checkMutability st' = false
    /\ forall t2 property2 v2 st2,
         get js_call allow st' t2 property2 = Ok (v2, st2) -> st2 = st'.
Proof.
  intros js_call allow st t property v st' Hallow Hcheck Ho Hwf Hget.
  assert (Hst : st' = mkState (makeImmutable_spec (config st)) false).
  { unfold get in Hget.
    destruct (strict_eq property VNull || strict_eq property VUndef); [discriminate|].
    destruct (getImpl t property) as [val|]; [|discriminate]. cbn [bind] in Hget.
    destruct (strict_eq val VUndef); [discriminate|].
    rewrite Hcheck, Hallow in Hget. cbn [negb] in Hget.
    rewrite (makeImmutable_object _ Ho Hwf) in Hget. cbn [bind] in Hget.
    destruct (if instanceof_RawConfig val then call_method js_call val "resolve" [] else Ok val)
      as [val'|]; [|discriminate].
    cbn [bind] in Hget. injection Hget as _ <-. reflexivity. }
  subst st'. cbn [config checkMutability]. split; [reflexivity|].
  split; [apply makeImmutable_spec_immutable|]. split; [reflexivity|].
  intros t2 property2 v2 st2 H2. unfold get in H2.
  destruct (strict_eq property2 VNull || strict_eq property2 VUndef); [discriminate|].
  destruct (getImpl t2 property2) as [val|]; [|discriminate]. cbn [bind] in H2.
  destruct (strict_eq val VUndef); [discriminate|].
  cbn [checkMutability bind] in H2.
  destruct (if instanceof_RawConfig val then call_method js_call val "resolve" [] else Ok val)
    as [val'|]; [|discriminate].
  cbn [bind] in H2. injection H2 as _ <-. reflexivity.
Qed.

Lemma first_get_freezes_the_configuration_witness :
  config (mkState (VObj 0 CObject [("port", mkAttrs false true false, VNum 5432)]) false)
  = makeImmutable_spec
      (config (mkState (VObj 0 CObject [("port", default_attrs, VNum 5432)]) true))
  /\ immutable
       (config (mkState (VObj 0 CObject [("port", mkAttrs false true false, VNum 5432)]) false))
     = true
  /\ checkMutability
       (mkState (VObj 0 CObject [("port", mkAttrs false true false, VNum 5432)]) false)
     = false
  /\ forall t2 property2 v2 st2,
       get (fun _ _ _ => Ok VUndef) (VBool false)
           (mkState (VObj 0 CObject [("port", mkAttrs false true false, VNum 5432)]) false)
           t2 property2
       = Ok (v2, st2) ->
       st2 = mkState (VObj 0 CObject [("port", mkAttrs false true false, VNum 5432)]) false.
Proof.
  apply (first_get_freezes_the_configuration (fun _ _ _ => Ok VUndef) (VBool false)
           (mkState (VObj 0 CObject [("port", default_attrs, VNum 5432)]) true)
           (VObj 0 CObject [("port", default_attrs, VNum 5432)])
           (VStr "port") (VNum 5432)); reflexivity.
Defined.

(** ** [resolveDeferredConfigs] on a tree without deferred values *)

Lemma insert_sorted_In (x : string) (l : list string) (k : string) :
  In k (insert_sorted x l) -> k = x \/ In k l.
Proof.
  induction l as [|y l IH]; simpl; [intros [<-|[]]; auto|].
  destruct (String.leb x y); simpl; [intros [<-|H]; auto|].
  intros [<-|H]; [auto|]. destruct (IH H); auto.
Qed.

Lemma sort_In (ks : list string) (k : string) : In k (sort ks) -> In k ks.
Proof.
  induction ks as [|x ks IH]; simpl; [auto|].
  intros H. apply insert_sorted_In in H as [<-|H]; auto.
Qed.

Lemma fold_left_fixed {A B} (step : A -> B -> A) (l : list B) (x : A) :
  (forall b, In b l -> step x b = x) -> fold_left step l x = x.
Proof.
  induction l as [|b l IH]; intros H; [reflexivity|].
  simpl. rewrite (H b (or_introl eq_refl)). apply IH. intros b' Hin. apply H. right. exact Hin.
Qed.

Lemma store_unchanged (ps : props) (k : string) :
  store ps k (read ps k) = ps.
Proof.
  unfold read. induction ps as [|[[k' a] x] ps IH]; [reflexivity|].
  simpl. destruct (String.eqb k' k); [reflexivity|]. rewrite IH. reflexivity.
Qed.

Lemma store_in_unchanged (prop : value) (k : string) (v : value) :
  get_prop prop k = Ok v -> store_in prop k v = prop.
Proof.
  destruct prop as [| | | | | |l c ps]; try reflexivity.
  rewrite get_prop_read. intros [= <-]. cbn [store_in]. rewrite store_unchanged. reflexivity.
Qed.

Lemma get_prop_string (s k : string) (v : value) :
  get_prop (VStr s) k = Ok v -> is_object v = false.
Proof.
  cbn [get_prop]. destruct (String.eqb k "length"); [intros [= <-]; reflexivity|].
  generalize 0%nat. intros i.
  destruct (own (string_props i s) k) as [[a x]|] eqn:E; intros [= <-]; [|reflexivity].
  revert i E. induction s as [|ch s IH]; intros i E; [discriminate|].
  simpl in E. destruct (String.eqb (index_key i) k); [injection E as _ <-; reflexivity|].
  exact (IH _ E).
Qed.

Lemma height_read (l : loc) (c : cls) (ps : props) (k : string) :
  (height (read ps k) < height (VObj l c ps))%nat.
Proof.
  unfold read. destruct (own ps k) as [[a x]|] eqn:E.
  - apply Nat.lt_succ_r. exact (height_own l c ps k a x _ (Nat.le_refl _) E).
  - simpl. apply Nat.lt_0_succ.
Qed.

Lemma json_like_read_or_undefined (l : loc) (c : cls) (ps : props) (k : string) :
  json_like (VObj l c ps) = true ->
  json_like (read ps k) = true \/ read ps k = VUndef.
Proof.
  intros Hj. destruct (json_like_read l c ps k Hj) as [E|[a [_ H]]]; [|auto].
  right. unfold read. rewrite E. reflexivity.
Qed.

Section ResolvePlain.

Variable js_call : nat -> value -> list value -> result value.

Lemma _iterate_plain (fuel : nat) :
  forall root_with prop,
    json_like prop = true \/ prop = VUndef ->
    (height prop < fuel)%nat ->
    _iterate js_call fuel root_with prop = Some (Ok prop).
Proof.
  induction fuel as [|fuel IH]; intros root_with prop Hj Hh; [inversion Hh|].
  cbn [_iterate]. apply fold_left_fixed. intros k Hin.
  apply sort_In in Hin. apply filter_In in Hin as [Hin Hk].
  destruct (get_prop prop k) as [v|e] eqn:Ev; [|rewrite andb_false_r in Hk; discriminate].
  destruct v as [| | | | | |vl vc vps]; try reflexivity.
  destruct prop as [| | | |s| |l c ps];
    try (destruct Hin; fail);
    try (apply get_prop_string in Ev; discriminate Ev).
  destruct Hj as [Hj|Hj]; [|discriminate Hj].
  rewrite get_prop_read in Ev. injection Ev as Ev.
  pose proof (height_read l c ps k) as Hhv. rewrite Ev in Hhv.
  destruct (json_like_read_or_undefined l c ps k Hj) as [Hjv|Hjv]; rewrite Ev in Hjv;
    [|discriminate Hjv].
  assert (Hfuel : (height (VObj vl vc vps) < fuel)%nat).
  { clear -Hhv Hh. lia. }
  assert (Hstore : store_in (VObj l c ps) k (VObj vl vc vps) = VObj l c ps).
  { apply store_in_unchanged. rewrite get_prop_read, Ev. reflexivity. }
  destruct (json_like_inv _ _ _ Hjv) as [[-> | ->] _].
  - cbn [constructor_is_Object]. rewrite (IH _ _ (or_introl Hjv) Hfuel), Hstore. reflexivity.
  - cbn [constructor_is_Object constructor_is_Array isArray].
    rewrite fold_left_fixed; [rewrite Hstore; reflexivity|].
    intros i _. rewrite get_prop_read.
    rewrite IH; [rewrite store_in_unchanged; [reflexivity|apply get_prop_read]| |].
    + apply (json_like_read_or_undefined vl CArray vps). exact Hjv.
    + exact (Nat.lt_trans _ _ _ (height_read vl CArray vps (index_key i)) Hfuel).
Qed.

End ResolvePlain.



(** ** [resolveDeferredConfigs] on a deferred value held by the root *)

Lemma insert_sorted_In_iff (x : string) (l : list string) (k : string) :
  In k (insert_sorted x l) <-> k = x \/ In k l.
Proof.
  split; [apply insert_sorted_In|].
  induction l as [|y l IH]; simpl.
  - intros [->|[]]. left. reflexivity.
  - destruct (String.leb x y); simpl.
    + intros [->|[->|H]]; auto.
    + intros [->|[->|H]]; auto.
Qed.

Lemma insert_sorted_NoDup (x : string) (l : list string) :
  ~ In x l -> NoDup l -> NoDup (insert_sorted x l).
Proof.
  induction l as [|y l IH]; intros Hx Hl; simpl.
  - constructor; [intros []|constructor].
  - destruct (String.leb x y).
    + constructor; assumption.
    + apply NoDup_cons_iff in Hl as [Hy Hl]. constructor.
      * intros H. apply insert_sorted_In in H as [->|H]; [apply Hx; left; reflexivity|].
        exact (Hy H).
      * apply IH; [|exact Hl]. intros H. apply Hx. right. exact H.
Qed.

Lemma sort_In_iff (ks : list string) (k : string) : In k (sort ks) <-> In k ks.
Proof.
  induction ks as [|x ks IH]; simpl; [tauto|].
  rewrite insert_sorted_In_iff, IH. split; intros [H|H]; auto.
Qed.

Lemma sort_NoDup (ks : list string) : NoDup ks -> NoDup (sort ks).
Proof.
  induction 1 as [|x ks Hx _ IH]; simpl; [constructor|].
  apply insert_sorted_NoDup; [|exact IH]. rewrite sort_In_iff. exact Hx.
Qed.

Lemma fold_left_once {A B} (step : A -> B -> A) (l : list B) (k : B) (x y : A) :
  In k l -> NoDup l ->
  (forall b, In b l -> b <> k -> step x b = x) ->
  step x k = y ->
  (forall b, In b l -> b <> k -> step y b = y) ->
  fold_left step l x = y.
Proof.
  intros Hin Hnd Hx Hk Hy. apply in_split in Hin as [pre [post ->]].
  pose proof (NoDup_remove_2 _ _ _ Hnd) as Hnot.
  rewrite fold_left_app. cbn [fold_left].
  rewrite (fold_left_fixed step pre x).
  - rewrite Hk. apply fold_left_fixed. intros b Hb. apply Hy.
    + apply in_or_app. right. right. exact Hb.
    + intros ->. apply Hnot. apply in_or_app. right. exact Hb.
  - intros b Hb. apply Hx.
    + apply in_or_app. left. exact Hb.
    + intros ->. apply Hnot. apply in_or_app. left. exact Hb.
Qed.



(** ** [makeHidden] *)

Lemma define_own_present (ps : props) (k : string) (d : descriptor) (a : attrs) (x : value) :
  own ps k = Some (a, x) ->
  match apply_descriptor a x d with
  | Some (a', x') =>
      exists ps', define_own ps k d = Some ps'
                  /\ own ps' k = Some (a', x') /\ keys ps' = keys ps
  | None => define_own ps k d = None
  end.
Proof.
  induction ps as [|[[k' a0] x0] ps IH]; simpl; [discriminate|].
  destruct (String.eqb k' k) eqn:E.
  - intros [= -> ->]. destruct (apply_descriptor a x d) as [[a' x']|]; [|reflexivity].
    eexists. split; [reflexivity|]. simpl. rewrite E. auto.
  - intros H. specialize (IH H). destruct (apply_descriptor a x d) as [[a' x']|].
    + destruct IH as [ps' [-> [Ho Hk]]]. eexists. split; [reflexivity|].
      simpl. rewrite E, Hk. auto.
    + rewrite IH. reflexivity.
Qed.

Lemma define_own_absent (ps : props) (k : string) (d : descriptor) :
  own ps k = None ->
  define_own ps k d
  = Some (ps ++ [(k,
                  mkAttrs (opt_default (d_writable d) false)
                          (opt_default (d_enumerable d) false)
                          (opt_default (d_configurable d) false),
                  opt_default (d_value d) VUndef)]).
Proof.
  induction ps as [|[[k' a0] x0] ps IH]; simpl; [reflexivity|].
  destruct (String.eqb k' k); [discriminate|]. intros H. rewrite (IH H). reflexivity.
Qed.

Lemma hidden_not_enumerated (ps : props) (k : string) (a : attrs) (x : value) :
  distinct (keys ps) = true -> own ps k = Some (a, x) -> enumerable a = false ->
  ~ In k (Object_keys ps).
Proof.
  intros Hd Hown He Hin. unfold Object_keys in Hin.
  apply keys_In in Hin as [a2 [x2 Hin]]. apply filter_In in Hin as [Hin He2].
  rewrite (own_of_distinct ps k a2 x2 Hd Hin) in Hown. injection Hown as -> _.
  cbn [fst snd] in He2. rewrite He in He2. discriminate He2.
Qed.

Lemma strict_eq_sym (a b : value) : strict_eq a b = strict_eq b a.
Proof.
  destruct a as [| |x|x|x|x|x ? ?], b as [| |y|y|y|y|y ? ?]; simpl; try reflexivity.
  - destruct x, y; reflexivity.
  - apply Z.eqb_sym.
  - apply String.eqb_sym.
  - apply Nat.eqb_sym.
  - apply Nat.eqb_sym.
Qed.

Lemma makeHidden_descriptor (object : value) (k : string) (v : value) :
  makeHidden object k v
  = defineProperty object k
      (mkDesc (match v with VUndef => None | _ => Some v end) None (Some false) None).
Proof. destruct v; reflexivity. Qed.

(** X15.  [makeHidden] on a configurable property takes the property out of
    the enumeration and leaves it readable: [Object.keys] no longer lists
    it, a read gives the value passed (or the value it had, when none is
    passed), and every other property is as it was. *)
Theorem makeHidden_hides_a_property :
  forall l c ps k a x v,
    distinct (keys ps) = true ->
    own ps k = Some (a, x) -> configurable a = true ->
    exists ps',
      makeHidden (VObj l c ps) k v = Ok (VObj l c ps')
      /\ ~ In k (Object_keys ps')
      /\ get_prop (VObj l c ps') k = Ok (match v with VUndef => x | _ => v end)
      /\ forall k', k <> k' -> own ps' k' = own ps k'.
Proof.
  intros l c ps k a x v Hd Hown Hc. rewrite makeHidden_descriptor. cbn [defineProperty].
  pose proof (define_own_present ps k
                (mkDesc (match v with VUndef => None | _ => Some v end) None (Some false) None)
                a x Hown) as H.
  unfold apply_descriptor in H. rewrite Hc in H. cbn [negb andb] in H.
  destruct H as [ps' [E [Ho Hk]]]. rewrite E. exists ps'. split; [reflexivity|].
  split; [|split].
  - eapply hidden_not_enumerated; [rewrite Hk; exact Hd|exact Ho|reflexivity].
  - cbn [get_prop]. rewrite Ho. destruct v; reflexivity.
  - intros k' Hne. eapply own_define_other; eassumption.
Qed.

Lemma makeHidden_hides_a_property_witness :
  exists ps',
    makeHidden (VObj 0 CObject [("a", default_attrs, VNum 1); ("b", default_attrs, VNum 2)])
      "a" VUndef
    = Ok (VObj 0 CObject ps')
    /\ ~ In "a" (Object_keys ps')
    /\ get_prop (VObj 0 CObject ps') "a" = Ok (match VUndef with VUndef => VNum 1 | _ => VUndef end)
    /\ forall k', "a" <> k' ->
                  own ps' k' = own [("a", default_attrs, VNum 1); ("b", default_attrs, VNum 2)] k'.
Proof.
  apply (makeHidden_hides_a_property 0%nat CObject
           [("a", default_attrs, VNum 1); ("b", default_attrs, VNum 2)]
           "a" default_attrs (VNum 1) VUndef); reflexivity.
Defined.

(** X16.  A property that [makeHidden] creates is read-only as well as
    hidden: on a key the object lacks, the new property is not writable and
    not configurable, so that a second [makeHidden] of the key with another
    value throws a [TypeError]. *)
Theorem makeHidden_creates_a_read_only_property :
  forall l c ps k v1 v2,
    own ps k = None ->
    strict_eq v2 VUndef = false -> strict_eq v1 v2 = false ->
    makeHidden (VObj l c ps) k v1
    = Ok (VObj l c (ps ++ [(k, mkAttrs false false false, v1)]))
    /\ (let* o := makeHidden (VObj l c ps) k v1 in makeHidden o k v2)
       = Throw (TypeError "Cannot redefine property").
Proof.
  intros l c ps k v1 v2 Hown Hv2 Hne.
  assert (E : makeHidden (VObj l c ps) k v1
              = Ok (VObj l c (ps ++ [(k, mkAttrs false false false, v1)]))).
  { rewrite makeHidden_descriptor. cbn [defineProperty].
    rewrite (define_own_absent ps k _ Hown). destruct v1; reflexivity. }
  split; [exact E|]. rewrite E. cbn [bind].
  rewrite makeHidden_descriptor. cbn [defineProperty].
  pose proof (define_own_present (ps ++ [(k, mkAttrs false false false, v1)]) k
                (mkDesc (match v2 with VUndef => None | _ => Some v2 end) None (Some false) None)
                (mkAttrs false false false) v1 (own_snoc ps k _ v1 Hown)) as H.
  assert (Hs : same_value v2 v1 = false).
  { unfold same_value. rewrite strict_eq_sym. exact Hne. }
  unfold apply_descriptor in H. cbn [configurable writable enumerable negb andb orb
    d_configurable d_enumerable d_writable d_value opt_default Bool.eqb] in H.
  destruct v2; try discriminate Hv2; cbn [d_value] in H; rewrite Hs in H; cbn in H;
    rewrite H; reflexivity.
Qed.

Lemma makeHidden_creates_a_read_only_property_witness :
  makeHidden (VObj 0 CObject []) "__watchers" (VNum 1)
  = Ok (VObj 0 CObject ([] ++ [("__watchers", mkAttrs false false false, VNum 1)]))
  /\ (let* o := makeHidden (VObj 0 CObject []) "__watchers" (VNum 1) in
      makeHidden o "__watchers" (VNum 2))
     = Throw (TypeError "Cannot redefine property").
Proof. apply makeHidden_creates_a_read_only_property; reflexivity. Defined.

(** X17.  [makeHidden] after [makeImmutable] throws: a property that
    [makeImmutable] froze while it was enumerable can no longer be hidden. *)
Theorem makeHidden_throws_on_a_frozen_property :
  forall l c ps k a x v,
    well_formed (VObj l c ps) = true ->
    own ps k = Some (a, x) -> enumerable a = true -> instanceof_RawConfig x = false ->
    (let* o := makeImmutable (VObj l c ps) NoProperty VUndef in makeHidden o k v)
    = Throw (TypeError "Cannot redefine property").
Proof.
  intros l c ps k a x v Hwf Hown He Hr.
  rewrite (makeImmutable_default l c ps Hwf). cbn [bind].
  pose proof (own_makeImmutable_spec l c ps k) as Ho.
  assert (Hs : skipped a x = false) by (unfold skipped; rewrite He, Hr; reflexivity).
  cbn [makeImmutable_spec] in *. rewrite Hown, Hs in Ho.
  rewrite makeHidden_descriptor. cbn [defineProperty].
  pose proof (define_own_present _ k
                (mkDesc (match v with VUndef => None | _ => Some v end) None (Some false) None)
                _ _ Ho) as H.
  unfold apply_descriptor in H.
  cbn [configurable writable enumerable negb andb orb
       d_configurable d_enumerable d_writable opt_default] in H.
  rewrite He in H. cbn in H. rewrite H. reflexivity.
Qed.

Lemma makeHidden_throws_on_a_frozen_property_witness :
  (let* o := makeImmutable (VObj 0 CObject [("a", default_attrs, VNum 1)]) NoProperty VUndef in
   makeHidden o "a" VUndef)
  = Throw (TypeError "Cannot redefine property").
Proof.
  apply (makeHidden_throws_on_a_frozen_property 0%nat CObject [("a", default_attrs, VNum 1)]
           "a" default_attrs (VNum 1) VUndef); reflexivity.
Defined.

(** ** The command line and the environment *)

Lemma prefix_append (s t : string) : String.prefix s (s ++ t)%string = true.
Proof.
  induction s as [|ch s IH]; simpl; [destruct t; reflexivity|].
  destruct (ascii_dec ch ch) as [_|Hne]; [exact IH|contradiction].
Qed.

Lemma substr_append (s t : string) : substr (s ++ t)%string (String.length s) = t.
Proof. induction s as [|ch s IH]; simpl; [destruct t; reflexivity|exact IH]. Qed.

Lemma append_associative (a b c : string) : ((a ++ b) ++ c)%string = (a ++ (b ++ c))%string.
Proof. induction a as [|ch a IH]; simpl; [reflexivity|rewrite IH; reflexivity]. Qed.

Lemma getCmdLineArg_scan (a0 a1 : string) (args : list string) (name : string) :
  getCmdLineArg (a0 :: a1 :: args) name
  = match find (String.prefix ("--" ++ name ++ "=")%string) args with
    | Some arg => VStr (substr arg (String.length ("--" ++ name ++ "=")%string))
    | None => VBool false
    end.
Proof.
  unfold getCmdLineArg. cbn [skipn].
  induction args as [|arg args IH]; [reflexivity|].
  cbn [find]. destruct (String.prefix _ arg); [reflexivity|exact IH].
Qed.

Lemma find_first {A} (f : A -> bool) (pre : list A) (x : A) (post : list A) :
  forallb (fun a => negb (f a)) pre = true -> f x = true ->
  find f (pre ++ x :: post) = Some x.
Proof.
  induction pre as [|a pre IH]; simpl; intros Hpre Hx; [rewrite Hx; reflexivity|].
  apply andb_true_iff in Hpre as [Ha Hpre]. apply negb_true_iff in Ha.
  rewrite Ha. exact (IH Hpre Hx).
Qed.

Lemma find_none {A} (f : A -> bool) (l : list A) :
  forallb (fun a => negb (f a)) l = true -> find f l = None.
Proof.
  induction l as [|a l IH]; simpl; [reflexivity|]. intros H.
  apply andb_true_iff in H as [Ha H]. apply negb_true_iff in Ha. rewrite Ha. exact (IH H).
Qed.

(** X18.  [getCmdLineArg] returns the value of the first argument of the
    form [--NAME=value] after the first two entries of [process.argv]:
    whatever follows the first [=] is the value, and later arguments of the
    same name are not looked at. *)
Theorem getCmdLineArg_finds_the_first_argument :
  forall a0 a1 pre post name v,
    forallb (fun arg => negb (String.prefix ("--" ++ name ++ "=")%string arg)) pre = true ->
    getCmdLineArg (a0 :: a1 :: pre ++ ("--" ++ name ++ "=" ++ v)%string :: post) name
    = VStr v.
Proof.
  intros a0 a1 pre post name v Hpre. rewrite getCmdLineArg_scan.
  assert (E : ("--" ++ name ++ "=" ++ v)%string = (("--" ++ name ++ "=") ++ v)%string).
  { rewrite !append_associative. reflexivity. }
  rewrite E, (find_first _ pre _ post Hpre (prefix_append _ v)), substr_append. reflexivity.
Qed.

Lemma getCmdLineArg_finds_the_first_argument_witness :
  getCmdLineArg
    ("node" :: "app.js" :: ["--verbose"] ++ ("--" ++ "NODE_ENV" ++ "=" ++ "a=b")%string
       :: ["--NODE_ENV=later"])
    "NODE_ENV"
  = VStr "a=b".
Proof. apply getCmdLineArg_finds_the_first_argument. reflexivity. Defined.

Lemma getEnv_initParam (argv : list string) (process_env : list (string * string))
    (env : props) (name : string) (d : value) :
  all_props writable_configurable env = true ->
  getEnv (snd (initParam argv process_env env name d)) name
  = fst (initParam argv process_env env name d).
Proof.
  intros Hu. unfold initParam, getEnv, read. cbn [fst snd].
  destruct (own_assign_same env name
              (js_or (js_or (getCmdLineArg argv name) (process_env_get process_env name)) d) Hu)
    as [a ->]. reflexivity.
Qed.

(** X19.  [initParam] prefers the command line: when the first argument
    of the form [--NAME=value] has a value that is not empty, that value is
    returned whatever the process environment and the default are, and
    [getEnv] of the name gives it back afterwards. *)
Theorem initParam_prefers_the_command_line :
  forall a0 a1 pre v post process_env env name d,
    all_props writable_configurable env = true ->
    forallb (fun arg => negb (String.prefix ("--" ++ name ++ "=")%string arg)) pre = true ->
    String.eqb v "" = false ->
    fst (initParam (a0 :: a1 :: pre ++ ("--" ++ name ++ "=" ++ v)%string :: post)
           process_env env name d)
    = VStr v
    /\ getEnv (snd (initParam (a0 :: a1 :: pre ++ ("--" ++ name ++ "=" ++ v)%string :: post)
                      process_env env name d)) name
       = VStr v.
Proof.
  intros a0 a1 pre v post process_env env name d Hu Hpre Hv.
  rewrite (getEnv_initParam _ _ _ _ _ Hu).
  assert (E : fst (initParam (a0 :: a1 :: pre ++ ("--" ++ name ++ "=" ++ v)%string :: post)
                     process_env env name d) = VStr v).
  { unfold initParam. cbn [fst]. rewrite getCmdLineArg_scan.
    assert (E : ("--" ++ name ++ "=" ++ v)%string = (("--" ++ name ++ "=") ++ v)%string).
    { rewrite !append_associative. reflexivity. }
    rewrite E, (find_first _ pre _ post Hpre (prefix_append _ v)), substr_append.
    unfold js_or. cbn [truthy]. rewrite Hv. cbn [negb truthy]. rewrite Hv. reflexivity. }
  split; exact E.
Qed.

Lemma initParam_prefers_the_command_line_witness :
  fst (initParam ("node" :: "app.js" :: ["--verbose"]
                    ++ ("--" ++ "NODE_ENV" ++ "=" ++ "stage")%string :: ["--NODE_ENV=later"])
         [("NODE_ENV", "prod")] [] "NODE_ENV" (VStr "development"))
  = VStr "stage"
  /\ getEnv (snd (initParam ("node" :: "app.js" :: ["--verbose"]
                               ++ ("--" ++ "NODE_ENV" ++ "=" ++ "stage")%string
                               :: ["--NODE_ENV=later"])
                    [("NODE_ENV", "prod")] [] "NODE_ENV" (VStr "development"))) "NODE_ENV"
     = VStr "stage".
Proof. apply initParam_prefers_the_command_line; reflexivity. Defined.

(** X20.  Without a command-line value [initParam] falls back to the process
    environment and then to the default, an empty string counting as absent
    in both places: when every argument either does not start with
    [--NAME=] or is exactly [--NAME=], the result is the environment
    variable if it is set and not empty, and the default otherwise; and
    [getEnv] of the name gives the result back. *)
Theorem initParam_falls_back_to_the_environment :
  forall a0 a1 args process_env env name d,
    all_props writable_configurable env = true ->
    forallb (fun arg => negb (String.prefix ("--" ++ name ++ "=")%string arg)
                        || String.eqb arg ("--" ++ name ++ "=")%string) args = true ->
    fst (initParam (a0 :: a1 :: args) process_env env name d)
    = match process_env_get process_env name with
      | VStr e => if String.eqb e "" then d else VStr e
      | _ => d
      end
    /\ getEnv (snd (initParam (a0 :: a1 :: args) process_env env name d)) name
       = fst (initParam (a0 :: a1 :: args) process_env env name d).
Proof.
  intros a0 a1 args process_env env name d Hu Hargs.
  split; [|apply getEnv_initParam; exact Hu].
  unfold initParam. cbn [fst]. rewrite getCmdLineArg_scan.
  assert (Hcmd : truthy match find (String.prefix ("--" ++ name ++ "=")%string) args with
                        | Some arg =>
                            VStr (substr arg (String.length ("--" ++ name ++ "=")%string))
                        | None => VBool false
                        end = false).
  { induction args as [|arg args IH]; [reflexivity|].
    cbn [forallb] in Hargs. apply andb_true_iff in Hargs as [Ha Hargs].
    cbn [find]. destruct (String.prefix _ arg) eqn:Ep; [|exact (IH Hargs)].
    cbn [negb orb] in Ha. apply String.eqb_eq in Ha. subst arg.
    rewrite <- (append_empty ("--" ++ name ++ "=")%string) at 1.
    rewrite substr_append. reflexivity. }
  unfold js_or at 2. rewrite Hcmd.
  unfold js_or, process_env_get.
  destruct (find _ process_env) as [[k e]|]; [|reflexivity].
  cbn [truthy]. destruct (String.eqb e ""); reflexivity.
Qed.

Lemma initParam_falls_back_to_the_environment_witness :
  fst (initParam ("node" :: "app.js" :: ["--verbose"; "--NODE_ENV="])
         [("NODE_ENV", "prod")] [] "NODE_ENV" (VStr "development"))
  = match process_env_get [("NODE_ENV", "prod")] "NODE_ENV" with
    | VStr e => if String.eqb e "" then VStr "development" else VStr e
    | _ => VStr "development"
    end
  /\ getEnv (snd (initParam ("node" :: "app.js" :: ["--verbose"; "--NODE_ENV="])
                    [("NODE_ENV", "prod")] [] "NODE_ENV" (VStr "development"))) "NODE_ENV"
     = fst (initParam ("node" :: "app.js" :: ["--verbose"; "--NODE_ENV="])
              [("NODE_ENV", "prod")] [] "NODE_ENV" (VStr "development")).
Proof. apply initParam_falls_back_to_the_environment; reflexivity. Defined.

(** X21.  Any non-empty value of [ALLOW_CONFIG_MUTATIONS] allows mutations,
    the strings ["false"] and ["0"] included: when the environment binds the
    name to a non-empty string (and the command line does not give it), a
    successful [get] leaves the configuration object as it is, unfrozen, and
    switches the check off. *)
Theorem get_does_not_freeze_when_mutations_are_allowed :
  forall js_call a0 a1 args process_env env e st t property v st',
    forallb (fun arg => negb (String.prefix "--ALLOW_CONFIG_MUTATIONS=" arg)) args = true ->
    process_env_get process_env "ALLOW_CONFIG_MUTATIONS" = VStr e ->
    String.eqb e "" = false ->
    get js_call
        (fst (initParam (a0 :: a1 :: args) process_env env "ALLOW_CONFIG_MUTATIONS" (VBool false)))
        st t property
    = Ok (v, st') ->
    config st' = config st /\ checkMutability st' = false.
Proof.
  intros js_call a0 a1 args process_env env e st t property v st' Hargs He Hne Hget.
  assert (Hallow : fst (initParam (a0 :: a1 :: args) process_env env
                          "ALLOW_CONFIG_MUTATIONS" (VBool false)) = VStr e).
  { unfold initParam. cbn [fst]. rewrite getCmdLineArg_scan.
    change ("--" ++ "ALLOW_CONFIG_MUTATIONS" ++ "=")%string with "--ALLOW_CONFIG_MUTATIONS=".
    rewrite (find_none _ args Hargs), He.
    unfold js_or. cbn [truthy]. rewrite Hne. reflexivity. }
  rewrite Hallow in Hget. unfold get in Hget.
  destruct (strict_eq property VNull || strict_eq property VUndef); [discriminate|].
  destruct (getImpl t property) as [val|]; [|discriminate]. cbn [bind] in Hget.
  destruct (strict_eq val VUndef); [discriminate|].
  cbn [truthy] in Hget. rewrite Hne in Hget. cbn [negb] in Hget.
  destruct (checkMutability st) eqn:Ec; cbn [bind] in Hget;
    destruct (if instanceof_RawConfig val then call_method js_call val "resolve" [] else Ok val)
      as [val'|]; try discriminate;
    cbn [bind] in Hget; injection Hget as _ <-; auto.
Qed.

Lemma get_does_not_freeze_when_mutations_are_allowed_witness :
  config (mkState (VObj 0 CObject [("port", default_attrs, VNum 1)]) false)
  = config (mkState (VObj 0 CObject [("port", default_attrs, VNum 1)]) true)
  /\ checkMutability (mkState (VObj 0 CObject [("port", default_attrs, VNum 1)]) false) = false.
Proof.
  apply (get_does_not_freeze_when_mutations_are_allowed (fun _ _ _ => Ok VUndef)
           "node" "app.js" [] [("ALLOW_CONFIG_MUTATIONS", "false")] [] "false"
           (mkState (VObj 0 CObject [("port", default_attrs, VNum 1)]) true)
           (VObj 0 CObject [("port", default_attrs, VNum 1)]) (VStr "port") (VNum 1));
    reflexivity.
Defined.

(** ** [setPath] *)

Lemma own_assign_writable (ps : props) (k : string) (v : value) :
  match own ps k with Some (a, _) => writable a | None => true end = true ->
  exists a, own (assign ps k v) k = Some (a, v).
Proof.
  induction ps as [|[[k' a'] x'] ps IH]; simpl.
  - intros _. rewrite String.eqb_refl. eauto.
  - destruct (String.eqb k' k) eqn:E.
    + intros ->. simpl. rewrite E. eauto.
    + intros H. simpl. rewrite E. exact (IH H).
Qed.

Lemma setPath_last (object : value) (key : string) (val : value) (next : loc) :
  strict_eq val VNull = false ->
  setPath object [key] val next
  = let* object := set_prop object key val in Ok (object, next).
Proof. intros H. cbn [setPath]. rewrite H. reflexivity. Qed.

Lemma setPath_step (object : value) (key k2 : string) (rest : list string) (val : value)
    (next : loc) :
  strict_eq val VNull = false ->
  setPath object (key :: k2 :: rest) val next
  = let* has := has_own_property object key in
    let* '(object, next) :=
      if negb has then
        let* object := set_prop object key (VObj next CObject []) in
        Ok (object, S next)
      else Ok (object, next) in
    let* child := get_prop object key in
    let* '(child, next) := setPath child (k2 :: rest) val next in
    Ok (store_in object key child, next).
Proof. intros H. cbn [setPath]. rewrite H. reflexivity. Qed.

Lemma setPath_null (object : value) (path : list string) (next : loc) :
  setPath object path VNull next = Ok (object, next).
Proof. destruct path; reflexivity. Qed.

Lemma setPath_object (l : loc) (c : cls) (ps : props) (path : list string) (val : value)
    (next : loc) (o' : value) (next' : loc) :
  setPath (VObj l c ps) path val next = Ok (o', next') -> exists ps', o' = VObj l c ps'.
Proof.
  destruct (strict_eq val VNull) eqn:Hval.
  { destruct val; try discriminate Hval. rewrite setPath_null. intros [= <- _]. eauto. }
  destruct path as [|key [|k2 rest]].
  - cbn [setPath]. rewrite Hval. intros [= <- _]. eauto.
  - rewrite (setPath_last _ _ _ _ Hval). cbn [set_prop bind]. intros [= <- _]. eauto.
  - rewrite (setPath_step _ _ _ _ _ _ Hval). cbn [has_own_property bind].
    destruct (negb (hasOwnProperty (VObj l c ps) key)); cbn [set_prop bind];
      match goal with
      | |- bind (get_prop ?o ?k) _ = _ -> _ =>
          destruct (get_prop o k) as [child|]; [|discriminate]
      end;
      cbn [bind];
      match goal with
      | |- bind (setPath ?ch ?p ?v ?n) _ = _ -> _ =>
          destruct (setPath ch p v n) as [[child' n']|]; [|discriminate]
      end;
      cbn [bind store_in]; intros [= <- _]; eauto.
Qed.

Lemma hasOwnProperty_own (l : loc) (c : cls) (ps : props) (k : string) :
  hasOwnProperty (VObj l c ps) k = match own ps k with Some _ => true | None => false end.
Proof.
  unfold hasOwnProperty, getOwnPropertyDescriptor.
  destruct (own ps k) as [[a x]|]; reflexivity.
Qed.



(** X23.  [setPath] throws a [TypeError] when a key before the last holds
    [null] or [undefined] (and the value to set is not [null]): the key
    exists, so nothing is created, and the walk goes on into the value. *)
Theorem setPath_throws_through_null :
  forall l c ps key a x k2 rest val next,
    own ps key = Some (a, x) -> loose_null x = true ->
    strict_eq val VNull = false ->
    exists msg,
      setPath (VObj l c ps) (key :: k2 :: rest) val next = Throw (TypeError msg).
Proof.
  intros l c ps key a x k2 rest val next Hown Hx Hval.
  rewrite (setPath_step _ _ _ _ _ _ Hval). cbn [has_own_property bind].
  rewrite hasOwnProperty_own, Hown. cbn [negb bind]. rewrite get_prop_read.
  unfold read. rewrite Hown. cbn [bind].
  destruct rest as [|k3 rest];
    [rewrite (setPath_last _ _ _ _ Hval)|rewrite (setPath_step _ _ _ _ _ _ Hval)];
    destruct x; try discriminate Hx; cbn [set_prop has_own_property bind]; eauto.
Qed.

Lemma setPath_throws_through_null_witness :
  exists msg,
    setPath (VObj 0 CObject [("db", default_attrs, VNull)]) ("db" :: "host" :: []) (VStr "h") 10
    = Throw (TypeError msg).
Proof.
  apply (setPath_throws_through_null 0%nat CObject [("db", default_attrs, VNull)]
           "db" default_attrs VNull); reflexivity.
Defined.



(** ** [attachProtoDeep] *)

Lemma own_app (p1 p2 : props) (k : string) :
  own (p1 ++ p2) k = match own p1 k with Some r => Some r | None => own p2 k end.
Proof.
  induction p1 as [|[[k' a] x] p1 IH]; simpl; [reflexivity|].
  destruct (String.eqb k' k); [reflexivity|exact IH].
Qed.

Lemma replace_falsy_key (members : props) (e : string * attrs * value) :
  fst (fst (replace_falsy members e)) = fst (fst e).
Proof.
  destruct e as [[k a] x]. unfold replace_falsy.
  destruct (own members k) as [[am member]|]; [|reflexivity].
  destruct (truthy x); reflexivity.
Qed.

Lemma keys_replace_falsy (members ps : props) :
  keys (map (replace_falsy members) ps) = keys ps.
Proof.
  unfold keys. rewrite map_map. apply map_ext. intros e. apply replace_falsy_key.
Qed.

Lemma replace_falsy_other (done : props) (m : string) (am : attrs) (f : value)
    (k : string) (a : attrs) (x : value) :
  k <> m -> replace_falsy (done ++ [(m, am, f)]) (k, a, x) = replace_falsy done (k, a, x).
Proof.
  intros Hne. unfold replace_falsy. rewrite own_app. cbn [own].
  destruct (own done k) as [[ad member]|]; [reflexivity|].
  destruct (String.eqb_spec m k) as [E|_]; [exfalso; apply Hne; symmetry; exact E|reflexivity].
Qed.

Lemma replace_falsy_absent (done : props) (k : string) (a : attrs) (x : value) :
  own done k = None -> replace_falsy done (k, a, x) = (k, a, x).
Proof. intros H. unfold replace_falsy. rewrite H. reflexivity. Qed.

Lemma missing_members_snoc (done ps : props) (e : string * attrs * value) :
  missing_members (done ++ [e]) ps
  = missing_members done ps
    ++ match own ps (fst (fst e)) with
       | Some _ => []
       | None => [(fst (fst e), hidden_attrs, snd e)]
       end.
Proof.
  unfold missing_members. rewrite filter_app, map_app. cbn [filter].
  destruct (own ps (fst (fst e))); reflexivity.
Qed.

Lemma own_missing_members (done ps : props) (m : string) :
  own done m = None -> own (missing_members done ps) m = None.
Proof.
  unfold missing_members. induction done as [|[[k a] x] done IH]; simpl; [reflexivity|].
  destruct (String.eqb k m) eqn:E; [discriminate|]. intros H.
  destruct (own ps k); [exact (IH H)|]. simpl. rewrite E. exact (IH H).
Qed.

Lemma define_own_app (p1 p2 : props) (k : string) (d : descriptor) (a : attrs) (x : value) :
  own p1 k = Some (a, x) ->
  define_own (p1 ++ p2) k d
  = match define_own p1 k d with Some p1' => Some (p1' ++ p2) | None => None end.
Proof.
  induction p1 as [|[[k' a'] x'] p1 IH]; simpl; [discriminate|].
  destruct (String.eqb k' k).
  - intros _. destruct (apply_descriptor a' x' d) as [[a2 x2]|]; reflexivity.
  - intros H. rewrite (IH H). destruct (define_own p1 k d); reflexivity.
Qed.

(** Hiding the falsy value stored under the name of the member [m]. *)
Lemma define_own_replace (done ps : props) (m : string) (am : attrs) (f : value)
    (a : attrs) (x : value) :
  distinct (keys ps) = true ->
  configurable a = true ->
  own done m = None ->
  own ps m = Some (a, x) -> truthy x = false ->
  define_own (map (replace_falsy done) ps) m (mkDesc (Some f) None (Some false) None)
  = Some (map (replace_falsy (done ++ [(m, am, f)])) ps).
Proof.
  intros Hd Hca Hdone Hown Hx.
  induction ps as [|[[k a'] x'] ps IH]; [discriminate|].
  change (keys ((k, a', x') :: ps)) with (k :: keys ps) in Hd.
  apply distinct_cons in Hd as [Hk Hd].
  cbn [map own] in *. destruct (String.eqb_spec k m) as [->|Hne].
  - injection Hown as -> ->.
    rewrite (replace_falsy_absent done m a x Hdone). cbn [define_own].
    rewrite String.eqb_refl. unfold apply_descriptor. rewrite Hca. cbn.
    f_equal. f_equal.
    + unfold replace_falsy. rewrite own_app, Hdone. cbn [own].
      rewrite String.eqb_refl, Hx, Hca. reflexivity.
    + apply map_ext_in. intros [[k' a2] x2] Hin. symmetry. apply replace_falsy_other.
      intros ->. apply Hk. apply keys_In. eauto.
  - pose proof (replace_falsy_key done (k, a', x')) as Hkey. cbn [fst] in Hkey.
    destruct (replace_falsy done (k, a', x')) as [[k2 a2] x2] eqn:E. cbn [fst] in Hkey.
    subst k2. cbn [define_own].
    destruct (String.eqb_spec k m) as [E'|_]; [contradiction|].
    rewrite (IH Hd Hown). rewrite (replace_falsy_other done m am f k a' x' Hne), E.
    reflexivity.
Qed.

Lemma own_replace_falsy_absent (done ps : props) (m : string) :
  own done m = None -> own (map (replace_falsy done) ps) m = own ps m.
Proof.
  intros Hdone. induction ps as [|[[k a] x] ps IH]; [reflexivity|].
  cbn [map own]. destruct (String.eqb_spec k m) as [->|Hne].
  - rewrite (replace_falsy_absent done m a x Hdone). cbn [own].
    rewrite String.eqb_refl. reflexivity.
  - pose proof (replace_falsy_key done (k, a, x)) as Hkey.
    destruct (replace_falsy done (k, a, x)) as [[k2 a2] x2]. cbn [fst] in Hkey. subst k2.
    cbn [own]. destruct (String.eqb_spec k m); [contradiction|]. exact IH.
Qed.

Lemma own_with_members (done ps : props) (m : string) :
  own done m = None ->
  own (map (replace_falsy done) ps ++ missing_members done ps) m = own ps m.
Proof.
  intros Hdone.
  rewrite own_app, (own_missing_members done ps m Hdone), (own_replace_falsy_absent done ps m Hdone).
  destruct (own ps m); reflexivity.
Qed.

Lemma attach_members_fold (l : loc) (c : cls) (ps : props) (todo : props) :
  distinct (keys ps) = true ->
  (forall m a x, In m (keys todo) -> own ps m = Some (a, x) -> truthy x = false ->
                 configurable a = true) ->
  forallb (fun e => truthy (snd e)) todo = true ->
  forall done,
    distinct (keys (done ++ todo)) = true ->
    fold_left
      (fun acc e =>
         let* toObject := acc in
         let* current := get_prop toObject (fst (fst e)) in
         if negb (truthy current) then makeHidden toObject (fst (fst e)) (snd e)
         else Ok toObject)
      todo (Ok (VObj l c (map (replace_falsy done) ps ++ missing_members done ps)))
    = Ok (VObj l c (map (replace_falsy (done ++ todo)) ps
                    ++ missing_members (done ++ todo) ps)).
Proof.
  intros Hd. induction todo as [|[[m am] f] todo IH]; intros Hc Ht done Hdis.
  - rewrite app_nil_r. reflexivity.
  - cbn [forallb snd] in Ht. apply andb_true_iff in Ht as [Hf Ht].
    assert (Hc' : forall m' a x, In m' (keys todo) -> own ps m' = Some (a, x) ->
                                 truthy x = false -> configurable a = true).
    { intros m' a x Hin. apply Hc. right. exact Hin. }
    assert (Hdone : own done m = None).
    { apply own_None_keys. unfold keys in Hdis. rewrite map_app in Hdis.
      exact (proj1 (distinct_app_cons _ _ _ Hdis)). }
    assert (Hdis' : distinct (keys ((done ++ [(m, am, f)]) ++ todo)) = true)
      by (rewrite <- app_assoc; exact Hdis).
    specialize (IH Hc' Ht (done ++ [(m, am, f)]) Hdis').
    rewrite <- app_assoc in IH. cbn [app] in IH.
    cbn [fold_left bind fst snd]. rewrite get_prop_read. cbn [bind].
    assert (Hread : read (map (replace_falsy done) ps ++ missing_members done ps) m
                    = read ps m).
    { unfold read. rewrite (own_with_members done ps m Hdone). reflexivity. }
    rewrite Hread.
    assert (Hsame : own ps m <> None -> truthy (read ps m) = true ->
                    map (replace_falsy (done ++ [(m, am, f)])) ps
                    = map (replace_falsy done) ps).
    { intros _ Htr. apply map_ext_in. intros [[k a] x] Hin.
      destruct (String.eqb_spec k m) as [->|Hne]; [|apply replace_falsy_other; exact Hne].
      pose proof (own_of_distinct ps m a x Hd Hin) as E.
      unfold read in Htr. rewrite E in Htr.
      unfold replace_falsy. rewrite own_app, Hdone. cbn [own].
      rewrite String.eqb_refl, Htr. reflexivity. }
    destruct (own ps m) as [[a x]|] eqn:Eown.
    + assert (Hr : read ps m = x) by (unfold read; rewrite Eown; reflexivity).
      rewrite Hr in *. destruct (truthy x) eqn:Ex; cbn [negb].
      * rewrite <- IH. rewrite (Hsame ltac:(discriminate) eq_refl), missing_members_snoc.
        cbn [fst]. rewrite Eown, app_nil_r. reflexivity.
      * rewrite <- IH. rewrite makeHidden_descriptor. cbn [defineProperty].
        assert (Hf' : match f with VUndef => None | _ => Some f end = Some f)
          by (destruct f; try reflexivity; discriminate Hf).
        rewrite Hf'.
        assert (Hin1 : exists a1 x1, own (map (replace_falsy done) ps) m = Some (a1, x1)).
        { rewrite (own_replace_falsy_absent done ps m Hdone), Eown. eauto. }
        destruct Hin1 as [a1 [x1 Hin1]].
        rewrite (define_own_app _ _ m _ a1 x1 Hin1).
        rewrite (define_own_replace done ps m am f a x Hd
                   (Hc m a x (or_introl eq_refl) Eown Ex) Hdone Eown Ex).
        rewrite missing_members_snoc. cbn [fst]. rewrite Eown, app_nil_r. reflexivity.
    + assert (Hr : read ps m = VUndef) by (unfold read; rewrite Eown; reflexivity).
      rewrite Hr. cbn [truthy negb]. rewrite <- IH.
      rewrite makeHidden_descriptor. cbn [defineProperty].
      assert (Hf' : match f with VUndef => None | _ => Some f end = Some f)
        by (destruct f; try reflexivity; discriminate Hf).
      rewrite Hf'.
      assert (Habs : own (map (replace_falsy done) ps ++ missing_members done ps) m = None).
      { rewrite (own_with_members done ps m Hdone). exact Eown. }
      rewrite (define_own_absent _ m _ Habs). cbn [opt_default d_writable d_enumerable
        d_configurable d_value].
      rewrite missing_members_snoc. cbn [fst snd]. rewrite Eown.
      rewrite <- app_assoc.
      assert (Hmap : map (replace_falsy (done ++ [(m, am, f)])) ps
                     = map (replace_falsy done) ps).
      { apply map_ext_in. intros [[k a] x] Hin. apply replace_falsy_other.
        intros ->. apply own_None_keys in Eown. apply Eown. apply keys_In. eauto. }
      rewrite Hmap. reflexivity.
Qed.

Lemma NoDup_distinct (ks : list string) : NoDup ks -> distinct ks = true.
Proof.
  induction 1 as [|k ks Hk _ IH]; [reflexivity|]. apply distinct_cons. auto.
Qed.

Lemma keys_missing_members (members ps : props) (k : string) :
  In k (keys (missing_members members ps)) -> In k (keys members) /\ own ps k = None.
Proof.
  unfold missing_members. intros H. apply keys_In in H as [a [x H]].
  apply in_map_iff in H as [[[k' a'] x'] [E H]]. cbn [fst snd] in E.
  injection E as -> _ _. apply filter_In in H as [H Hf]. cbn [fst] in Hf. split.
  - apply keys_In. eauto.
  - destruct (own ps k); [discriminate|reflexivity].
Qed.

Lemma NoDup_missing_members (members ps : props) :
  NoDup (keys members) -> NoDup (keys (missing_members members ps)).
Proof.
  unfold missing_members. induction members as [|[[k a] x] members IH]; simpl;
    intros H; [constructor|].
  apply NoDup_cons_iff in H as [Hk H]. destruct (own ps k); [exact (IH H)|].
  simpl. constructor; [|exact (IH H)].
  intros Hin. apply Hk. exact (proj1 (keys_missing_members members ps k Hin)).
Qed.

Lemma distinct_with_members (members ps : props) :
  distinct (keys members) = true -> distinct (keys ps) = true ->
  distinct (keys (map (replace_falsy members) ps ++ missing_members members ps)) = true.
Proof.
  intros Hm Hp. apply NoDup_distinct. unfold keys. rewrite map_app.
  fold (keys (map (replace_falsy members) ps)). fold (keys (missing_members members ps)).
  rewrite keys_replace_falsy. apply NoDup_app.
  - apply distinct_NoDup. exact Hp.
  - apply NoDup_missing_members, distinct_NoDup. exact Hm.
  - intros k Hk Hin. apply keys_missing_members in Hin as [_ Hnone].
    apply own_None_keys in Hnone. exact (Hnone Hk).
Qed.

Lemma own_at (pre : props) (k : string) (a : attrs) (x : value) (rest : props) :
  ~ In k (keys pre) -> own (pre ++ (k, a, x) :: rest) k = Some (a, x).
Proof.
  intros H. rewrite own_app. apply own_None_keys in H. rewrite H.
  cbn [own]. rewrite String.eqb_refl. reflexivity.
Qed.

Lemma attach_spec_object (members : props) (l : loc) (c : cls) (ps : props) :
  instanceof_RawConfig (VObj l c ps) = false ->
  attach_spec members (VObj l c ps)
  = VObj l c (map (attach_child members)
                  (map (replace_falsy members) ps ++ missing_members members ps)).
Proof.
  intros Hr. rewrite map_app, map_map.
  assert (E : map (attach_child members) (missing_members members ps)
              = missing_members members ps).
  { unfold missing_members. rewrite map_map. apply map_ext. intros [[k a] x]. reflexivity. }
  rewrite E.
  assert (G : forall e,
             attach_child members (replace_falsy members e)
             = (let '(k, a, x) := e in
                match own members k with
                | Some (_, member) =>
                    if truthy x
                    then (k, a, if enumerable a && isObject x
                                then attach_spec members x else x)
                    else (k, mkAttrs (writable a) false (configurable a), member)
                | None =>
                    (k, a, if enumerable a && isObject x then attach_spec members x else x)
                end)).
  { intros [[k a] x]. unfold replace_falsy.
    destruct (own members k) as [[am member]|]; [|reflexivity].
    destruct (truthy x); reflexivity. }
  destruct c; try discriminate Hr; cbn [attach_spec]; f_equal; f_equal;
    apply map_ext; intros e; symmetry; apply G.
Qed.

Lemma attach_children_fold (recurse : value -> option (result value)) (members : props)
    (l : loc) (c : cls) (todo : props) :
  (forall k a x, In (k, a, x) todo -> enumerable a = true -> isObject x = true ->
                 recurse x = Some (Ok (attach_spec members x))) ->
  forall pre,
    distinct (keys (pre ++ todo)) = true ->
    fold_left
      (fun acc e =>
         match acc with
         | Some (Ok toObject) =>
             match get_prop toObject (fst (fst e)) with
             | Throw e => Some (Throw e)
             | Ok v =>
                 if isObject v then
                   match recurse v with
                   | Some (Ok v') => Some (Ok (store_in toObject (fst (fst e)) v'))
                   | other => other
                   end
                 else Some (Ok toObject)
             end
         | other => other
         end)
      (enumerable_props todo) (Some (Ok (VObj l c (pre ++ todo))))
    = Some (Ok (VObj l c (pre ++ map (attach_child members) todo))).
Proof.
  induction todo as [|[[k a] x] todo IH]; intros Hrec pre Hd; [reflexivity|].
  assert (Hpre : ~ In k (keys pre)).
  { unfold keys in Hd. rewrite map_app in Hd. exact (proj1 (distinct_app_cons _ _ _ Hd)). }
  assert (Next : forall y,
             distinct (keys ((pre ++ [(k, a, y)]) ++ todo)) = true).
  { intros y. unfold keys in *. rewrite <- app_assoc, map_app. rewrite map_app in Hd.
    exact Hd. }
  assert (IH' := fun y => IH (fun k' a' x' Hin => Hrec k' a' x' (or_intror Hin))
                             (pre ++ [(k, a, y)]) (Next y)).
  unfold enumerable_props. cbn [filter fst snd map attach_child].
  destruct (enumerable a) eqn:Ea; cbn [andb].
  2:{ pose proof (IH' x) as H. rewrite <- !app_assoc in H. exact H. }
  cbn [fold_left fst]. rewrite get_prop_read. unfold read. rewrite (own_at pre k a x todo Hpre).
  destruct (isObject x) eqn:Eo.
  2:{ pose proof (IH' x) as H. rewrite <- !app_assoc in H. exact H. }
  rewrite (Hrec k a x (or_introl eq_refl) Ea Eo). cbn [store_in].
  rewrite (store_at pre k a x _ todo Hpre).
  pose proof (IH' (attach_spec members x)) as H. rewrite <- !app_assoc in H. exact H.
Qed.

Lemma replace_falsy_nil (ps : props) : map (replace_falsy []) ps = ps.
Proof.
  rewrite <- (map_id ps) at 2. apply map_ext. intros [[k a] x]. reflexivity.
Qed.

Lemma enumerable_props_all (ps : props) :
  forallb (fun e => enumerable (snd (fst e))) ps = true -> enumerable_props ps = ps.
Proof.
  unfold enumerable_props. induction ps as [|e ps IH]; [reflexivity|].
  cbn [forallb filter]. intros H. apply andb_true_iff in H as [He H].
  rewrite He, (IH H). reflexivity.
Qed.

Section AttachProto.

Variable Config_prototype : props.
Hypothesis members_distinct : distinct (keys Config_prototype) = true.
Hypothesis members_enumerable :
  forallb (fun e => enumerable (snd (fst e))) Config_prototype = true.
Hypothesis members_truthy : forallb (fun e => truthy (snd e)) Config_prototype = true.

Lemma attach_members_spec (l : loc) (c : cls) (ps : props) :
  distinct (keys ps) = true ->
  forallb (fun e => configurable (snd (fst e)) || negb (shadowed Config_prototype e)) ps
  = true ->
  attach_members Config_prototype (VObj l c ps)
  = Ok (VObj l c (map (replace_falsy Config_prototype) ps
                  ++ missing_members Config_prototype ps)).
Proof.
  intros Hd Hc. unfold attach_members.
  rewrite (enumerable_props_all _ members_enumerable).
  assert (Hc' : forall m a x, In m (keys Config_prototype) -> own ps m = Some (a, x) ->
                              truthy x = false -> configurable a = true).
  { intros m a x Hm Hown Hx. rewrite forallb_forall in Hc.
    pose proof (Hc _ (own_In ps m a x Hown)) as H. unfold shadowed in H. cbn [fst snd] in H.
    destruct (own Config_prototype m) as [r|] eqn:Em.
    - rewrite Hx in H. cbn [negb] in H. rewrite orb_false_r in H. exact H.
    - apply own_None_keys in Em. contradiction. }
  pose proof (attach_members_fold l c ps Config_prototype Hd Hc' members_truthy []
                members_distinct) as H.
  rewrite replace_falsy_nil in H. cbn [missing_members filter map app] in H.
  rewrite app_nil_r in H. exact H.
Qed.

Lemma attachProtoDeep_attachable (fuel : nat) :
  forall v depth,
    unbounded depth ->
    is_object v = true -> well_formed v = true -> attachable Config_prototype v = true ->
    (height v < fuel)%nat ->
    attachProtoDeep Config_prototype fuel v depth
    = Some (Ok (attach_spec Config_prototype v)).
Proof.
  induction fuel as [|fuel IH]; intros v depth Hdepth Ho Hwf Hc Hh; [inversion Hh|].
  destruct v as [| | | | | |l c ps]; try discriminate Ho.
  cbn [attachProtoDeep].
  destruct (instanceof_RawConfig (VObj l c ps)) eqn:Er.
  { destruct c; try discriminate Er. reflexivity. }
  assert (Hdp : depth_negative (depth_or_default depth) = false
                /\ unbounded (depth_minus_1 (depth_or_default depth))).
  { destruct Hdepth as [-> | ->]; split; try reflexivity; right; reflexivity. }
  destruct Hdp as [Hneg Hnext]. rewrite Hneg.
  cbn [well_formed] in Hwf. apply andb_true_iff in Hwf as [Hd Hwf].
  cbn [attachable] in Hc.
  assert (Hc1 : forallb (fun e => configurable (snd (fst e))
                                  || negb (shadowed Config_prototype e)) ps = true).
  { rewrite forallb_forall in *. intros e He. specialize (Hc e He).
    apply andb_true_iff in Hc. tauto. }
  rewrite (attach_members_spec l c ps Hd Hc1).
  rewrite (attach_spec_object Config_prototype l c ps Er).
  cbn [for_in].
  apply (attach_children_fold
           (fun v => attachProtoDeep Config_prototype fuel v
                       (depth_minus_1 (depth_or_default depth)))
           Config_prototype l c _) with (pre := @nil (string * attrs * value)).
  - intros k a x Hin Ea Eo. apply in_app_or in Hin as [Hin|Hin].
    + apply in_map_iff in Hin as [[[k0 a0] x0] [E Hin]].
      assert (Hsame : (k, a, x) = (k0, a0, x0)).
      { unfold replace_falsy in E. destruct (own Config_prototype k0) as [[am member]|];
          [|symmetry; exact E].
        destruct (truthy x0); [symmetry; exact E|].
        injection E as _ <- _. discriminate Ea. }
      injection Hsame as -> -> ->.
      rewrite forallb_forall in Hwf. pose proof (Hwf _ Hin) as Hwx. cbn [snd] in Hwx.
      rewrite forallb_forall in Hc. pose proof (Hc _ Hin) as Hcx. cbn [fst snd] in Hcx.
      apply andb_true_iff in Hcx as [_ Hcx].
      apply IH; auto.
      * apply isObject_is_object. exact Eo.
      * pose proof (height_In ps _ Hin) as H1. cbn [snd] in H1.
        cbn [height] in Hh. clear -H1 Hh. lia.
    + unfold missing_members in Hin. apply in_map_iff in Hin as [e [E _]].
      injection E as _ <- _. discriminate Ea.
  - cbn [app]. apply distinct_with_members; assumption.
Qed.

Lemma configurable_attachable (v : value) :
  configurable_throughout v = true -> attachable Config_prototype v = true.
Proof.
  induction v as [| | | | | |l c ps IH] using value_props_ind; try reflexivity.
  unfold configurable_throughout. cbn [all_attrs attachable]. intros H.
  rewrite forallb_forall in H. rewrite forallb_forall. intros e He. specialize (H e He).
  apply andb_true_iff in H as [Ha Hx]. rewrite Ha. cbn [orb andb].
  rewrite Forall_forall in IH. exact (IH e He Hx).
Qed.

Lemma attachProtoDeep_attach_spec (fuel : nat) :
  forall v depth,
    unbounded depth ->
    is_object v = true -> well_formed v = true -> configurable_throughout v = true ->
    (height v < fuel)%nat ->
    attachProtoDeep Config_prototype fuel v depth
    = Some (Ok (attach_spec Config_prototype v)).
Proof.
  intros v depth Hdepth Ho Hwf Hc Hh.
  apply attachProtoDeep_attachable; auto. apply configurable_attachable. exact Hc.
Qed.

End AttachProto.

Lemma own_map_entry (h : string * attrs * value -> string * attrs * value) (ps : props)
    (k : string) :
  (forall e, fst (fst (h e)) = fst (fst e)) ->
  own (map h ps) k
  = match own ps k with
    | Some (a, x) => Some (snd (fst (h (k, a, x))), snd (h (k, a, x)))
    | None => None
    end.
Proof.
  intros Hkey. induction ps as [|[[k' a] x] ps IH]; [reflexivity|].
  cbn [map own]. pose proof (Hkey (k', a, x)) as Hk.
  destruct (h (k', a, x)) as [[k2 a2] x2] eqn:E. cbn [fst] in Hk. subst k2.
  cbn [own]. destruct (String.eqb_spec k' k) as [->|Hne]; [|exact IH].
  rewrite E. reflexivity.
Qed.

Lemma attach_child_key (members : props) (e : string * attrs * value) :
  fst (fst (attach_child members e)) = fst (fst e).
Proof. destruct e as [[k a] x]. reflexivity. Qed.

Lemma keys_attach_child (members ps : props) :
  keys (map (attach_child members) ps) = keys ps.
Proof.
  unfold keys. rewrite map_map. apply map_ext. intros e. apply attach_child_key.
Qed.

Lemma enumerable_attach_child (members ps : props) :
  keys (enumerable_props (map (attach_child members) ps)) = keys (enumerable_props ps).
Proof.
  unfold enumerable_props. induction ps as [|[[k a] x] ps IH]; [reflexivity|].
  cbn [map attach_child filter fst snd]. destruct (enumerable a); [|exact IH].
  change (keys ((?k, ?a, ?x) :: ?r)) with (k :: keys r). cbn [keys map fst]. f_equal. exact IH.
Qed.

Lemma enumerable_missing_members (members ps : props) :
  enumerable_props (missing_members members ps) = [].
Proof.
  unfold enumerable_props, missing_members.
  induction (filter _ members) as [|e l IH]; [reflexivity|]. exact IH.
Qed.

Lemma own_missing_member (members ps : props) (m : string) (am : attrs) (member : value) :
  own members m = Some (am, member) -> own ps m = None ->
  own (missing_members members ps) m = Some (hidden_attrs, member).
Proof.
  unfold missing_members. intros Hm Hp.
  induction members as [|[[k a] x] members IH]; [discriminate|].
  cbn [own] in Hm. cbn [filter fst]. destruct (String.eqb_spec k m) as [->|Hne].
  - injection Hm as -> ->. rewrite Hp. cbn [map own fst snd]. rewrite String.eqb_refl.
    reflexivity.
  - destruct (own ps k); [exact (IH Hm)|]. cbn [map own fst snd].
    destruct (String.eqb_spec k m); [contradiction|]. exact (IH Hm).
Qed.

(** X25.  [attachProtoDeep], with the depth omitted, on a well-formed object
    none of whose properties was frozen: every node that is reached through
    enumerable properties gets the members of [Config.prototype] that it
    does not hold with a truthy value, as properties that are not
    enumerable; a falsy value stored under the name of a member is replaced
    by the member; a [RawConfig] is not touched, nor is anything else. *)
Theorem attachProtoDeep_attaches_the_members :
  forall Config_prototype fuel v,
    distinct (keys Config_prototype) = true ->
    forallb (fun e => enumerable (snd (fst e))) Config_prototype = true ->
    forallb (fun e => truthy (snd e)) Config_prototype = true ->
    is_object v = true -> well_formed v = true -> configurable_throughout v = true ->
    (height v < fuel)%nat ->
    attachProtoDeep Config_prototype fuel v DUndefined
    = Some (Ok (attach_spec Config_prototype v)).
Proof.
  intros CP fuel v H1 H2 H3 Ho Hwf Hc Hh.
  apply attachProtoDeep_attach_spec; auto. left. reflexivity.
Qed.

Lemma attachProtoDeep_attaches_the_members_witness :
  attachProtoDeep [("get", default_attrs, VFun 1); ("has", default_attrs, VFun 2)] 3
    (VObj 0 CObject
       [("db", default_attrs, VObj 1 CObject [("has", default_attrs, VBool false)])])
    DUndefined
  = Some (Ok (attach_spec [("get", default_attrs, VFun 1); ("has", default_attrs, VFun 2)]
                (VObj 0 CObject
                   [("db", default_attrs, VObj 1 CObject [("has", default_attrs, VBool false)])]))).
Proof.
  apply attachProtoDeep_attaches_the_members; try reflexivity. simpl. lia.
Defined.

(** X26.  After [attachProtoDeep] a node answers to every member of
    [Config.prototype] under whose name it did not hold a truthy value: a
    read of the name gives the member, and the name is not enumerated.  A
    configuration value such as [has: false] or [get: 0] is lost in this
    way. *)
Theorem attachProtoDeep_member_is_readable :
  forall Config_prototype fuel l c ps m am member,
    distinct (keys Config_prototype) = true ->
    forallb (fun e => enumerable (snd (fst e))) Config_prototype = true ->
    forallb (fun e => truthy (snd e)) Config_prototype = true ->
    well_formed (VObj l c ps) = true -> configurable_throughout (VObj l c ps) = true ->
    (height (VObj l c ps) < fuel)%nat ->
    instanceof_RawConfig (VObj l c ps) = false ->
    own Config_prototype m = Some (am, member) ->
    truthy (read ps m) = false ->
    exists ps',
      attachProtoDeep Config_prototype fuel (VObj l c ps) DUndefined
      = Some (Ok (VObj l c ps'))
      /\ get_prop (VObj l c ps') m = Ok member
      /\ ~ In m (Object_keys ps').
Proof.
  intros CP fuel l c ps m am member H1 H2 H3 Hwf Hc Hh Hr Hm Hx.
  rewrite (attachProtoDeep_attach_spec CP H1 H2 H3 fuel (VObj l c ps) DUndefined
             (or_introl eq_refl) eq_refl Hwf Hc Hh).
  rewrite (attach_spec_object CP l c ps Hr).
  eexists. split; [reflexivity|].
  cbn [well_formed] in Hwf. apply andb_true_iff in Hwf as [Hd _].
  assert (Hown : exists a',
             own (map (attach_child CP) (map (replace_falsy CP) ps ++ missing_members CP ps)) m
             = Some (a', member) /\ enumerable a' = false).
  { rewrite (own_map_entry _ _ m (attach_child_key CP)), own_app.
    rewrite (own_map_entry _ _ m (replace_falsy_key CP)).
    unfold read in Hx. destruct (own ps m) as [[a x]|] eqn:Eown.
    - unfold replace_falsy. rewrite Hm, Hx. cbn [fst snd attach_child enumerable andb].
      eexists. split; reflexivity.
    - rewrite (own_missing_member CP ps m am member Hm Eown).
      cbn [attach_child hidden_attrs enumerable andb fst snd]. eexists. split; reflexivity. }
  destruct Hown as [a' [Hown Ha']]. split.
  - cbn [get_prop]. rewrite Hown. reflexivity.
  - eapply hidden_not_enumerated; [|exact Hown|exact Ha'].
    rewrite keys_attach_child. apply distinct_with_members; assumption.
Qed.

Lemma attachProtoDeep_member_is_readable_witness :
  exists ps',
    attachProtoDeep [("get", default_attrs, VFun 1); ("has", default_attrs, VFun 2)] 2
      (VObj 0 CObject [("has", default_attrs, VBool false)]) DUndefined
    = Some (Ok (VObj 0 CObject ps'))
    /\ get_prop (VObj 0 CObject ps') "has" = Ok (VFun 2)
    /\ ~ In "has" (Object_keys ps').
Proof.
  apply (attachProtoDeep_member_is_readable
           [("get", default_attrs, VFun 1); ("has", default_attrs, VFun 2)] 2%nat 0%nat CObject
           [("has", default_attrs, VBool false)] "has" default_attrs (VFun 2));
    try reflexivity. simpl. lia.
Defined.

(** X27.  [attachProtoDeep] adds nothing to the enumeration of a node, and
    takes from it the keys it overwrites: [Object.keys] lists afterwards
    the enumerable keys of before, in their order, without those that are
    the name of a member and held a falsy value. *)
Theorem attachProtoDeep_keeps_the_enumeration :
  forall Config_prototype fuel l c ps,
    distinct (keys Config_prototype) = true ->
    forallb (fun e => enumerable (snd (fst e))) Config_prototype = true ->
    forallb (fun e => truthy (snd e)) Config_prototype = true ->
    well_formed (VObj l c ps) = true -> configurable_throughout (VObj l c ps) = true ->
    (height (VObj l c ps) < fuel)%nat ->
    instanceof_RawConfig (VObj l c ps) = false ->
    exists ps',
      attachProtoDeep Config_prototype fuel (VObj l c ps) DUndefined
      = Some (Ok (VObj l c ps'))
      /\ Object_keys ps'
         = Object_keys (filter (fun e => negb (shadowed Config_prototype e)) ps).
Proof.
  intros CP fuel l c ps H1 H2 H3 Hwf Hc Hh Hr.
  rewrite (attachProtoDeep_attach_spec CP H1 H2 H3 fuel (VObj l c ps) DUndefined
             (or_introl eq_refl) eq_refl Hwf Hc Hh).
  rewrite (attach_spec_object CP l c ps Hr). eexists. split; [reflexivity|].
  unfold Object_keys. rewrite enumerable_attach_child. f_equal.
  unfold enumerable_props at 1. rewrite filter_app.
  fold (enumerable_props (missing_members CP ps)).
  rewrite enumerable_missing_members, app_nil_r.
  unfold enumerable_props. clear.
  induction ps as [|[[k a] x] ps IH]; [reflexivity|].
  assert (Hcase : (shadowed CP (k, a, x) = true
                   /\ enumerable (snd (fst (replace_falsy CP (k, a, x)))) = false)
                  \/ (shadowed CP (k, a, x) = false
                      /\ replace_falsy CP (k, a, x) = (k, a, x))).
  { unfold shadowed, replace_falsy. cbn [fst snd].
    destruct (own CP k) as [[am member]|]; [destruct (truthy x)|];
      [right|left|right]; split; reflexivity. }
  cbn [map filter]. destruct Hcase as [[Hs He]|[Hs He]]; rewrite Hs, He; cbn [negb fst snd].
  - exact IH.
  - cbn [filter fst snd]. destruct (enumerable a); rewrite IH; reflexivity.
Qed.

Lemma attachProtoDeep_keeps_the_enumeration_witness :
  exists ps',
    attachProtoDeep [("get", default_attrs, VFun 1); ("has", default_attrs, VFun 2)] 2
      (VObj 0 CObject [("has", default_attrs, VBool false); ("port", default_attrs, VNum 0)])
      DUndefined
    = Some (Ok (VObj 0 CObject ps'))
    /\ Object_keys ps'
       = Object_keys
           (filter (fun e => negb (shadowed [("get", default_attrs, VFun 1);
                                             ("has", default_attrs, VFun 2)] e))
              [("has", default_attrs, VBool false); ("port", default_attrs, VNum 0)]).
Proof.
  apply attachProtoDeep_keeps_the_enumeration; try reflexivity. simpl. lia.
Defined.

(** ** [util.setModuleDefaults] *)

Lemma locs_of_props_app (ps qs : props) :
  locs_of_props (ps ++ qs) = locs_of_props ps ++ locs_of_props qs.
Proof. unfold locs_of_props. apply flat_map_app. Qed.

Lemma seq_split (n n1 n' : nat) :
  (n <= n1)%nat -> (n1 <= n')%nat ->
  seq n (n1 - n) ++ seq n1 (n' - n1) = seq n (n' - n).
Proof.
  intros H1 H2. replace (n' - n)%nat with ((n1 - n) + (n' - n1))%nat by lia.
  rewrite seq_app. replace (n + (n1 - n))%nat with n1 by lia. reflexivity.
Qed.

Lemma copy_props_locs (d : Z) (todo : props) :
  Forall (fun e => forall n seen child n' seen',
             json_like (snd e) = true -> NoDup (locs (snd e)) ->
             (forall l, In l (locs (snd e)) -> child_of seen l = None) ->
             _clone true (snd e) d (n, seen) = (child, (n', seen')) ->
             (n <= n')%nat /\ locs child = seq n (n' - n)) todo ->
  (forall k a x, In (k, a, x) todo -> a = default_attrs /\ json_like x = true) ->
  distinct (keys todo) = true -> NoDup (locs_of_props todo) ->
  forall acc n seen child_ps n' seen',
    (forall k, In k (keys todo) -> ~ In k (keys acc)) ->
    (forall l, In l (locs_of_props todo) -> child_of seen l = None) ->
    copy_props (fun v st => _clone true v d st) todo acc (n, seen)
    = (child_ps, (n', seen')) ->
    (n <= n')%nat /\ locs_of_props child_ps = locs_of_props acc ++ seq n (n' - n).
Proof.
  induction 1 as [|[[k a] x] todo Hx _ IH]; intros Hps Hd Hnd acc n seen child_ps n' seen'
    Hacc Hseen Hcopy.
  - simpl in Hcopy. injection Hcopy as <- <- <-.
    rewrite Nat.sub_diag. simpl. rewrite app_nil_r. auto.
  - destruct (Hps k a x (or_introl eq_refl)) as [-> Hjx].
    change (keys ((k, default_attrs, x) :: todo)) with (k :: keys todo) in *.
    apply distinct_cons in Hd as [Hk Hd].
    change (locs_of_props ((k, default_attrs, x) :: todo))
      with (locs x ++ locs_of_props todo) in *.
    cbn [copy_props enumerable default_attrs] in Hcopy.
    destruct (_clone true x d (n, seen)) as [x' [n1 seen1]] eqn:Ex.
    cbn [snd] in Hx.
    assert (Hmiss : forall l, In l (locs x) -> child_of seen l = None).
    { intros l Hl. apply Hseen. apply in_or_app. left. exact Hl. }
    destruct (Hx n seen x' n1 seen1 Hjx (NoDup_app_remove_r _ _ Hnd) Hmiss Ex) as [Hle Hlocs].
    destruct (_clone_shape x d n seen x' n1 seen1 Hjx (NoDup_app_remove_r _ _ Hnd) Hmiss Ex)
      as [_ Hframe].
    rewrite assign_absent in Hcopy by (apply Hacc; left; reflexivity).
    destruct (IH (fun k' a' x' Hin => Hps k' a' x' (or_intror Hin)) Hd
                 (NoDup_app_remove_l _ _ Hnd) (acc ++ [(k, default_attrs, x')])
                 n1 seen1 child_ps n' seen') as [Hle' Hall].
    + intros k' Hk' Hin. unfold keys in Hin. rewrite map_app in Hin.
      apply in_app_or in Hin as [Hin|[Hin|[]]].
      * apply (Hacc k'); [right; exact Hk'|exact Hin].
      * simpl in Hin. subst k'. exact (Hk Hk').
    + intros l Hl. apply Hframe.
      * intros Hlx. exact (NoDup_app_apart _ _ Hnd l Hlx Hl).
      * apply Hseen. apply in_or_app. right. exact Hl.
    + exact Hcopy.
    + split; [lia|]. rewrite Hall, locs_of_props_app. cbn [locs_of_props flat_map snd].
      rewrite app_nil_r, Hlocs, <- app_assoc, seq_split by assumption. reflexivity.
Qed.

Lemma _clone_locs (v : value) :
  forall d n seen child n' seen',
    json_like v = true -> NoDup (locs v) ->
    (forall l, In l (locs v) -> child_of seen l = None) ->
    deep_enough v d ->
    _clone true v d (n, seen) = (child, (n', seen')) ->
    (n <= n')%nat /\ locs child = seq n (n' - n).
Proof.
  induction v as [| |b|m|s|f|l c ps IH] using value_props_ind;
    intros d n seen child n' seen' Hj Hnd Hseen Hdeep Hc;
    try (simpl in Hc; injection Hc as <- <- <-; rewrite Nat.sub_diag; auto; fail).
  cbn [_clone] in Hc. destruct (Z.eqb_spec d 0) as [->|Hd0].
  { exfalso. destruct Hdeep as [Hh|Hh]; simpl in Hh; lia. }
  rewrite (Hseen l (or_introl eq_refl)) in Hc.
  destruct (copy_props (fun v st => _clone true v (d - 1) st) ps []
              (S n, seen ++ [(l, VObj n (child_class c) [])]))
    as [child_ps [n2 seen2]] eqn:Ecopy.
  injection Hc as <- <- <-.
  destruct (json_like_inv l c ps Hj) as [_ [Hd Hps]].
  change (locs (VObj l c ps)) with (l :: locs_of_props ps) in *.
  apply NoDup_cons_iff in Hnd as [Hl Hnd].
  assert (HF : Forall (fun e => forall n seen child n' seen',
                         json_like (snd e) = true -> NoDup (locs (snd e)) ->
                         (forall l, In l (locs (snd e)) -> child_of seen l = None) ->
                         _clone true (snd e) (d - 1) (n, seen) = (child, (n', seen')) ->
                         (n <= n')%nat /\ locs child = seq n (n' - n)) ps).
  { rewrite Forall_forall in *. intros e He n0 seen0 child0 n0' seen0' H1 H2 H3 H4.
    apply (IH e He (d - 1) n0 seen0 child0 n0' seen0' H1 H2 H3); [|exact H4].
    pose proof (height_In ps e He) as Hh.
    destruct Hdeep as [Hdeep|Hdeep]; [left|right]; simpl in Hdeep; lia. }
  destruct (copy_props_locs (d - 1) ps HF Hps Hd Hnd [] (S n)
              (seen ++ [(l, VObj n (child_class c) [])]) child_ps n2 seen2)
    as [Hle Hlocs].
  - intros k _ [].
  - intros l' Hl'. rewrite child_of_app, (Hseen l' (or_intror Hl')).
    destruct (Nat.eqb l l') eqn:E; [|reflexivity].
    apply Nat.eqb_eq in E. subst l'. contradiction.
  - exact Ecopy.
  - split; [lia|]. change (locs (VObj n (child_class c) child_ps))
      with (n :: locs_of_props child_ps).
    rewrite Hlocs. cbn [locs_of_props flat_map app].
    replace (n2 - n)%nat with (S (n2 - S n)) by lia. reflexivity.
Qed.

Lemma cloneDeep_locs (v : value) (next : loc) (copy : value) (next' : loc) :
  json_like v = true -> NoDup (locs v) -> deep_enough v 20 ->
  cloneDeep v None None next = (copy, next') ->
  (next <= next')%nat /\ locs copy = seq next (next' - next).
Proof.
  intros Hj Hnd Hdeep. unfold cloneDeep. cbn [opt_default].
  destruct (_clone true v 20 (next, [])) as [child [n seen]] eqn:E.
  intros [= <- <-].
  exact (_clone_locs v 20 next [] child n seen Hj Hnd (fun _ _ => eq_refl) Hdeep E).
Qed.

Lemma extend_fold_copy (n : nat) fl fc fps (todo : props) :
  (forall k a x, In (k, a, x) todo -> a = default_attrs /\ json_like x = true) ->
  distinct (keys todo) = true -> NoDup (locs_of_props todo) ->
  (forall k a x, In (k, a, x) todo -> own fps k = Some (a, x)) ->
  forall l c acc next,
    (forall k, In k (keys todo) -> ~ In k (keys acc)) ->
    exists ps' next',
      fold_left
        (fun acc e =>
           let* '(mergeInto, next) := acc in
           extend_entry (fun into from next => extend_calls n into [from] next)
             (Z.of_nat n) (VObj fl fc fps) (fst (fst e)) (snd e) mergeInto next)
        todo (Ok (VObj l c acc, next))
      = Ok (VObj l c ps', next')
      /\ map erase_entry ps' = map erase_entry acc ++ map erase_entry todo.
Proof.
  induction todo as [|[[k a] x] todo IH]; intros Hps Hd Hnd Hown l c acc next Hacc.
  - exists acc, next. rewrite app_nil_r. auto.
  - destruct (Hps k a x (or_introl eq_refl)) as [-> Hjx].
    change (keys ((k, default_attrs, x) :: todo)) with (k :: keys todo) in *.
    apply distinct_cons in Hd as [Hk Hd].
    change (locs_of_props ((k, default_attrs, x) :: todo))
      with (locs x ++ locs_of_props todo) in *.
    assert (Habs : own acc k = None).
    { apply own_None_keys. apply Hacc. left. reflexivity. }
    assert (Hread : read acc k = VUndef) by (unfold read; rewrite Habs; reflexivity).
    cbn [fold_left bind fst snd].
    assert (Hstep : exists x' next1,
               extend_entry (fun into from next => extend_calls n into [from] next)
                 (Z.of_nat n) (VObj fl fc fps) k x (VObj l c acc) next
               = Ok (VObj l c (acc ++ [(k, default_attrs, x')]), next1)
               /\ erase x' = erase x).
    { destruct (is_object x) eqn:Eo.
      - rewrite extend_entry_clone; [|exact Hjx|exact Eo|rewrite Hread; reflexivity].
        destruct (cloneDeep x (Some (Z.of_nat n - 1)) None next) as [copy next1] eqn:Ec.
        rewrite assign_absent by (apply own_None_keys; exact Habs).
        exists copy, next1. split; [reflexivity|].
        exact (cloneDeep_shape x _ next copy next1 Hjx (NoDup_app_remove_r _ _ Hnd) Ec).
      - rewrite (extend_entry_define _ _ fl fc fps k default_attrs x l c acc next Hjx Eo
                   (Hown k default_attrs x (or_introl eq_refl))).
        rewrite (define_own_absent acc k _ Habs). exists x, next. split; reflexivity. }
    destruct Hstep as [x' [next1 [-> Hx']]].
    destruct (IH (fun k' a' y Hin => Hps k' a' y (or_intror Hin)) Hd
                 (NoDup_app_remove_l _ _ Hnd)
                 (fun k' a' y Hin => Hown k' a' y (or_intror Hin))
                 l c (acc ++ [(k, default_attrs, x')]) next1) as [ps' [next' [Hfold Hmap]]].
    + intros k' Hk' Hin. unfold keys in Hin. rewrite map_app in Hin.
      apply in_app_or in Hin as [Hin|[Hin|[]]].
      * apply (Hacc k'); [right; exact Hk'|exact Hin].
      * simpl in Hin. subst k'. exact (Hk Hk').
    + exists ps', next'. split; [exact Hfold|].
      rewrite Hmap, map_app, <- app_assoc. cbn [map app]. unfold erase_entry at 2 4.
      cbn [fst snd]. rewrite Hx'. reflexivity.
Qed.

(** [extendDeep] into an object without properties copies its source. *)
Lemma extendDeep_into_empty (l : loc) (c : cls) (fl : loc) (fc : cls) (fps : props)
    (next : loc) :
  json_like (VObj fl fc fps) = true -> NoDup (locs (VObj fl fc fps)) ->
  exists ps' next',
    extendDeep (VObj l c []) [VObj fl fc fps] next = Ok (VObj l c ps', next')
    /\ map erase_entry ps' = map erase_entry fps.
Proof.
  intros Hj Hnd. unfold extendDeep.
  change [VObj fl fc fps] with ([] ++ [VObj fl fc fps]).
  rewrite (extend_arguments_not_a_number [] (VObj fl fc fps) eq_refl).
  cbn [app DEFAULT_CLONE_DEPTH Z.ltb Z.compare].
  change (S (Z.to_nat 20)) with 21%nat. cbn [extend_calls fold_left bind].
  cbn [for_in]. rewrite (json_like_enumerable fl fc fps Hj).
  destruct (json_like_inv fl fc fps Hj) as [_ [Hd Hps]].
  change (locs (VObj fl fc fps)) with (fl :: locs_of_props fps) in Hnd.
  apply NoDup_cons_iff in Hnd as [_ Hnd].
  destruct (extend_fold_copy 20 fl fc fps fps Hps Hd Hnd
              (fun k a x Hin => own_of_distinct fps k a x Hd Hin) l c [] next)
    as [ps' [next' [Hfold Hmap]]].
  - intros k _ [].
  - exists ps', next'. split; [exact Hfold|exact Hmap].
Qed.

Lemma extendDeep_from_empty (into : value) (l : loc) (c : cls) (next : loc) :
  extendDeep into [VObj l c []] next = Ok (into, next).
Proof. reflexivity. Qed.

Lemma erase_erase (v : value) : erase (erase v) = erase v.
Proof.
  induction v as [| | | | | |l c ps IH] using value_props_ind; try reflexivity.
  cbn [erase]. f_equal. rewrite map_map. apply map_ext_in. intros e He.
  rewrite Forall_forall in IH. cbn [fst snd]. rewrite (IH e He). reflexivity.
Qed.

Lemma height_erase (v : value) : height (erase v) = height v.
Proof.
  induction v as [| | | | | |l c ps IH] using value_props_ind; try reflexivity.
  cbn [erase height]. f_equal. induction ps as [|e ps IHps]; [reflexivity|].
  apply Forall_cons_iff in IH as [He IH]. cbn [map fold_right snd].
  rewrite He, (IHps IH). reflexivity.
Qed.

Lemma same_shape_height (a b : value) : same_shape a b -> height a = height b.
Proof. unfold same_shape. intros H. rewrite <- (height_erase a), H. apply height_erase. Qed.

Lemma json_like_well_formed (v : value) : json_like v = true -> well_formed v = true.
Proof.
  induction v as [| | | | | |l c ps IH] using value_props_ind; try reflexivity.
  intros H. destruct (json_like_inv l c ps H) as [_ [Hd Hps]].
  cbn [well_formed]. rewrite Hd. cbn [andb]. rewrite forallb_forall. intros [[k a] x] Hin.
  rewrite Forall_forall in IH. exact (IH _ Hin (proj2 (Hps k a x Hin))).
Qed.

Lemma json_like_configurable (v : value) :
  json_like v = true -> configurable_throughout v = true.
Proof.
  induction v as [| | | | | |l c ps IH] using value_props_ind; try reflexivity.
  intros H. destruct (json_like_inv l c ps H) as [_ [_ Hps]].
  unfold configurable_throughout. cbn [all_attrs]. rewrite forallb_forall.
  intros [[k a] x] Hin. destruct (Hps k a x Hin) as [-> Hx]. rewrite Forall_forall in IH.
  cbn [fst snd default_attrs configurable andb]. exact (IH _ Hin Hx).
Qed.

Lemma missing_members_erase (members ps : props) :
  missing_members members (map erase_entry ps) = missing_members members ps.
Proof.
  unfold missing_members. f_equal. apply filter_ext. intros e.
  rewrite own_erase. destruct (own ps (fst (fst e))) as [[a x]|]; reflexivity.
Qed.

Lemma erase_attach_spec (members : props) (v : value) :
  erase (attach_spec members v) = erase (attach_spec members (erase v)).
Proof.
  induction v as [| | | | | |l c ps IH] using value_props_ind; try reflexivity.
  destruct (instanceof_RawConfig (VObj l c ps)) eqn:Hr.
  { destruct c; try discriminate Hr. cbn [erase attach_spec]. cbn [erase]. f_equal.
    rewrite map_map. apply map_ext_in. intros e He. cbn [fst snd].
    rewrite erase_erase. reflexivity. }
  rewrite (attach_spec_object members l c ps Hr).
  change (erase (VObj l c ps)) with (VObj 0%nat c (map erase_entry ps)).
  rewrite (attach_spec_object members 0%nat c (map erase_entry ps) Hr).
  rewrite missing_members_erase. cbn [erase]. f_equal.
  rewrite !map_app, !map_map. f_equal. apply map_ext_in. intros [[k a] x] Hin.
  rewrite Forall_forall in IH. specialize (IH _ Hin). cbn [snd] in IH.
  destruct (erase_kinds x) as [K1 [K2 _]].
  unfold erase_entry, replace_falsy. cbn [fst snd].
  destruct (own members k) as [[am member]|].
  - rewrite K2. destruct (truthy x); [|reflexivity].
    cbn [attach_child fst snd]. rewrite K1.
    destruct (enumerable a && isObject x); [rewrite IH; reflexivity|].
    rewrite erase_erase. reflexivity.
  - cbn [attach_child fst snd]. rewrite K1.
    destruct (enumerable a && isObject x); [rewrite IH; reflexivity|].
    rewrite erase_erase. reflexivity.
Qed.

Lemma same_shape_attach_spec (members : props) (a b : value) :
  same_shape a b -> same_shape (attach_spec members a) (attach_spec members b).
Proof.
  unfold same_shape. intros H.
  rewrite (erase_attach_spec members a), H, <- (erase_attach_spec members b). reflexivity.
Qed.

Lemma strict_eq_string (v : value) (s : string) : strict_eq v (VStr s) = true -> v = VStr s.
Proof.
  destruct v; simpl; try discriminate. intros H. apply String.eqb_eq in H. subst. reflexivity.
Qed.

Lemma same_shape_object (l : loc) (c : cls) (ps : props) (l' : loc) (ps' : props) :
  map erase_entry ps = map erase_entry ps' -> same_shape (VObj l c ps) (VObj l' c ps').
Proof. unfold same_shape. intros H. cbn [erase]. f_equal. exact H. Qed.

Lemma same_shape_inv_object (v : value) (l : loc) (c : cls) (ps : props) :
  same_shape v (VObj l c ps) ->
  exists l' ps', v = VObj l' c ps' /\ map erase_entry ps' = map erase_entry ps.
Proof.
  unfold same_shape. destruct v as [| | | | | |l' c' ps']; try discriminate.
  cbn [erase]. intros [= -> H]. exists l', ps'. auto.
Qed.

Lemma store_snoc (ps : props) (k : string) (a : attrs) (x y : value) :
  own ps k = None -> store (ps ++ [(k, a, x)]) k y = ps ++ [(k, a, y)].
Proof. intros H. apply store_at. apply own_None_keys. exact H. Qed.

Lemma json_like_all_props (l : loc) (c : cls) (ps : props) :
  json_like (VObj l c ps) = true -> all_props writable_configurable ps = true.
Proof. intros H. exact (json_like_unfrozen _ H). Qed.

(** Recording the defaults of a module in a source whose [parsed] is a
    JSON-like object. *)
Lemma record_defaults_recorded (fl : loc) (fc : cls) (fps : props) (m : string)
    (dl : loc) (dps : props) (next : loc) :
  is_object (read fps "parsed") = true -> json_like (read fps "parsed") = true ->
  json_like (VObj dl CObject dps) = true -> NoDup (locs (VObj dl CObject dps)) ->
  exists fps' next' parsed recorded,
    record_defaults (VObj fl fc fps) m (VObj dl CObject dps) next
    = Ok (VObj fl fc fps', next')
    /\ read fps' "name" = read fps "name"
    /\ get_prop (VObj fl fc fps') "parsed" = Ok parsed
    /\ get_prop parsed m = Ok recorded
    /\ same_shape recorded (VObj dl CObject dps).
Proof.
  intros Ho Hj Hdj Hnd. unfold record_defaults. rewrite get_prop_read. cbn [bind].
  destruct (read_object_own fps "parsed" Ho) as [pa Hown].
  destruct (read fps "parsed") as [| | | | | |pl pc pps] eqn:Ep; try discriminate Ho.
  cbn [set_prop bind].
  destruct (own_assign_same pps m (VObj next CObject []) (json_like_all_props pl pc pps Hj))
    as [a Ha].
  cbn [get_prop]. rewrite Ha. cbn [bind].
  destruct (extendDeep_into_empty next CObject dl CObject dps (S next) Hdj Hnd)
    as [ps' [next' [-> Hmap]]].
  cbn [bind store_in]. eexists _, next', _, (VObj next CObject ps').
  split; [reflexivity|]. split; [|split; [|split]].
  - unfold read. rewrite own_store_other by discriminate. reflexivity.
  - cbn [get_prop]. rewrite (own_store_same fps "parsed" pa _ _ Hown). reflexivity.
  - cbn [get_prop]. rewrite (own_store_same _ m a _ _ Ha). reflexivity.
  - apply same_shape_object. exact Hmap.
Qed.

Lemma module_defaults_source (sources : list value) (n1 : loc) :
  sources_ready sources = true ->
  exists missing fl fc fps n2,
    no_module_defaults sources = Ok missing
    /\ (if missing
        then (VObj n1 CObject [("name", default_attrs, VStr "Module Defaults");
                               ("parsed", default_attrs, VObj (S n1) CObject [])]
                :: sources, S (S n1))
        else (sources, n1))
       = (VObj fl fc fps :: other_sources sources, n2)
    /\ is_object (read fps "parsed") = true
    /\ json_like (read fps "parsed") = true
    /\ read fps "name" = VStr "Module Defaults".
Proof.
  intros Hready. destruct sources as [|[| | | | | |sl sc sps] rest]; try discriminate Hready.
  - exists true. do 4 eexists. split; [reflexivity|]. split; [reflexivity|].
    repeat split; reflexivity.
  - cbn [no_module_defaults]. rewrite get_prop_read. cbn [bind].
    cbn [other_sources]. cbn [sources_ready] in Hready.
    destruct (strict_eq (read sps "name") (VStr "Module Defaults")) eqn:En.
    + cbn [negb orb] in Hready. apply andb_true_iff in Hready as [Ho Hj].
      exists false, sl, sc, sps, n1. cbn [negb].
      repeat split; auto. apply strict_eq_string. exact En.
    + exists true. do 4 eexists. cbn [negb]. split; [reflexivity|]. split; [reflexivity|].
      repeat split; reflexivity.
Qed.

Lemma merge_module_defaults_absent argv process_env members vars tl tc tps m dl dps next :
  sources_ready (configSources vars) = true ->
  own tps m = None -> own members m = None ->
  json_like (VObj dl CObject dps) = true -> NoDup (locs (VObj dl CObject dps)) ->
  deep_enough (VObj dl CObject dps) 20 ->
  exists r0 fl fc fps next',
    merge_module_defaults argv process_env members vars (VObj tl tc tps) m
      (VObj dl CObject dps) next
    = Ok (r0, VObj tl tc (tps ++ [(m, default_attrs, r0)]),
          mkVars (VObj fl fc fps :: other_sources (configSources vars))
            (snd (initParam argv process_env (env vars) "ALLOW_CONFIG_MUTATIONS" (VBool false)))
            (mkState (config (state vars))
               (if negb (truthy (fst (initParam argv process_env (env vars)
                                        "ALLOW_CONFIG_MUTATIONS" (VBool false))))
                then true else checkMutability (state vars))),
          next')
    /\ same_shape r0 (VObj dl CObject dps)
    /\ read fps "name" = VStr "Module Defaults"
    /\ exists parsed recorded,
         get_prop (VObj fl fc fps) "parsed" = Ok parsed
         /\ get_prop parsed m = Ok recorded
         /\ same_shape recorded (VObj dl CObject dps).
Proof.
  intros Hready Ht Hm Hj Hnd Hdeep. unfold merge_module_defaults.
  destruct (cloneDeep (VObj dl CObject dps) None None next) as [mc n1] eqn:Ec.
  pose proof (cloneDeep_shape _ None next mc n1 Hj Hnd Ec) as Hshape.
  destruct (cloneDeep_locs _ next mc n1 Hj Hnd Hdeep Ec) as [_ Hlocs].
  assert (Hmnd : NoDup (locs mc)) by (rewrite Hlocs; apply seq_NoDup).
  pose proof (same_shape_json_like mc _ Hshape Hj) as Hmj.
  destruct (same_shape_inv_object mc dl CObject dps Hshape) as [ml [mps [-> Hmps]]].
  destruct (module_defaults_source (configSources vars) n1 Hready)
    as [missing [fl [fc [fps [n2 [Hnm [Hif [Hpo [Hpj Hname]]]]]]]]].
  rewrite Hnm. cbn [bind]. rewrite Hif.
  destruct (record_defaults_recorded fl fc fps m dl dps n2 Hpo Hpj Hj Hnd)
    as [fps' [n3 [parsed [recorded [-> [Hname' [Hparsed [Hrec Hrshape]]]]]]]].
  cbn [bind get_inherited]. rewrite Ht. unfold read at 1. rewrite Hm.
  cbn [truthy bind set_inherited]. rewrite Ht, Hm.
  rewrite (assign_absent tps m _ (proj1 (own_None_keys tps m) Ht)).
  cbn [bind get_inherited]. rewrite own_app, Ht. cbn [own]. rewrite String.eqb_refl.
  cbn [bind]. rewrite extendDeep_from_empty. cbn [bind].
  destruct (extendDeep_into_empty n3 CObject ml CObject mps (S n3) Hmj Hmnd)
    as [ps' [n4 [-> Hmap]]].
  cbn [bind store_in]. rewrite (store_snoc tps m _ _ _ Ht).
  unfold initParam at 1. cbn [get_inherited]. rewrite own_app, Ht. cbn [own].
  rewrite String.eqb_refl. cbn [bind].
  exists (VObj n3 CObject ps'), fl, fc, fps', n4. split; [reflexivity|].
  split; [|split].
  - apply same_shape_object. rewrite Hmap. exact Hmps.
  - rewrite Hname'. exact Hname.
  - exists parsed, recorded. auto.
Qed.





Lemma json_like_intro (l : loc) (c : cls) (ps : props) :
  c = CObject \/ c = CArray ->
  distinct (keys ps) = true ->
  (forall k a x, In (k, a, x) ps -> a = default_attrs /\ json_like x = true) ->
  json_like (VObj l c ps) = true.
Proof.
  intros Hc Hd Hps. cbn [json_like]. rewrite Hd.
  assert (E : match c with CObject | CArray => true | _ => false end = true)
    by (destruct Hc as [-> | ->]; reflexivity).
  rewrite E. cbn [andb]. rewrite forallb_forall. intros [[k a] x] Hin.
  destruct (Hps k a x Hin) as [-> Hx]. cbn [fst snd]. rewrite Hx. reflexivity.
Qed.

(** Defining a JSON-like value, with the attributes of an assignment, on a
    JSON-like object. *)
Lemma define_own_json (l : loc) (c : cls) (acc : props) (k : string) (x : value) :
  json_like (VObj l c acc) = true -> json_like x = true ->
  exists acc',
    define_own acc k (mkDesc (Some x) (Some true) (Some true) (Some true)) = Some acc'
    /\ json_like (VObj l c acc') = true
    /\ own acc' k = Some (default_attrs, x)
    /\ (forall k', k <> k' -> own acc' k' = own acc k')
    /\ (forall k' a y, In (k', a, y) acc' -> In (k', a, y) acc \/ y = x).
Proof.
  intros Hj Hx. destruct (json_like_inv l c acc Hj) as [Hc [Hd Hps]].
  assert (Hdef : exists acc',
             define_own acc k (mkDesc (Some x) (Some true) (Some true) (Some true))
             = Some acc').
  { destruct (own acc k) as [[a x0]|] eqn:E.
    - pose proof (define_own_present acc k
                    (mkDesc (Some x) (Some true) (Some true) (Some true)) a x0 E) as H.
      destruct (Hps k a x0 (own_In acc k a x0 E)) as [-> _].
      cbn in H. destruct H as [ps' [H _]]. eauto.
    - rewrite (define_own_absent acc k _ E). eauto. }
  destruct Hdef as [acc' Hdef]. exists acc'. split; [exact Hdef|].
  pose proof (own_define_same acc acc' k default_attrs x Hdef) as Hsame.
  pose proof (fun k' => own_define_other acc acc' k k' _ Hdef) as Hother.
  assert (Hd' : distinct (keys acc') = true).
  { destruct (keys_define acc acc' k _ Hdef) as [->|[Hk ->]]; [exact Hd|].
    apply distinct_snoc; assumption. }
  assert (Hin : forall k' a y, In (k', a, y) acc' ->
                               (k' = k /\ a = default_attrs /\ y = x) \/ In (k', a, y) acc).
  { intros k' a y H. pose proof (own_of_distinct acc' k' a y Hd' H) as Ho.
    destruct (String.eqb_spec k k') as [<-|Hne].
    - rewrite Hsame in Ho. injection Ho as <- <-. auto.
    - rewrite (Hother k' Hne) in Ho. right. exact (own_In acc k' a y Ho). }
  split; [|split; [exact Hsame|split; [exact Hother|]]].
  - apply json_like_intro; [exact Hc|exact Hd'|].
    intros k' a y H. destruct (Hin k' a y H) as [[_ [-> ->]]|H']; [auto|].
    exact (Hps k' a y H').
  - intros k' a y H. destruct (Hin k' a y H) as [[_ [_ ->]]|H']; auto.
Qed.

(** The loop of [extendDeep] over scalar properties of a source, on a
    JSON-like destination. *)
Lemma extend_fold_scalars (n : nat) fl fc fps (todo : props) :
  (forall k a x, In (k, a, x) todo ->
                 a = default_attrs /\ scalar x = true /\ json_like x = true
                 /\ own fps k = Some (a, x)) ->
  distinct (keys todo) = true ->
  forall l c acc next,
    json_like (VObj l c acc) = true ->
    exists acc',
      fold_left
        (fun acc e =>
           let* '(mergeInto, next) := acc in
           extend_entry (fun into from next => extend_calls n into [from] next)
             (Z.of_nat n) (VObj fl fc fps) (fst (fst e)) (snd e) mergeInto next)
        todo (Ok (VObj l c acc, next))
      = Ok (VObj l c acc', next)
      /\ json_like (VObj l c acc') = true
      /\ (forall k a x, In (k, a, x) todo -> own acc' k = Some (default_attrs, x))
      /\ (forall k, ~ In k (keys todo) -> own acc' k = own acc k)
      /\ (forall k a y, In (k, a, y) acc' -> In (k, a, y) acc \/ scalar y = true).
Proof.
  induction todo as [|[[k a] x] todo IH]; intros Hps Hd l c acc next Hj.
  - exists acc. repeat split; auto. intros k a x [].
  - destruct (Hps k a x (or_introl eq_refl)) as [-> [Hs [Hjx Hown]]].
    change (keys ((k, default_attrs, x) :: todo)) with (k :: keys todo) in *.
    apply distinct_cons in Hd as [Hk Hd].
    cbn [fold_left bind fst snd].
    assert (Ho : is_object x = false) by (destruct x; try reflexivity; discriminate Hs).
    rewrite (extend_entry_define _ _ fl fc fps k default_attrs x l c acc next Hjx Ho Hown).
    destruct (define_own_json l c acc k x Hj Hjx) as [acc1 [Hdef [Hj1 [Hsame [Hother Hin1]]]]].
    cbn [writable enumerable configurable default_attrs]. rewrite Hdef.
    destruct (IH (fun k' a' x' Hin => Hps k' a' x' (or_intror Hin)) Hd l c acc1 next Hj1)
      as [acc' [Hfold [Hj' [Hdone [Hrest Hin']]]]].
    exists acc'. split; [exact Hfold|]. split; [exact Hj'|]. split; [|split].
    + intros k' a' x' [E|Hin].
      * injection E as <- <- <-. rewrite (Hrest k Hk). exact Hsame.
      * exact (Hdone k' a' x' Hin).
    + intros k' Hk'. rewrite (Hrest k' (fun H => Hk' (or_intror H))).
      apply Hother. intros ->. apply Hk'. left. reflexivity.
    + intros k' a' y H. destruct (Hin' k' a' y H) as [H1|H1]; [|auto].
      destruct (Hin1 k' a' y H1) as [H2| ->]; auto.
Qed.

Lemma flat_config_inv (ps : props) :
  flat_config ps = true ->
  distinct (keys ps) = true
  /\ forall k a x, In (k, a, x) ps ->
       (enumerable a = true ->
        a = default_attrs /\ scalar x = true /\ json_like x = true)
       /\ (enumerable a = false ->
           truthy x = true /\ well_formed x = true /\ configurable_throughout x = true).
Proof.
  unfold flat_config. rewrite andb_true_iff. intros [Hd Hps]. split; [exact Hd|].
  intros k a x Hin. rewrite forallb_forall in Hps. specialize (Hps _ Hin).
  cbn [fst snd] in Hps. split; intros Ea; rewrite Ea in Hps;
    rewrite !andb_true_iff in Hps; destruct Hps as [[H1 H2] H3]; repeat split; auto.
  apply attrs_eqb_eq. exact H1.
Qed.

(** Merging a flat configuration object into a JSON-like object: the
    enumerable properties of the source are defined on the destination,
    everything else stays. *)
Lemma extendDeep_flat_source (ml : loc) (mps : props) (ll : loc) (lc : cls) (lps : props)
    (next : loc) :
  json_like (VObj ml CObject mps) = true -> flat_config lps = true ->
  exists mps',
    extendDeep (VObj ml CObject mps) [VObj ll lc lps] next
    = Ok (VObj ml CObject mps', next)
    /\ json_like (VObj ml CObject mps') = true
    /\ (forall k a x, own lps k = Some (a, x) -> enumerable a = true ->
                      own mps' k = Some (default_attrs, x))
    /\ (forall k, match own lps k with Some (a, _) => enumerable a | None => false end
                  = false ->
                  own mps' k = own mps k)
    /\ (forall k a y, In (k, a, y) mps' -> In (k, a, y) mps \/ scalar y = true).
Proof.
  intros Hj Hflat. destruct (flat_config_inv lps Hflat) as [Hd Hps].
  unfold extendDeep. change [VObj ll lc lps] with ([] ++ [VObj ll lc lps]).
  rewrite (extend_arguments_not_a_number [] (VObj ll lc lps) eq_refl).
  cbn [app DEFAULT_CLONE_DEPTH Z.ltb Z.compare].
  change (S (Z.to_nat 20)) with 21%nat. cbn [extend_calls fold_left bind for_in].
  destruct (extend_fold_scalars 20 ll lc lps (enumerable_props lps)) with
    (l := ml) (c := CObject) (acc := mps) (next := next)
    as [mps' [Hfold [Hj' [Hdone [Hrest Hin]]]]].
  - intros k a x H. apply filter_In in H as [H Ea]. cbn [fst snd] in Ea.
    destruct (proj1 (Hps k a x H) Ea) as [-> [Hs Hx]]. repeat split; auto.
    apply own_of_distinct; assumption.
  - apply distinct_enumerable. exact Hd.
  - exact Hj.
  - exists mps'. split; [exact Hfold|]. split; [exact Hj'|]. split; [|split; [|exact Hin]].
    + intros k a x Hown Ea. apply (Hdone k a x). apply filter_In. split; [|exact Ea].
      exact (own_In lps k a x Hown).
    + intros k Hk. apply Hrest. intros H. apply keys_In in H as [a [x H]].
      apply filter_In in H as [H Ea]. cbn [fst snd] in Ea.
      rewrite (own_of_distinct lps k a x Hd H), Ea in Hk. discriminate.
Qed.

Lemma define_own_same_entry (ps : props) (k : string) (y : value) :
  own ps k = Some (default_attrs, y) ->
  define_own ps k (mkDesc (Some y) (Some true) (Some true) (Some true)) = Some ps.
Proof.
  induction ps as [|[[k' a] x] ps IH]; [discriminate|].
  cbn [own define_own]. destruct (String.eqb k' k).
  - intros [= -> ->]. reflexivity.
  - intros H. rewrite (IH H). reflexivity.
Qed.

(** The loop of [extendDeep] over a JSON-like source, on a flat
    configuration object that holds the same scalars under the keys the two
    share: the keys it lacks are added after its own. *)
Lemma extend_fold_into_flat (n : nat) fl fc fps (lps todo : props) :
  (forall k a y, In (k, a, y) todo ->
                 a = default_attrs /\ json_like y = true /\ NoDup (locs y)
                 /\ own fps k = Some (a, y)
                 /\ match own lps k with
                    | Some (la, lx) => la = default_attrs /\ lx = y /\ scalar y = true
                    | None => True
                    end) ->
  distinct (keys todo) = true ->
  forall l c new next,
    (forall k, In k (keys todo) -> ~ In k (keys new)) ->
    exists new' next',
      fold_left
        (fun acc e =>
           let* '(mergeInto, next) := acc in
           extend_entry (fun into from next => extend_calls n into [from] next)
             (Z.of_nat n) (VObj fl fc fps) (fst (fst e)) (snd e) mergeInto next)
        todo (Ok (VObj l c (lps ++ new), next))
      = Ok (VObj l c (lps ++ new'), next')
      /\ map erase_entry new'
         = map erase_entry new
           ++ map erase_entry
                (filter (fun e => match own lps (fst (fst e)) with
                                  | Some _ => false
                                  | None => true
                                  end) todo).
Proof.
  induction todo as [|[[k a] y] todo IH]; intros Hps Hd l c new next Hnew.
  - exists new, next. cbn [filter map]. rewrite app_nil_r. auto.
  - destruct (Hps k a y (or_introl eq_refl)) as [-> [Hjy [Hnd [Hown Hlocal]]]].
    change (keys ((k, default_attrs, y) :: todo)) with (k :: keys todo) in *.
    apply distinct_cons in Hd as [Hk Hd].
    cbn [fold_left bind fst snd filter].
    assert (Hps' : forall k' a' y', In (k', a', y') todo ->
                     a' = default_attrs /\ json_like y' = true /\ NoDup (locs y')
                     /\ own fps k' = Some (a', y')
                     /\ match own lps k' with
                        | Some (la, lx) => la = default_attrs /\ lx = y' /\ scalar y' = true
                        | None => True
                        end).
    { intros k' a' y' Hin. apply Hps. right. exact Hin. }
    destruct (own lps k) as [[la lx]|] eqn:El.
    + destruct Hlocal as [-> [-> Hs]].
      assert (Ho : is_object y = false) by (destruct y; try reflexivity; discriminate Hs).
      rewrite (extend_entry_define _ _ fl fc fps k default_attrs y l c _ next Hjy Ho Hown).
      cbn [writable enumerable configurable default_attrs].
      rewrite (define_own_app lps new k _ default_attrs y El),
        (define_own_same_entry lps k y El).
      apply (IH Hps' Hd l c new next). intros k' Hk'. apply Hnew. right. exact Hk'.
    + assert (Habs : own (lps ++ new) k = None).
      { rewrite own_app, El. apply own_None_keys. apply Hnew. left. reflexivity. }
      assert (Hread : read (lps ++ new) k = VUndef) by (unfold read; rewrite Habs; reflexivity).
      assert (Hstep : exists y' next1,
                 extend_entry (fun into from next => extend_calls n into [from] next)
                   (Z.of_nat n) (VObj fl fc fps) k y (VObj l c (lps ++ new)) next
                 = Ok (VObj l c ((lps ++ new) ++ [(k, default_attrs, y')]), next1)
                 /\ erase y' = erase y).
      { destruct (is_object y) eqn:Eo.
        - rewrite extend_entry_clone; [|exact Hjy|exact Eo|rewrite Hread; reflexivity].
          destruct (cloneDeep y (Some (Z.of_nat n - 1)) None next) as [copy next1] eqn:Ec.
          rewrite assign_absent by (apply own_None_keys; exact Habs).
          exists copy, next1. split; [reflexivity|].
          exact (cloneDeep_shape y _ next copy next1 Hjy Hnd Ec).
        - rewrite (extend_entry_define _ _ fl fc fps k default_attrs y l c _ next Hjy Eo Hown).
          rewrite (define_own_absent _ k _ Habs). exists y, next. split; reflexivity. }
      destruct Hstep as [y' [next1 [-> Hy']]]. rewrite <- app_assoc.
      destruct (IH Hps' Hd l c (new ++ [(k, default_attrs, y')]) next1)
        as [new' [next' [Hfold Hmap]]].
      * intros k' Hk' Hin. unfold keys in Hin. rewrite map_app in Hin.
        apply in_app_or in Hin as [Hin|[Hin|[]]].
        -- apply (Hnew k'); [right; exact Hk'|exact Hin].
        -- simpl in Hin. subst k'. exact (Hk Hk').
      * exists new', next'. split; [exact Hfold|].
        rewrite Hmap, map_app, <- app_assoc. cbn [map app]. unfold erase_entry at 2 4.
        cbn [fst snd]. rewrite Hy'. reflexivity.
Qed.

Lemma assign_same (ps : props) (k : string) (a : attrs) (x : value) :
  own ps k = Some (a, x) -> assign ps k x = ps.
Proof.
  induction ps as [|[[k' a'] x'] ps IH]; [discriminate|].
  cbn [own assign]. destruct (String.eqb k' k).
  - intros [= -> ->]. destruct (writable a); reflexivity.
  - intros H. rewrite (IH H). reflexivity.
Qed.

Lemma own_filter_key (p : string -> bool) (ps : props) (k : string) :
  own (filter (fun e => p (fst (fst e))) ps) k = if p k then own ps k else None.
Proof.
  induction ps as [|[[k' a] x] ps IH]; [destruct (p k); reflexivity|].
  cbn [filter fst snd own]. destruct (String.eqb_spec k' k) as [->|Hne].
  - destruct (p k) eqn:Ep; [cbn [own]; rewrite String.eqb_refl; reflexivity|].
    exact IH.
  - destruct (p k'); [cbn [own]; destruct (String.eqb_spec k' k); [contradiction|]|];
      exact IH.
Qed.

Lemma distinct_keys_filter (f : string * attrs * value -> bool) (ps : props) :
  distinct (keys ps) = true -> distinct (keys (filter f ps)) = true.
Proof.
  induction ps as [|[[k a] x] ps IH]; [reflexivity|].
  change (keys ((k, a, x) :: ps)) with (k :: keys ps).
  rewrite distinct_cons. intros [Hk Hd]. cbn [filter].
  destruct (f (k, a, x)); [|exact (IH Hd)].
  change (keys ((k, a, x) :: filter f ps)) with (k :: keys (filter f ps)).
  apply distinct_cons. split; [|exact (IH Hd)].
  intros Hin. apply Hk. apply keys_In in Hin as [a' [x' Hin]].
  apply filter_In in Hin as [Hin _]. apply keys_In. eauto.
Qed.

Lemma distinct_app (ks1 ks2 : list string) :
  distinct ks1 = true -> distinct ks2 = true ->
  (forall k, In k ks1 -> ~ In k ks2) -> distinct (ks1 ++ ks2) = true.
Proof.
  intros H1 H2 H. apply NoDup_distinct. apply NoDup_app; auto using distinct_NoDup.
Qed.

Lemma erase_scalar_inv (v x : value) : erase v = x -> scalar x = true -> v = x.
Proof. intros <-. destruct v; try reflexivity. discriminate. Qed.

Lemma scalar_erase (x : value) : scalar x = true -> erase x = x.
Proof. destruct x; try reflexivity. discriminate. Qed.

Lemma scalar_well_formed (x : value) : scalar x = true -> well_formed x = true.
Proof. destruct x; try reflexivity. discriminate. Qed.

(** Merging a JSON-like object into a flat configuration object that
    already holds, under the keys the two share, the scalars of the source. *)
Lemma extendDeep_into_flat (ll : loc) (lc : cls) (lps : props) (ml : loc) (mps : props)
    (next : loc) :
  flat_config lps = true -> json_like (VObj ml CObject mps) = true ->
  (forall k a y, In (k, a, y) mps -> NoDup (locs y)) ->
  (forall k la lx, own lps k = Some (la, lx) -> In k (keys mps) ->
                   enumerable la = true /\ own mps k = Some (default_attrs, lx)) ->
  exists new next',
    extendDeep (VObj ll lc lps) [VObj ml CObject mps] next
    = Ok (VObj ll lc (lps ++ new), next')
    /\ map erase_entry new
       = map erase_entry
           (filter (fun e => match own lps (fst (fst e)) with
                             | Some _ => false
                             | None => true
                             end) mps).
Proof.
  intros Hflat Hj Hnd Hshared. destruct (flat_config_inv lps Hflat) as [Hd Hps].
  destruct (json_like_inv ml CObject mps Hj) as [_ [Hmd Hmps]].
  unfold extendDeep. change [VObj ml CObject mps] with ([] ++ [VObj ml CObject mps]).
  rewrite (extend_arguments_not_a_number [] (VObj ml CObject mps) eq_refl).
  cbn [app DEFAULT_CLONE_DEPTH Z.ltb Z.compare].
  change (S (Z.to_nat 20)) with 21%nat. cbn [extend_calls fold_left bind for_in].
  rewrite (json_like_enumerable ml CObject mps Hj).
  destruct (extend_fold_into_flat 20 ml CObject mps lps mps) with
    (l := ll) (c := lc) (new := @nil (string * attrs * value)) (next := next)
    as [new [next' [Hfold Hmap]]].
  - intros k a y Hin. destruct (Hmps k a y Hin) as [-> Hjy].
    pose proof (own_of_distinct mps k default_attrs y Hmd Hin) as Hown.
    repeat split; auto; [exact (Hnd k default_attrs y Hin)|].
    destruct (own lps k) as [[la lx]|] eqn:El; [|exact I].
    assert (Hk : In k (keys mps)) by (apply keys_In; eauto).
    destruct (Hshared k la lx El Hk) as [Ea Hm]. rewrite Hown in Hm. injection Hm as <-.
    destruct (proj1 (Hps k la y (own_In lps k la y El)) Ea) as [-> [Hs _]]. auto.
  - exact Hmd.
  - intros k _ [].
  - rewrite app_nil_r in Hfold. exists new, next'. split; [exact Hfold|exact Hmap].
Qed.

Lemma own_attach_spec_kept (members : props) (l : loc) (c : cls) (ps : props)
    (k : string) (a : attrs) (x : value) :
  own ps k = Some (a, x) -> scalar x = true -> shadowed members (k, a, x) = false ->
  exists ps', attach_spec members (VObj l c ps) = VObj l c ps' /\ own ps' k = Some (a, x).
Proof.
  intros Hown Hs Hsh. destruct (instanceof_RawConfig (VObj l c ps)) eqn:Hr.
  { destruct c; try discriminate Hr. exists ps. split; [reflexivity|exact Hown]. }
  rewrite (attach_spec_object members l c ps Hr). eexists. split; [reflexivity|].
  rewrite (own_map_entry _ _ k (attach_child_key members)), own_app.
  rewrite (own_map_entry _ _ k (replace_falsy_key members)), Hown.
  assert (E : replace_falsy members (k, a, x) = (k, a, x)).
  { unfold shadowed in Hsh. unfold replace_falsy. cbn [fst snd] in Hsh.
    destruct (own members k) as [[am member]|]; [|reflexivity].
    apply negb_false_iff in Hsh. rewrite Hsh. reflexivity. }
  rewrite E. cbn [fst snd attach_child].
  assert (Ho : isObject x = false) by (destruct x; try reflexivity; discriminate Hs).
  rewrite Ho, andb_false_r. reflexivity.
Qed.

(** The statements of [setModuleDefaults] before its [return], for a module
    that has a flat configuration object. *)
Lemma merge_module_defaults_present argv process_env members vars tl tc tps m ta
    ll lc lps dl dps next :
  sources_ready (configSources vars) = true ->
  own tps m = Some (ta, VObj ll lc lps) ->
  flat_config lps = true ->
  json_like (VObj dl CObject dps) = true -> NoDup (locs (VObj dl CObject dps)) ->
  deep_enough (VObj dl CObject dps) 20 ->
  visible_in lps dps = true ->
  exists new vars' next',
    merge_module_defaults argv process_env members vars (VObj tl tc tps) m
      (VObj dl CObject dps) next
    = Ok (VObj ll lc (lps ++ new),
          VObj tl tc (store tps m (VObj ll lc (lps ++ new))), vars', next')
    /\ distinct (keys (lps ++ new)) = true
    /\ (forall k a y, In (k, a, y) new -> a = default_attrs /\ json_like y = true)
    /\ (forall k a x, own dps k = Some (a, x) -> own lps k = None -> scalar x = true ->
                      own new k = Some (default_attrs, x)).
Proof.
  intros Hready Ht Hflat Hj Hnd Hdeep Hvis. unfold merge_module_defaults.
  destruct (flat_config_inv lps Hflat) as [Hld Hlps].
  destruct (cloneDeep (VObj dl CObject dps) None None next) as [mc n1] eqn:Ec.
  pose proof (cloneDeep_shape _ None next mc n1 Hj Hnd Ec) as Hshape.
  destruct (cloneDeep_locs _ next mc n1 Hj Hnd Hdeep Ec) as [_ Hlocs].
  assert (Hmnd : NoDup (locs mc)) by (rewrite Hlocs; apply seq_NoDup).
  pose proof (same_shape_json_like mc _ Hshape Hj) as Hmj.
  destruct (same_shape_inv_object mc dl CObject dps Hshape) as [ml [mps [-> Hmps]]].
  destruct (module_defaults_source (configSources vars) n1 Hready)
    as [missing [fl [fc [fps [n2 [Hnm [Hif [Hpo [Hpj Hname]]]]]]]]].
  rewrite Hnm. cbn [bind]. rewrite Hif.
  destruct (record_defaults_recorded fl fc fps m dl dps n2 Hpo Hpj Hj Hnd)
    as [fps' [n3 [parsed [recorded [-> _]]]]].
  cbn [bind get_inherited]. rewrite Ht. cbn [truthy bind set_inherited]. rewrite Ht.
  rewrite (assign_same tps m ta _ Ht). cbn [bind get_inherited]. rewrite Ht. cbn [bind].
  destruct (extendDeep_flat_source ml mps ll lc lps n3 Hmj Hflat)
    as [mps' [-> [Hj' [Hwin [Hrest Hin]]]]].
  cbn [bind].
  destruct (json_like_inv ml CObject mps' Hj') as [_ [Hmd' Hmps']].
  assert (Hkeys : keys mps = keys dps).
  { rewrite <- (keys_erase mps), Hmps. apply keys_erase. }
  assert (Hnd' : forall k a y, In (k, a, y) mps' -> NoDup (locs y)).
  { intros k a y H. destruct (Hin k a y H) as [H'|Hs].
    - exact (NoDup_locs_In ml CObject mps k a y Hmnd H').
    - destruct y; try discriminate Hs; constructor. }
  assert (Hshared : forall k la lx, own lps k = Some (la, lx) -> In k (keys mps') ->
                      enumerable la = true /\ own mps' k = Some (default_attrs, lx)).
  { intros k la lx El Hk. destruct (enumerable la) eqn:Ea.
    - split; [reflexivity|]. exact (Hwin k la lx El Ea).
    - exfalso. assert (Hr : own mps' k = own mps k) by (apply Hrest; rewrite El; exact Ea).
      assert (Hk' : In k (keys dps)).
      { rewrite <- Hkeys. destruct (own mps k) eqn:Em.
        - destruct p as [a y]. apply keys_In. exists a, y. exact (own_In mps k a y Em).
        - rewrite ?Em in Hr. apply own_None_keys in Hr. contradiction. }
      unfold visible_in in Hvis. rewrite forallb_forall in Hvis.
      specialize (Hvis k Hk'). rewrite El, Ea in Hvis. discriminate. }
  destruct (extendDeep_into_flat ll lc lps ml mps' n3 Hflat Hj' Hnd' Hshared)
    as [new [n4 [-> Hmap]]].
  cbn [bind store_in]. unfold initParam at 1. cbn [get_inherited].
  rewrite (own_store_same tps m ta _ _ Ht). cbn [bind].
  exists new. do 2 eexists. split; [reflexivity|].
  set (absent := fun e : string * attrs * value =>
                   match own lps (fst (fst e)) with Some _ => false | None => true end)
    in Hmap.
  assert (Hknew : keys new = keys (filter absent mps')).
  { rewrite <- (keys_erase new), Hmap. apply keys_erase. }
  split; [|split].
  - unfold keys. rewrite map_app. apply distinct_app; [exact Hld| |].
    + fold (keys new). rewrite Hknew. apply distinct_keys_filter. exact Hmd'.
    + fold (keys lps) (keys new). rewrite Hknew. intros k Hk Hk'.
      apply keys_In in Hk' as [a [y H]]. apply filter_In in H as [_ H].
      unfold absent in H. cbn [fst] in H.
      destruct (own lps k) eqn:El; [discriminate H|].
      apply own_None_keys in El. contradiction.
  - intros k a y H. apply (in_map erase_entry) in H. rewrite Hmap in H.
    apply in_map_iff in H as [[[k2 a2] y2] [E H]]. apply filter_In in H as [H _].
    unfold erase_entry in E. cbn [fst snd] in E. injection E as -> -> Ey.
    destruct (Hmps' k a y2 H) as [-> Hy2]. split; [reflexivity|].
    exact (same_shape_json_like y y2 (eq_sym Ey) Hy2).
  - intros k a x Hd Hl Hs.
    assert (Hm : own mps k = Some (a, x)).
    { pose proof (own_erase mps k) as H1. rewrite Hmps, own_erase, Hd in H1.
      destruct (own mps k) as [[a' y]|]; [|discriminate H1].
      injection H1 as Ea Hy. rewrite (scalar_erase x Hs) in Hy.
      assert (Ey : y = x) by (apply erase_scalar_inv; [congruence|exact Hs]).
      congruence. }
    assert (Hm' : own mps' k = Some (a, x)).
    { rewrite (Hrest k); [exact Hm|]. rewrite Hl. reflexivity. }
    destruct (Hmps' k a x (own_In mps' k a x Hm')) as [-> _].
    pose proof (own_filter_key
                  (fun k => match own lps k with Some _ => false | None => true end)
                  mps' k) as Hf.
    cbn beta in Hf. rewrite Hl, Hm' in Hf.
    pose proof (own_erase new k) as H1. rewrite Hmap in H1. unfold absent in H1.
    rewrite own_erase, Hf in H1.
    destruct (own new k) as [[a' y]|]; [|discriminate H1].
    injection H1 as Ea Hy. rewrite (scalar_erase x Hs) in Hy.
    assert (Ey : y = x) by (apply erase_scalar_inv; [congruence|exact Hs]).
    congruence.
Qed.


